(** * Soulful Space Ambient Player: a model of [src/utils/ambientPlayer.js]

    The module keeps its state in module-scoped variables and drives six
    sound layers with [setTimeout] callbacks.  The development embeds that
    state, the browser's table of pending timers, the two [localStorage]
    keys the module owns and the observable effects (console output and
    the commands sent to the Web Audio graph), then proves the properties
    the specification states about starting, stopping, the arpeggiator
    coupling, the parameter setters and the settings codec. *)

From Stdlib Require Import PrimFloat FloatOps SpecFloat.
From Stdlib Require Import ZArith List Bool String Lia PeanoNat.
Import ListNotations.

Set Warnings "-inexact-float,-register-all".

(** ** JavaScript numbers

    A JavaScript number is an IEEE 754 binary64 value; [spec_float] is its
    inductive description (signed zeros, infinities, a single NaN, finite
    values by sign, mantissa and exponent). *)

Module Num.

Definition number := spec_float.

(** The number a source literal denotes. *)
Definition lit (f : float) : number := Prim2SF f.

Definition NaN : number := S754_nan.
Definition Infinity : number := S754_infinity false.
Definition NegInfinity : number := S754_infinity true.

Definition isNaN (x : number) : bool :=
  match x with S754_nan => true | _ => false end.

(** [a < b] and [a <= b]; both are false when an operand is NaN. *)
Definition lt (a b : number) : bool := SFltb a b.
Definition le (a b : number) : bool := SFleb a b.

(** [a * b] and [a / b] in binary64. *)
Definition mul (a b : number) : number := SFmul 53 1024 a b.
Definition div (a b : number) : number := SFdiv 53 1024 a b.

Definition isPosZero (x : number) : bool :=
  match x with S754_zero false => true | _ => false end.
Definition isNegZero (x : number) : bool :=
  match x with S754_zero true => true | _ => false end.

(** [Math.max(...l)] (ECMA-262, 21.3.2.24): NaN if any argument is NaN;
    otherwise the running maximum from -Infinity, where +0 beats -0. *)
Fixpoint max_from (highest : number) (l : list number) : number :=
  match l with
  | [] => highest
  | x :: l' =>
      let highest' :=
        if isPosZero x && isNegZero highest then x
        else if lt highest x then x else highest in
      max_from highest' l'
  end.

Definition Math_max (l : list number) : number :=
  if existsb isNaN l then NaN else max_from NegInfinity l.

(** [Math.min(...l)] (ECMA-262, 21.3.2.25), dually. *)
Fixpoint min_from (lowest : number) (l : list number) : number :=
  match l with
  | [] => lowest
  | x :: l' =>
      let lowest' :=
        if isNegZero x && isPosZero lowest then x
        else if lt x lowest then x else lowest in
      min_from lowest' l'
  end.

Definition Math_min (l : list number) : number :=
  if existsb isNaN l then NaN else min_from Infinity l.

(** Structural equality of two numbers (the same binary64 value, with
    +0 and -0 kept apart, as [Object.is] has it). *)
Definition same (a b : number) : bool :=
  match a, b with
  | S754_nan, S754_nan => true
  | S754_zero s, S754_zero s' => Bool.eqb s s'
  | S754_infinity s, S754_infinity s' => Bool.eqb s s'
  | S754_finite s m e, S754_finite s' m' e' =>
      Bool.eqb s s' && Pos.eqb m m' && Z.eqb e e'
  | _, _ => false
  end.

(** Whether [JSON.stringify] prints two numbers alike: NaN and the
    infinities all print as [null], both zeros as [0], and a finite value
    prints as its shortest round-tripping decimal, which determines it. *)
Definition json_eqb (a b : number) : bool :=
  match a, b with
  | (S754_nan | S754_infinity _), (S754_nan | S754_infinity _) => true
  | S754_zero _, S754_zero _ => true
  | S754_finite _ _ _, S754_finite _ _ _ => same a b
  | _, _ => false
  end.

(** [JSON.stringify(a) === JSON.stringify(b)] for two arrays of numbers. *)
Fixpoint json_array_eqb (a b : list number) : bool :=
  match a, b with
  | [], [] => true
  | x :: a', y :: b' => json_eqb x y && json_array_eqb a' b'
  | _, _ => false
  end.

Definition isFinite (x : number) : bool :=
  match x with S754_finite _ _ _ => true | S754_zero _ => true | _ => false end.

End Num.
Export Num.

(** ** JavaScript values

    The values [applySettings] and [setPadOscillatorType] may be handed:
    primitives and plain objects (a table of own properties). *)

Inductive value :=
| VUndefined
| VNull
| VBoolean (b : bool)
| VNumber (n : number)
| VString (s : string)
| VObject (props : list (string * value)).

(** [typeof v] *)
Definition typeof (v : value) : string :=
  match v with
  | VUndefined => "undefined"
  | VNull => "object"
  | VBoolean _ => "boolean"
  | VNumber _ => "number"
  | VString _ => "string"
  | VObject _ => "object"
  end.

(** [!v] is [negb (truthy v)]. *)
Definition truthy (v : value) : bool :=
  match v with
  | VUndefined | VNull => false
  | VBoolean b => b
  | VNumber (S754_zero _) | VNumber S754_nan => false
  | VNumber _ => true
  | VString s => negb (String.eqb s "")
  | VObject _ => true
  end.

Fixpoint lookup (k : string) (props : list (string * value)) : value :=
  match props with
  | [] => VUndefined
  | (k', v) :: rest => if String.eqb k k' then v else lookup k rest
  end.

(** [v.k] for a value that is neither null nor undefined: an own
    property of an object, [undefined] on a primitive (none of the names
    read here exists on a primitive's prototype). *)
Definition prop (v : value) (k : string) : value :=
  match v with
  | VObject props => lookup k props
  | _ => VUndefined
  end.

(** ** Note and chord tables *)

Definition notes : list number := Eval vm_compute in
  map lit [196.00; 233.08; 261.63; 293.66; 311.13; 349.23; 392.00;
           415.30; 466.16; 523.25; 587.33; 622.25; 698.46]%float.

Definition note (i : nat) : number := nth i notes NaN.

Definition chords : list (list number) := Eval vm_compute in
  [ [note 0; note 2; note 6]; [note 2; note 5; note 9];
    [note 4; note 7; note 11]; [note 3; note 8; note 10] ].

Definition two : number := Eval vm_compute in lit 2%float.

Definition bassNotes : list number := Eval vm_compute in
  [div (note 0) two; div (note 2) two; div (note 4) two; div (note 3) two].

Definition phrases : list (list number) := Eval vm_compute in
  [ [note 6; note 8; note 9; note 6]; [note 9; note 6; note 5; note 2];
    [note 5; note 6; note 8; note 9; note 8]; [note 8; note 6; note 4; note 3] ].

Definition validOscTypes : list string := ["sine"; "square"; "sawtooth"; "triangle"]%string.

(** [validOscTypes.includes(v)]: only a string can be found in the list. *)
Definition includes (l : list string) (v : value) : bool :=
  match v with
  | VString s => existsb (String.eqb s) l
  | _ => false
  end.

(** ** The engine's data *)

Inductive Layer := pad | bass | melody | texture | heartbeat | arpeggio.

Definition Layer_eqb (a b : Layer) : bool :=
  match a, b with
  | pad, pad | bass, bass | melody, melody | texture, texture
  | heartbeat, heartbeat | arpeggio, arpeggio => true
  | _, _ => false
  end.

(** Audio nodes are known by the order of their creation. *)
Definition Node := nat.

(** An entry of [activeOscillators]: [{ osc, gain, type }]. *)
Record Unit := mkUnit { osc : Node; gain : Node; type : Layer }.

(** An entry of [activeTimers]: a bare timer id, or the tagged object
    [{ id, type }] pushed for the arpeggiator's next-note timer. *)
Inductive Timer :=
| TimerId (id : nat)
| Tagged (id : nat) (type : string).

Definition timer_id (t : Timer) : nat :=
  match t with TimerId id => id | Tagged id _ => id end.

(** The functions handed to [setTimeout], each with the variables its
    closure captures.  A generator's cursor ([chordIndex], [noteIndex],
    [phraseIndex]) is written by the one running instance of the closure
    and read by the next, which that instance schedules, so the value
    travels with the pending callback. *)
Inductive Callback :=
| cbChordProgression (chordIndex : nat)
| cbPlayBassNote (noteIndex : nat)
| cbPlayPhrase (phraseIndex : nat)
| cbMelodyNote (freq : number)
| cbCleanup (owner : Layer) (o : Node)
| cbPlayBeatPair
| cbPlayArpNote (arpNotes : list number) (noteIndex : nat).

(** The layer whose code created a callback. *)
Definition layer_of (cb : Callback) : Layer :=
  match cb with
  | cbChordProgression _ => pad
  | cbPlayBassNote _ => bass
  | cbPlayPhrase _ | cbMelodyNote _ => melody
  | cbCleanup owner _ => owner
  | cbPlayBeatPair => heartbeat
  | cbPlayArpNote _ _ => arpeggio
  end.

Definition is_cleanup (cb : Callback) : bool :=
  match cb with cbCleanup _ _ => true | _ => false end.

Definition is_arp_note (cb : Callback) : bool :=
  match cb with cbPlayArpNote _ _ => true | _ => false end.

(** Commands sent to the Web Audio graph that the properties below can
    observe: sources started, the fade-and-stop of a unit removed from the
    registry (offsets from [audioContext.currentTime] in milliseconds),
    and the automation of the master gain.  The wiring of filters, delays
    and attack envelopes of new units is not recorded. *)
Inductive AudioCmd :=
| OscStart (o : Node) (l : Layer) (freq : number)
| SourceStart (o : Node) (l : Layer)
| FadeOut (g : Node) (rampMs : nat)
| OscStop (o : Node) (atMs : nat)
| MasterValue (v : number)
| MasterCancel
| MasterSetValue (v : number)
| MasterRamp (v : number) (rampMs : nat)
| MasterTarget (v : number)
| ContextResume
| ContextSuspend.

(** Console output. *)
Inductive LogMsg :=
| LogInitialized
| LogContextSuspended
| ErrNotSupported
| LogCreatingPad
| LogNextPadChange
| LogChordChanged
| LogCreatingBassline
| LogCreatingMelody
| LogCreatingTexture
| LogCreatingHeartbeat
| LogCreatingArpeggio
| LogStoppingArpeggio
| LogStarting
| ErrResuming
| LogStopping
| LogStopped
| LogMuted
| LogUnmuted
| LogVolumeSet (v : number)
| LogApplyingSettings
| LogPadOscTypeSet (t : string)
| WarnInvalidOscType (v : value)
| LogPadFilterSet (f : number)
| LogChordSpeedSet (ms : number)
| LogHeartbeat (enabled : bool)
| LogArpeggiator (enabled : bool).

(** The module-scoped variables of the source under their own names,
    followed by the part of the browser the module acts on. *)
Record World := mkWorld {
  audioContext : option Node;  (* the AudioContext, or null *)
  masterGain : option Node;  (* the master GainNode, or null *)
  analyser : option Node;  (* the AnalyserNode, or null *)
  activeOscillators : list Unit;  (* sources currently tracked *)
  activeTimers : list Timer;  (* timers scheduled and tracked *)
  isMuted : bool;
  currentVolume : number;
  isPlaying : bool;
  heartbeatEnabled : bool;
  arpeggiatorEnabled : bool;
  currentPadChordNotes : list number;  (* notes of the current pad chord *)
  padOscType : string;
  padFilterFreq : number;
  chordSpeedMs : number;
  timerTable : list (nat * Callback);  (* browser: pending setTimeout callbacks *)
  nextTimerId : nat;  (* browser: the id the next setTimeout returns *)
  nextNode : nat;  (* the next audio node created *)
  storedMuted : option string;  (* localStorage: ambientMuted *)
  storedVolume : option number;  (* localStorage: ambientVolume, as parseFloat reads it *)
  console : list LogMsg;  (* console output, oldest first *)
  audioLog : list AudioCmd;  (* audio commands, oldest first *)
  resuming : nat  (* startAmbient calls waiting on audioContext.resume() *)
}.

(** Assignment to one variable. *)
Definition set_audioContext (v : option Node) (w : World) : World :=
  mkWorld
    v (masterGain w) (analyser w) (activeOscillators w) (activeTimers w)
    (isMuted w) (currentVolume w) (isPlaying w) (heartbeatEnabled w)
    (arpeggiatorEnabled w) (currentPadChordNotes w) (padOscType w)
    (padFilterFreq w) (chordSpeedMs w) (timerTable w) (nextTimerId w)
    (nextNode w) (storedMuted w) (storedVolume w) (console w) (audioLog w)
    (resuming w).

Definition set_masterGain (v : option Node) (w : World) : World :=
  mkWorld
    (audioContext w) v (analyser w) (activeOscillators w) (activeTimers w)
    (isMuted w) (currentVolume w) (isPlaying w) (heartbeatEnabled w)
    (arpeggiatorEnabled w) (currentPadChordNotes w) (padOscType w)
    (padFilterFreq w) (chordSpeedMs w) (timerTable w) (nextTimerId w)
    (nextNode w) (storedMuted w) (storedVolume w) (console w) (audioLog w)
    (resuming w).

Definition set_analyser (v : option Node) (w : World) : World :=
  mkWorld
    (audioContext w) (masterGain w) v (activeOscillators w) (activeTimers w)
    (isMuted w) (currentVolume w) (isPlaying w) (heartbeatEnabled w)
    (arpeggiatorEnabled w) (currentPadChordNotes w) (padOscType w)
    (padFilterFreq w) (chordSpeedMs w) (timerTable w) (nextTimerId w)
    (nextNode w) (storedMuted w) (storedVolume w) (console w) (audioLog w)
    (resuming w).

Definition set_activeOscillators (v : list Unit) (w : World) : World :=
  mkWorld
    (audioContext w) (masterGain w) (analyser w) v (activeTimers w)
    (isMuted w) (currentVolume w) (isPlaying w) (heartbeatEnabled w)
    (arpeggiatorEnabled w) (currentPadChordNotes w) (padOscType w)
    (padFilterFreq w) (chordSpeedMs w) (timerTable w) (nextTimerId w)
    (nextNode w) (storedMuted w) (storedVolume w) (console w) (audioLog w)
    (resuming w).

Definition set_activeTimers (v : list Timer) (w : World) : World :=
  mkWorld
    (audioContext w) (masterGain w) (analyser w) (activeOscillators w) v
    (isMuted w) (currentVolume w) (isPlaying w) (heartbeatEnabled w)
    (arpeggiatorEnabled w) (currentPadChordNotes w) (padOscType w)
    (padFilterFreq w) (chordSpeedMs w) (timerTable w) (nextTimerId w)
    (nextNode w) (storedMuted w) (storedVolume w) (console w) (audioLog w)
    (resuming w).

Definition set_isMuted (v : bool) (w : World) : World :=
  mkWorld
    (audioContext w) (masterGain w) (analyser w) (activeOscillators w)
    (activeTimers w) v (currentVolume w) (isPlaying w) (heartbeatEnabled w)
    (arpeggiatorEnabled w) (currentPadChordNotes w) (padOscType w)
    (padFilterFreq w) (chordSpeedMs w) (timerTable w) (nextTimerId w)
    (nextNode w) (storedMuted w) (storedVolume w) (console w) (audioLog w)
    (resuming w).

Definition set_currentVolume (v : number) (w : World) : World :=
  mkWorld
    (audioContext w) (masterGain w) (analyser w) (activeOscillators w)
    (activeTimers w) (isMuted w) v (isPlaying w) (heartbeatEnabled w)
    (arpeggiatorEnabled w) (currentPadChordNotes w) (padOscType w)
    (padFilterFreq w) (chordSpeedMs w) (timerTable w) (nextTimerId w)
    (nextNode w) (storedMuted w) (storedVolume w) (console w) (audioLog w)
    (resuming w).

Definition set_isPlaying (v : bool) (w : World) : World :=
  mkWorld
    (audioContext w) (masterGain w) (analyser w) (activeOscillators w)
    (activeTimers w) (isMuted w) (currentVolume w) v (heartbeatEnabled w)
    (arpeggiatorEnabled w) (currentPadChordNotes w) (padOscType w)
    (padFilterFreq w) (chordSpeedMs w) (timerTable w) (nextTimerId w)
    (nextNode w) (storedMuted w) (storedVolume w) (console w) (audioLog w)
    (resuming w).

Definition set_heartbeatEnabled (v : bool) (w : World) : World :=
  mkWorld
    (audioContext w) (masterGain w) (analyser w) (activeOscillators w)
    (activeTimers w) (isMuted w) (currentVolume w) (isPlaying w) v
    (arpeggiatorEnabled w) (currentPadChordNotes w) (padOscType w)
    (padFilterFreq w) (chordSpeedMs w) (timerTable w) (nextTimerId w)
    (nextNode w) (storedMuted w) (storedVolume w) (console w) (audioLog w)
    (resuming w).

Definition set_arpeggiatorEnabled (v : bool) (w : World) : World :=
  mkWorld
    (audioContext w) (masterGain w) (analyser w) (activeOscillators w)
    (activeTimers w) (isMuted w) (currentVolume w) (isPlaying w)
    (heartbeatEnabled w) v (currentPadChordNotes w) (padOscType w)
    (padFilterFreq w) (chordSpeedMs w) (timerTable w) (nextTimerId w)
    (nextNode w) (storedMuted w) (storedVolume w) (console w) (audioLog w)
    (resuming w).

Definition set_currentPadChordNotes (v : list number) (w : World) : World :=
  mkWorld
    (audioContext w) (masterGain w) (analyser w) (activeOscillators w)
    (activeTimers w) (isMuted w) (currentVolume w) (isPlaying w)
    (heartbeatEnabled w) (arpeggiatorEnabled w) v (padOscType w)
    (padFilterFreq w) (chordSpeedMs w) (timerTable w) (nextTimerId w)
    (nextNode w) (storedMuted w) (storedVolume w) (console w) (audioLog w)
    (resuming w).

Definition set_padOscType (v : string) (w : World) : World :=
  mkWorld
    (audioContext w) (masterGain w) (analyser w) (activeOscillators w)
    (activeTimers w) (isMuted w) (currentVolume w) (isPlaying w)
    (heartbeatEnabled w) (arpeggiatorEnabled w) (currentPadChordNotes w) v
    (padFilterFreq w) (chordSpeedMs w) (timerTable w) (nextTimerId w)
    (nextNode w) (storedMuted w) (storedVolume w) (console w) (audioLog w)
    (resuming w).

Definition set_padFilterFreq (v : number) (w : World) : World :=
  mkWorld
    (audioContext w) (masterGain w) (analyser w) (activeOscillators w)
    (activeTimers w) (isMuted w) (currentVolume w) (isPlaying w)
    (heartbeatEnabled w) (arpeggiatorEnabled w) (currentPadChordNotes w)
    (padOscType w) v (chordSpeedMs w) (timerTable w) (nextTimerId w)
    (nextNode w) (storedMuted w) (storedVolume w) (console w) (audioLog w)
    (resuming w).

Definition set_chordSpeedMs (v : number) (w : World) : World :=
  mkWorld
    (audioContext w) (masterGain w) (analyser w) (activeOscillators w)
    (activeTimers w) (isMuted w) (currentVolume w) (isPlaying w)
    (heartbeatEnabled w) (arpeggiatorEnabled w) (currentPadChordNotes w)
    (padOscType w) (padFilterFreq w) v (timerTable w) (nextTimerId w)
    (nextNode w) (storedMuted w) (storedVolume w) (console w) (audioLog w)
    (resuming w).

Definition set_timerTable (v : list (nat * Callback)) (w : World) : World :=
  mkWorld
    (audioContext w) (masterGain w) (analyser w) (activeOscillators w)
    (activeTimers w) (isMuted w) (currentVolume w) (isPlaying w)
    (heartbeatEnabled w) (arpeggiatorEnabled w) (currentPadChordNotes w)
    (padOscType w) (padFilterFreq w) (chordSpeedMs w) v (nextTimerId w)
    (nextNode w) (storedMuted w) (storedVolume w) (console w) (audioLog w)
    (resuming w).

Definition set_nextTimerId (v : nat) (w : World) : World :=
  mkWorld
    (audioContext w) (masterGain w) (analyser w) (activeOscillators w)
    (activeTimers w) (isMuted w) (currentVolume w) (isPlaying w)
    (heartbeatEnabled w) (arpeggiatorEnabled w) (currentPadChordNotes w)
    (padOscType w) (padFilterFreq w) (chordSpeedMs w) (timerTable w) v
    (nextNode w) (storedMuted w) (storedVolume w) (console w) (audioLog w)
    (resuming w).

Definition set_nextNode (v : nat) (w : World) : World :=
  mkWorld
    (audioContext w) (masterGain w) (analyser w) (activeOscillators w)
    (activeTimers w) (isMuted w) (currentVolume w) (isPlaying w)
    (heartbeatEnabled w) (arpeggiatorEnabled w) (currentPadChordNotes w)
    (padOscType w) (padFilterFreq w) (chordSpeedMs w) (timerTable w)
    (nextTimerId w) v (storedMuted w) (storedVolume w) (console w)
    (audioLog w) (resuming w).

Definition set_storedMuted (v : option string) (w : World) : World :=
  mkWorld
    (audioContext w) (masterGain w) (analyser w) (activeOscillators w)
    (activeTimers w) (isMuted w) (currentVolume w) (isPlaying w)
    (heartbeatEnabled w) (arpeggiatorEnabled w) (currentPadChordNotes w)
    (padOscType w) (padFilterFreq w) (chordSpeedMs w) (timerTable w)
    (nextTimerId w) (nextNode w) v (storedVolume w) (console w) (audioLog w)
    (resuming w).

Definition set_storedVolume (v : option number) (w : World) : World :=
  mkWorld
    (audioContext w) (masterGain w) (analyser w) (activeOscillators w)
    (activeTimers w) (isMuted w) (currentVolume w) (isPlaying w)
    (heartbeatEnabled w) (arpeggiatorEnabled w) (currentPadChordNotes w)
    (padOscType w) (padFilterFreq w) (chordSpeedMs w) (timerTable w)
    (nextTimerId w) (nextNode w) (storedMuted w) v (console w) (audioLog w)
    (resuming w).

Definition set_console (v : list LogMsg) (w : World) : World :=
  mkWorld
    (audioContext w) (masterGain w) (analyser w) (activeOscillators w)
    (activeTimers w) (isMuted w) (currentVolume w) (isPlaying w)
    (heartbeatEnabled w) (arpeggiatorEnabled w) (currentPadChordNotes w)
    (padOscType w) (padFilterFreq w) (chordSpeedMs w) (timerTable w)
    (nextTimerId w) (nextNode w) (storedMuted w) (storedVolume w) v
    (audioLog w) (resuming w).

Definition set_audioLog (v : list AudioCmd) (w : World) : World :=
  mkWorld
    (audioContext w) (masterGain w) (analyser w) (activeOscillators w)
    (activeTimers w) (isMuted w) (currentVolume w) (isPlaying w)
    (heartbeatEnabled w) (arpeggiatorEnabled w) (currentPadChordNotes w)
    (padOscType w) (padFilterFreq w) (chordSpeedMs w) (timerTable w)
    (nextTimerId w) (nextNode w) (storedMuted w) (storedVolume w) (console w)
    v (resuming w).

Definition set_resuming (v : nat) (w : World) : World :=
  mkWorld
    (audioContext w) (masterGain w) (analyser w) (activeOscillators w)
    (activeTimers w) (isMuted w) (currentVolume w) (isPlaying w)
    (heartbeatEnabled w) (arpeggiatorEnabled w) (currentPadChordNotes w)
    (padOscType w) (padFilterFreq w) (chordSpeedMs w) (timerTable w)
    (nextTimerId w) (nextNode w) (storedMuted w) (storedVolume w) (console w)
    (audioLog w) v.

(** ** Running the module's code

    A function of the module is a state transformer that either completes
    or stops at a [TypeError], raised where the source reads a property of
    a module variable that holds [null]; the state reached by then stays,
    as it does in JavaScript. *)

Inductive Result (A : Type) :=
| Normal (a : A) (w : World)
| TypeError (w : World).

Arguments Normal {A} a w.
Arguments TypeError {A} w.

Definition Js (A : Type) := World -> Result A.

Definition ret {A} (a : A) : Js A := fun w => Normal a w.

Definition bind {A B} (m : Js A) (k : A -> Js B) : Js B :=
  fun w => match m w with
           | Normal a w' => k a w'
           | TypeError w' => TypeError w'
           end.

Declare Scope js_scope.
Delimit Scope js_scope with js.
Notation "x <- m ;; k" := (bind m (fun x => k))
  (at level 61, m at next level, right associativity) : js_scope.
Notation "m ;; k" := (bind m (fun _ => k))
  (at level 61, right associativity) : js_scope.
Open Scope js_scope.

Definition read {A} (f : World -> A) : Js A := fun w => Normal (f w) w.
Definition write (f : World -> World) : Js unit := fun w => Normal tt (f w).

(** Reading a property of the object a variable holds. *)
Definition deref {A} (f : World -> option A) : Js A :=
  fun w => match f w with Some a => Normal a w | None => TypeError w end.

Definition when (b : bool) (m : Js unit) : Js unit := if b then m else ret tt.

(** [l.forEach(f)] *)
Fixpoint forEach {A} (l : list A) (f : A -> Js unit) : Js unit :=
  match l with
  | [] => ret tt
  | x :: l' => f x ;; forEach l' f
  end.

(** [l.forEach((x, i) => f i x)], counting from [i]. *)
Fixpoint forEachIndexed {A} (i : nat) (l : list A) (f : nat -> A -> Js unit) : Js unit :=
  match l with
  | [] => ret tt
  | x :: l' => f i x ;; forEachIndexed (S i) l' f
  end.

(** [l.filter(f)] for a callback with effects. *)
Fixpoint filterM {A} (l : list A) (f : A -> Js bool) : Js (list A) :=
  match l with
  | [] => ret []
  | x :: l' =>
      keep <- f x ;;
      rest <- filterM l' f ;;
      ret (if keep then x :: rest else rest)
  end.

Definition world_of {A} (r : Result A) : World :=
  match r with Normal _ w => w | TypeError w => w end.

Definition isNull {A} (o : option A) : bool :=
  match o with None => true | Some _ => false end.

(** *** The browser *)

Definition log (m : LogMsg) : Js unit :=
  write (fun w => set_console (console w ++ [m]) w).

Definition emit (c : AudioCmd) : Js unit :=
  write (fun w => set_audioLog (audioLog w ++ [c]) w).

(** [setTimeout(cb, delay)].  Ids are positive and never reused.  The
    delay only bears on the order in which the browser fires what is
    pending, which the model leaves open, so it is not kept. *)
Definition setTimeout (cb : Callback) : Js nat :=
  id <- read nextTimerId ;;
  write (fun w => set_nextTimerId (S id) (set_timerTable (timerTable w ++ [(id, cb)]) w)) ;;
  ret id.

Definition clearTimeout (id : nat) : Js unit :=
  write (fun w => set_timerTable (filter (fun p => negb (fst p =? id)) (timerTable w)) w).

(** [audioContext.createOscillator()], [.createGain()] and the like. *)
Definition createNode : Js Node :=
  _ <- deref audioContext ;;
  n <- read nextNode ;;
  write (set_nextNode (S n)) ;;
  ret n.

(** [audioContext.currentTime] *)
Definition currentTime : Js unit := _ <- deref audioContext ;; ret tt.

Definition pushUnit (u : Unit) : Js unit :=
  write (fun w => set_activeOscillators (activeOscillators w ++ [u]) w).

Definition pushTimer (t : Timer) : Js unit :=
  write (fun w => set_activeTimers (activeTimers w ++ [t]) w).

(** The fade of a unit's gain to near silence over [rampMs] and the stop
    of its source at [stopMs]; Web Audio errors inside are caught and
    ignored by the source. *)
Definition fadeAndStop (u : Unit) (rampMs stopMs : nat) : Js unit :=
  emit (FadeOut (gain u) rampMs) ;; emit (OscStop (osc u) stopMs).

(** What the caller's environment decides during one call: whether the
    platform provides Web Audio, whether the context reports [suspended],
    the value the master gain's automation has reached, and the draws of
    [Math.random()] that pick a starting index. *)
Record Env := mkEnv {
  audioSupported : bool;
  contextSuspended : bool;
  masterGainValue : number;
  randomChord : nat;
  randomBass : nat;
  randomPhrase : nat
}.

(** [Math.floor(Math.random() * n)]: an index below [n]. *)
Definition randomIndex (draw n : nat) : nat := draw mod n.

Definition defaultVolume : number := Eval vm_compute in lit 0.7%float.
Definition zero : number := Eval vm_compute in lit 0%float.
Definition one : number := Eval vm_compute in lit 1%float.

(** *** Initialization *)

Definition initAudio (e : Env) : Js bool :=
  ctx <- read audioContext ;;
  match ctx with
  | Some _ =>
      when (contextSuspended e) (emit ContextResume) ;;
      ret true
  | None =>
      if audioSupported e then
        c <- read nextNode ;;
        write (fun w => set_nextNode (3 + c) w) ;;
        write (set_audioContext (Some c)) ;;
        write (set_masterGain (Some (1 + c))) ;;
        write (set_analyser (Some (2 + c))) ;;
        write (fun w => set_isMuted
                 (match storedMuted w with
                  | Some s => String.eqb s "true"
                  | None => false
                  end) w) ;;
        write (fun w => set_currentVolume
                 (match storedVolume w with
                  | Some v => v
                  | None => defaultVolume
                  end) w) ;;
        _ <- deref masterGain ;;
        m <- read isMuted ;;
        v <- read currentVolume ;;
        emit (MasterValue (if m then zero else v)) ;;
        log LogInitialized ;;
        when (contextSuspended e) (log LogContextSuspended ;; emit ContextResume) ;;
        ret true
      else
        log ErrNotSupported ;;
        write (set_audioContext None) ;;
        write (set_masterGain None) ;;
        write (set_analyser None) ;;
        ret false
  end.

(** *** Sound creation *)

Definition sweepCallback (l : Layer) (rampMs stopMs : nat) (u : Unit) : Js bool :=
  if Layer_eqb (type u) l
  then fadeAndStop u rampMs stopMs ;; ret false
  else ret true.

(** The callback [stopArpeggioSequence] filters [activeTimers] with:
    [typeof timer === 'object' && timer.type === 'arpeggio_note']. *)
Definition isArpTimer (timer : Timer) : bool :=
  match timer with
  | Tagged _ ty => String.eqb ty "arpeggio_note"
  | TimerId _ => false
  end.

Definition arpTimerCallback (timer : Timer) : Js bool :=
  if isArpTimer timer
  then clearTimeout (timer_id timer) ;; ret false
  else ret true.

(** [stopArpeggioSequence] *)
Definition stopArpeggioSequence : Js unit :=
  log LogStoppingArpeggio ;;
  timers <- read activeTimers ;;
  kept <- filterM timers arpTimerCallback ;;
  write (set_activeTimers kept) ;;
  currentTime ;;
  units <- read activeOscillators ;;
  kept <- filterM units (sweepCallback arpeggio 100 200) ;;
  write (set_activeOscillators kept).

(** [arpNotes[noteIndex % arpNotes.length]], undefined where there is no
    such element; the oscillator's frequency cannot be set to it. *)
Definition arpNoteAt (arpNotes : list number) (noteIndex : nat) : option number :=
  match arpNotes with
  | [] => None
  | _ => nth_error arpNotes (noteIndex mod List.length arpNotes)
  end.

(** [playArpNote] of [createArpeggio] *)
Definition playArpNote (arpNotes : list number) (noteIndex : nat) : Js unit :=
  freq <- deref (fun _ => arpNoteAt arpNotes noteIndex) ;;
  o <- createNode ;;
  g <- createNode ;;
  _ <- createNode ;;
  emit (OscStart o arpeggio freq) ;;
  pushUnit (mkUnit o g arpeggio) ;;
  cleanupTimer <- setTimeout (cbCleanup arpeggio o) ;;
  pushTimer (TimerId cleanupTimer) ;;
  playing <- read isPlaying ;;
  enabled <- read arpeggiatorEnabled ;;
  when (playing && enabled)
    (nextNoteTimerId <- setTimeout (cbPlayArpNote arpNotes (S noteIndex)) ;;
     pushTimer (Tagged nextNoteTimerId "arpeggio_note")).

(** [[...currentPadChordNotes, currentPadChordNotes[1] * 2]]; a missing
    second element is [undefined], whose double is NaN. *)
Definition arpNotesOf (chord : list number) : list number :=
  chord ++ [mul (nth 1 chord NaN) two].

Definition createArpeggio : Js unit :=
  w <- read (fun w => w) ;;
  if isNull (audioContext w) || isNull (masterGain w) || negb (isPlaying w)
     || negb (arpeggiatorEnabled w) || (List.length (currentPadChordNotes w) =? 0)
  then ret tt
  else
    log LogCreatingArpeggio ;;
    playArpNote (arpNotesOf (currentPadChordNotes w)) 0.

Definition detune : number := Eval vm_compute in lit 1.003%float.

(** [chords[i]], [bassNotes[i]], [phrases[i]]: the cursors stay below the
    table's length by the modulo; the uses of an undefined entry fault. *)
Definition entry {A} (table : list A) (i : nat) : Js A :=
  deref (fun _ => nth_error table i).

(** The callback [chordProgression] filters [activeOscillators] with:
    a pad unit is faded over 4 s, stopped at 4.1 s and dropped. *)
Definition padSweepCallback (u : Unit) : Js bool :=
  if Layer_eqb (type u) pad
  then currentTime ;; fadeAndStop u 4000 4100 ;; ret false
  else ret true.

(** The callback [chordProgression] runs for each note of the chord: two
    detuned oscillators through a shared lowpass filter. *)
Definition padVoice (freq : number) : Js unit :=
  o <- createNode ;;
  g <- createNode ;;
  o2 <- createNode ;;
  g2 <- createNode ;;
  _ <- createNode ;;
  currentTime ;;
  emit (OscStart o pad freq) ;;
  emit (OscStart o2 pad (mul freq detune)) ;;
  pushUnit (mkUnit o g pad) ;;
  pushUnit (mkUnit o2 g2 pad).

(** [chordProgression] of [createPad] *)
Definition chordProgression (chordIndex : nat) : Js unit :=
  w <- read (fun w => w) ;;
  if negb (isPlaying w) || isNull (audioContext w) then ret tt
  else
    let previousChordNotes := currentPadChordNotes w in
    chord <- entry chords chordIndex ;;
    write (set_currentPadChordNotes chord) ;;
    let chordChanged := negb (json_array_eqb previousChordNotes chord) in
    let chordIndex' := (chordIndex + 1) mod List.length chords in
    units <- read activeOscillators ;;
    kept <- filterM units padSweepCallback ;;
    write (set_activeOscillators kept) ;;
    forEach chord padVoice ;;
    log LogNextPadChange ;;
    timerId <- setTimeout (cbChordProgression chordIndex') ;;
    pushTimer (TimerId timerId) ;;
    enabled <- read arpeggiatorEnabled ;;
    when (enabled && chordChanged)
      (log LogChordChanged ;;
       stopArpeggioSequence ;;
       createArpeggio).

Definition createPad (e : Env) : Js unit :=
  w <- read (fun w => w) ;;
  if isNull (audioContext w) || isNull (masterGain w) || negb (isPlaying w) then ret tt
  else
    log LogCreatingPad ;;
    let chordIndex := randomIndex (randomChord e) (List.length chords) in
    chord <- entry chords chordIndex ;;
    write (set_currentPadChordNotes chord) ;;
    chordProgression chordIndex.

(** [playBassNote] of [createBassline]; its oscillators are not entered
    in [activeOscillators]. *)
Definition playBassNote (noteIndex : nat) : Js unit :=
  w <- read (fun w => w) ;;
  if negb (isPlaying w) || isNull (audioContext w) then ret tt
  else
    freq <- entry bassNotes noteIndex ;;
    let noteIndex' := (noteIndex + 1) mod List.length bassNotes in
    o <- createNode ;;
    _ <- createNode ;;
    subOsc <- createNode ;;
    _ <- createNode ;;
    _ <- createNode ;;
    currentTime ;;
    emit (OscStart o bass freq) ;;
    emit (OscStart subOsc bass (div freq two)) ;;
    timerId <- setTimeout (cbPlayBassNote noteIndex') ;;
    pushTimer (TimerId timerId).

Definition createBassline (e : Env) : Js unit :=
  w <- read (fun w => w) ;;
  if isNull (audioContext w) || isNull (masterGain w) || negb (isPlaying w) then ret tt
  else
    log LogCreatingBassline ;;
    let noteIndex := randomIndex (randomBass e) (List.length bassNotes) in
    startTimerId <- setTimeout (cbPlayBassNote noteIndex) ;;
    pushTimer (TimerId startTimerId).

(** The callback [playPhrase] schedules for one note of the phrase. *)
Definition melodyNote (freq : number) : Js unit :=
  w <- read (fun w => w) ;;
  if negb (isPlaying w) || isNull (audioContext w) then ret tt
  else
    o <- createNode ;;
    g <- createNode ;;
    _ <- createNode ;;
    _ <- createNode ;;
    currentTime ;;
    emit (OscStart o melody freq) ;;
    pushUnit (mkUnit o g melody) ;;
    cleanupTimer <- setTimeout (cbCleanup melody o) ;;
    pushTimer (TimerId cleanupTimer).

(** [playPhrase] of [createMelody] *)
Definition playPhrase (phraseIndex : nat) : Js unit :=
  w <- read (fun w => w) ;;
  if negb (isPlaying w) || isNull (audioContext w) then ret tt
  else
    currentPhrase <- entry phrases phraseIndex ;;
    let phraseIndex' := (phraseIndex + 1) mod List.length phrases in
    forEach currentPhrase (fun freq =>
      noteTimeout <- setTimeout (cbMelodyNote freq) ;;
      pushTimer (TimerId noteTimeout)) ;;
    timerId <- setTimeout (cbPlayPhrase phraseIndex') ;;
    pushTimer (TimerId timerId).

Definition createMelody (e : Env) : Js unit :=
  w <- read (fun w => w) ;;
  if isNull (audioContext w) || isNull (masterGain w) || negb (isPlaying w) then ret tt
  else
    log LogCreatingMelody ;;
    let phraseIndex := randomIndex (randomPhrase e) (List.length phrases) in
    firstPhraseTimer <- setTimeout (cbPlayPhrase phraseIndex) ;;
    pushTimer (TimerId firstPhraseTimer).

(** [createTexture] schedules nothing: the noise source loops. *)
Definition createTexture : Js unit :=
  w <- read (fun w => w) ;;
  if isNull (audioContext w) || isNull (masterGain w) || negb (isPlaying w) then ret tt
  else if existsb (fun item => Layer_eqb (type item) texture) (activeOscillators w) then ret tt
  else
    log LogCreatingTexture ;;
    _ <- deref audioContext ;;
    noiseSource <- createNode ;;
    _ <- createNode ;;
    g <- createNode ;;
    emit (SourceStart noiseSource texture) ;;
    pushUnit (mkUnit noiseSource g texture).

Definition baseFreq : number := Eval vm_compute in lit 60%float.

(** [playSingleBeat] of [playBeatPair] *)
Definition playSingleBeat : Js unit :=
  w <- read (fun w => w) ;;
  if negb (isPlaying w) || isNull (audioContext w) then ret tt
  else
    currentTime ;;
    o <- createNode ;;
    g <- createNode ;;
    emit (OscStart o heartbeat baseFreq) ;;
    pushUnit (mkUnit o g heartbeat) ;;
    cleanupTimer <- setTimeout (cbCleanup heartbeat o) ;;
    pushTimer (TimerId cleanupTimer).

(** [playBeatPair] of [createHeartbeat] *)
Definition playBeatPair : Js unit :=
  w <- read (fun w => w) ;;
  if negb (isPlaying w) || isNull (audioContext w) || negb (heartbeatEnabled w) then ret tt
  else
    playSingleBeat ;;
    playSingleBeat ;;
    timerId <- setTimeout cbPlayBeatPair ;;
    pushTimer (TimerId timerId).

Definition createHeartbeat : Js unit :=
  w <- read (fun w => w) ;;
  if isNull (audioContext w) || isNull (masterGain w) || negb (isPlaying w)
     || negb (heartbeatEnabled w)
  then ret tt
  else
    log LogCreatingHeartbeat ;;
    playBeatPair.

(** The self-cleanup a melody, heartbeat or arpeggio unit schedules:
    [activeOscillators.filter(item => item.osc !== osc)]. *)
Definition cleanup (o : Node) : Js unit :=
  write (fun w => set_activeOscillators
           (filter (fun item => negb (osc item =? o)) (activeOscillators w)) w).

(** The body of a pending callback. *)
Definition run (cb : Callback) : Js unit :=
  match cb with
  | cbChordProgression i => chordProgression i
  | cbPlayBassNote i => playBassNote i
  | cbPlayPhrase i => playPhrase i
  | cbMelodyNote freq => melodyNote freq
  | cbCleanup _ o => cleanup o
  | cbPlayBeatPair => playBeatPair
  | cbPlayArpNote arpNotes i => playArpNote arpNotes i
  end.

(** *** Mute and volume *)

Definition muteThreshold : number := Eval vm_compute in lit 0.001%float.

Definition toggleMute (e : Env) : Js unit :=
  nodes <- initAudio e ;;
  mg <- read masterGain ;;
  if negb nodes || isNull mg then ret tt
  else
    write (fun w => set_isMuted (negb (isMuted w)) w) ;;
    currentTime ;;
    _ <- deref masterGain ;;
    emit MasterCancel ;;
    m <- read isMuted ;;
    if m then
      when (lt muteThreshold (masterGainValue e))
        (write (set_currentVolume (masterGainValue e))) ;;
      emit (MasterSetValue (masterGainValue e)) ;;
      emit (MasterRamp zero 200) ;;
      write (set_storedMuted (Some "true"%string)) ;;
      log LogMuted
    else
      emit (MasterSetValue zero) ;;
      v <- read currentVolume ;;
      emit (MasterRamp v 200) ;;
      write (set_storedMuted None) ;;
      log LogUnmuted.

(** [Math.max(0, Math.min(1, value))] *)
Definition clampVolume (value : number) : number :=
  Math_max [zero; Math_min [one; value]].

(** The stored string is [currentVolume.toString()], which [parseFloat]
    reads back as the same number. *)
Definition setVolume (e : Env) (value : number) : Js unit :=
  nodes <- initAudio e ;;
  mg <- read masterGain ;;
  if negb nodes || isNull mg then ret tt
  else
    let newVolume := clampVolume value in
    write (set_currentVolume newVolume) ;;
    m <- read isMuted ;;
    when (negb m)
      (currentTime ;; _ <- deref masterGain ;; emit (MasterTarget newVolume)) ;;
    v <- read currentVolume ;;
    write (set_storedVolume (Some v)) ;;
    log (LogVolumeSet v).

(** [getMuteState] and [getVolume] answer from [localStorage] while there
    is no context. *)
Definition getMuteState (w : World) : bool :=
  match audioContext w with
  | Some _ => isMuted w
  | None => match storedMuted w with
            | Some s => String.eqb s "true"
            | None => false
            end
  end.

Definition getVolume (w : World) : number :=
  match audioContext w with
  | Some _ => currentVolume w
  | None => match storedVolume w with Some v => v | None => defaultVolume end
  end.

(** *** Parameter setters *)

Definition setPadOscillatorType (ty : value) : Js unit :=
  match ty with
  | VString s =>
      if includes validOscTypes ty
      then write (set_padOscType s) ;; log (LogPadOscTypeSet s)
      else log (WarnInvalidOscType ty)
  | _ => log (WarnInvalidOscType ty)
  end.

Definition n100 : number := Eval vm_compute in lit 100%float.
Definition n10000 : number := Eval vm_compute in lit 10000%float.
Definition n4000 : number := Eval vm_compute in lit 4000%float.
Definition n30000 : number := Eval vm_compute in lit 30000%float.

(** [Math.max(100, Math.min(10000, Number(freq)))]; [Number] leaves a
    number as it is, and numbers are what the callers pass. *)
Definition clampFilterFrequency (freq : number) : number :=
  Math_max [n100; Math_min [n10000; freq]].

Definition setPadFilterFrequency (freq : number) : Js unit :=
  write (set_padFilterFreq (clampFilterFrequency freq)) ;;
  f <- read padFilterFreq ;;
  log (LogPadFilterSet f).

(** [Math.max(4000, Math.min(30000, Number(ms)))] *)
Definition clampChordSpeed (ms : number) : number :=
  Math_max [n4000; Math_min [n30000; ms]].

Definition setChordSpeed (ms : number) : Js unit :=
  write (set_chordSpeedMs (clampChordSpeed ms)) ;;
  s <- read chordSpeedMs ;;
  log (LogChordSpeedSet s).

Definition toggleHeartbeat : Js unit :=
  write (fun w => set_heartbeatEnabled (negb (heartbeatEnabled w)) w) ;;
  enabled <- read heartbeatEnabled ;;
  log (LogHeartbeat enabled) ;;
  playing <- read isPlaying ;;
  when playing
    (if enabled then createHeartbeat
     else
       currentTime ;;
       units <- read activeOscillators ;;
       kept <- filterM units (sweepCallback heartbeat 100 200) ;;
       write (set_activeOscillators kept) ;;
       timers <- read activeTimers ;;
       kept <- filterM timers (fun _ => ret true) ;;
       write (set_activeTimers kept)).

Definition toggleArpeggiator : Js unit :=
  write (fun w => set_arpeggiatorEnabled (negb (arpeggiatorEnabled w)) w) ;;
  enabled <- read arpeggiatorEnabled ;;
  log (LogArpeggiator enabled) ;;
  playing <- read isPlaying ;;
  when playing
    (if enabled then createArpeggio else stopArpeggioSequence).

(** *** Playback control *)

(** The part of [startAmbient] that follows the check of the context's
    state: run at once when the context is not suspended, and after
    [await audioContext.resume()] resolves otherwise. *)
Definition startLayers (e : Env) : Js unit :=
  write (set_isPlaying true) ;;
  v <- read currentVolume ;;
  setVolume e v ;;
  createPad e ;;
  createBassline e ;;
  createTexture ;;
  createMelody e ;;
  hb <- read heartbeatEnabled ;;
  when hb createHeartbeat ;;
  arp <- read arpeggiatorEnabled ;;
  chord <- read currentPadChordNotes ;;
  when (arp && (0 <? List.length chord)) createArpeggio.

Definition startAmbient (e : Env) : Js unit :=
  nodes <- initAudio e ;;
  w <- read (fun w => w) ;;
  if negb nodes || isNull (audioContext w) || isPlaying w then ret tt
  else
    log LogStarting ;;
    _ <- deref audioContext ;;
    if contextSuspended e
    then write (fun w => set_resuming (S (resuming w)) w)
    else startLayers e.

(** The promise of [audioContext.resume()] settles for one waiting call
    of [startAmbient]: it goes on, or logs the error and returns. *)
Definition resumeSettled (e : Env) (resolved : bool) : Js unit :=
  n <- read resuming ;;
  match n with
  | 0 => ret tt
  | S n' =>
      write (set_resuming n') ;;
      if resolved then startLayers e else log ErrResuming
  end.

(** The callback [stopAmbient] runs over [activeTimers]: an object with
    a truthy [id] has that id cleared, a number is cleared itself. *)
Definition clearTracked (timer : Timer) : Js unit :=
  match timer with
  | Tagged id _ => if negb (id =? 0) then clearTimeout id else ret tt
  | TimerId id => clearTimeout id
  end.

Definition stopAmbient : Js unit :=
  w <- read (fun w => w) ;;
  if isNull (audioContext w) || negb (isPlaying w) then ret tt
  else
    write (set_isPlaying false) ;;
    log LogStopping ;;
    timers <- read activeTimers ;;
    forEach timers clearTracked ;;
    write (set_activeTimers []) ;;
    currentTime ;;
    units <- read activeOscillators ;;
    forEach units (fun u => fadeAndStop u 1000 1100) ;;
    write (set_activeOscillators []) ;;
    log LogStopped.

(** *** Settings *)

Definition getSettings (w : World) : value :=
  VObject
    [ ("volume", VNumber (currentVolume w));
      ("isMuted", VBoolean (isMuted w));
      ("padOscType", VString (padOscType w));
      ("padFilterFreq", VNumber (padFilterFreq w));
      ("chordSpeedMs", VNumber (chordSpeedMs w));
      ("heartbeatEnabled", VBoolean (heartbeatEnabled w));
      ("arpeggiatorEnabled", VBoolean (arpeggiatorEnabled w)) ]%string.

(** [if (typeof v === 'number') f(v)] *)
Definition ifNumber (v : value) (f : number -> Js unit) : Js unit :=
  match v with VNumber n => f n | _ => ret tt end.

(** [if (typeof v === 'string') f(v)] *)
Definition ifString (v : value) (f : value -> Js unit) : Js unit :=
  match v with VString _ => f v | _ => ret tt end.

(** [if (typeof v === 'boolean' && v !== current) toggle()] *)
Definition ifBooleanDiffers (v : value) (current : World -> bool) (toggle : Js unit) : Js unit :=
  match v with
  | VBoolean b =>
      c <- read current ;;
      if negb (Bool.eqb b c) then toggle else ret tt
  | _ => ret tt
  end.

Definition applySettings (e : Env) (settings : value) : Js unit :=
  if negb (truthy settings) then ret tt
  else
    log LogApplyingSettings ;;
    ifNumber (prop settings "volume") (setVolume e) ;;
    ifBooleanDiffers (prop settings "isMuted") isMuted (toggleMute e) ;;
    ifString (prop settings "padOscType") setPadOscillatorType ;;
    ifNumber (prop settings "padFilterFreq") setPadFilterFrequency ;;
    ifNumber (prop settings "chordSpeedMs") setChordSpeed ;;
    ifBooleanDiffers (prop settings "heartbeatEnabled") heartbeatEnabled toggleHeartbeat ;;
    ifBooleanDiffers (prop settings "arpeggiatorEnabled") arpeggiatorEnabled toggleArpeggiator.

(** *** Context control *)

Definition suspendAudio (e : Env) : Js unit :=
  ctx <- read audioContext ;;
  when (negb (isNull ctx) && negb (contextSuspended e)) (emit ContextSuspend).

Definition resumeAudio (e : Env) : Js unit :=
  ctx <- read audioContext ;;
  when (negb (isNull ctx) && contextSuspended e) (emit ContextResume).

(** ** The engine as a transition system

    The exported functions may be called with any argument at any time,
    any pending timer may fire, and a pending [resume()] may settle. *)

Inductive Action :=
| CallInitAudio
| CallStartAmbient
| CallStopAmbient
| CallToggleMute
| CallSetVolume (value : number)
| CallApplySettings (settings : value)
| CallSuspendAudio
| CallResumeAudio
| CallSetPadOscillatorType (ty : value)
| CallSetPadFilterFrequency (freq : number)
| CallSetChordSpeed (ms : number)
| CallToggleHeartbeat
| CallToggleArpeggiator
| TimerFires (id : nat)
| ResumeSettles (resolved : bool).

(** The browser takes a timer that fires out of its table and runs it. *)
Definition fire (id : nat) : Js unit :=
  table <- read timerTable ;;
  match find (fun p => fst p =? id) table with
  | None => ret tt
  | Some (_, cb) => clearTimeout id ;; run cb
  end.

Definition perform (e : Env) (a : Action) : Js unit :=
  match a with
  | CallInitAudio => _ <- initAudio e ;; ret tt
  | CallStartAmbient => startAmbient e
  | CallStopAmbient => stopAmbient
  | CallToggleMute => toggleMute e
  | CallSetVolume value => setVolume e value
  | CallApplySettings settings => applySettings e settings
  | CallSuspendAudio => suspendAudio e
  | CallResumeAudio => resumeAudio e
  | CallSetPadOscillatorType ty => setPadOscillatorType ty
  | CallSetPadFilterFrequency freq => setPadFilterFrequency freq
  | CallSetChordSpeed ms => setChordSpeed ms
  | CallToggleHeartbeat => toggleHeartbeat
  | CallToggleArpeggiator => toggleArpeggiator
  | TimerFires id => fire id
  | ResumeSettles resolved => resumeSettled e resolved
  end.

Definition n2000 : number := Eval vm_compute in lit 2000%float.
Definition n12000 : number := Eval vm_compute in lit 12000%float.

(** The module as loaded, in a browser whose [localStorage] holds
    [muted] and [volume] under the module's two keys. *)
Definition loaded (muted : option string) (volume : option number) : World :=
  {| audioContext := None; masterGain := None; analyser := None;
     activeOscillators := []; activeTimers := [];
     isMuted := false; currentVolume := defaultVolume; isPlaying := false;
     heartbeatEnabled := false; arpeggiatorEnabled := false;
     currentPadChordNotes := [];
     padOscType := "triangle"; padFilterFreq := n2000; chordSpeedMs := n12000;
     timerTable := []; nextTimerId := 1; nextNode := 0;
     storedMuted := muted; storedVolume := volume;
     console := []; audioLog := []; resuming := 0 |}.

(** States the engine can be in: [envOk] bounds what the environment may
    answer, [volumeOk] what [localStorage] may hold at load. *)
Inductive reachableIn (envOk : Env -> Prop) (volumeOk : number -> Prop) : World -> Prop :=
| reach_loaded muted volume :
    (forall v, volume = Some v -> volumeOk v) ->
    reachableIn envOk volumeOk (loaded muted volume)
| reach_step w e a :
    reachableIn envOk volumeOk w ->
    envOk e ->
    reachableIn envOk volumeOk (world_of (perform e a w)).

Definition reachable : World -> Prop := reachableIn (fun _ => True) (fun _ => True).

(** *** State getters *)

Definition getIsPlaying (w : World) : bool := isPlaying w.
Definition getPadOscillatorType (w : World) : string := padOscType w.
Definition getPadFilterFrequency (w : World) : number := padFilterFreq w.
Definition getChordSpeed (w : World) : number := chordSpeedMs w.
Definition getHeartbeatEnabled (w : World) : bool := heartbeatEnabled w.
Definition getArpeggiatorEnabled (w : World) : bool := arpeggiatorEnabled w.

(** * States, predicates and described runs

    What the lemmas and theorems below are stated with: the invariant of
    the engine, the states particular calls leave, described explicitly,
    and the properties the specification claims. *)

(** [triple P m Q]: from a state in [P], [m] completes without a
    [TypeError], in a state and with a result in [Q]. *)
Definition triple {A} (P : World -> Prop) (m : Js A) (Q : A -> World -> Prop) : Prop :=
  forall w, P w -> exists a w', m w = Normal a w' /\ Q a w'.

(** The entry of [activeTimers] under which a pending callback was
    pushed. *)
Definition entry_for (id : nat) (cb : Callback) : Timer :=
  if is_arp_note cb then Tagged id "arpeggio_note" else TimerId id.

(** The cursor a pending callback carries points into its table, and a
    pending arpeggio has notes to play. *)
Definition wf_callback (cb : Callback) : Prop :=
  match cb with
  | cbChordProgression i => i < List.length chords
  | cbPlayBassNote i => i < List.length bassNotes
  | cbPlayPhrase i => i < List.length phrases
  | cbPlayArpNote arpNotes _ => arpNotes <> []
  | _ => True
  end.

Record Inv (w : World) : Prop := mkInv {
  (** the three nodes are created together *)
  inv_nodes : audioContext w <> None -> masterGain w <> None /\ analyser w <> None;
  (** playback, and a call waiting to start it, have a context *)
  inv_playing : isPlaying w = true -> audioContext w <> None;
  inv_resuming : resuming w <> 0 -> audioContext w <> None;
  (** every pending callback is tracked in [activeTimers], under a
      positive id *)
  inv_tracked : forall id cb, In (id, cb) (timerTable w) ->
      id <> 0 /\ In (entry_for id cb) (activeTimers w) /\ wf_callback cb;
  inv_next : nextTimerId w <> 0;
  (** nothing is tracked or pending while stopped *)
  inv_stopped : isPlaying w = false ->
      activeTimers w = [] /\ activeOscillators w = [] /\ timerTable w = []
}.

Arguments inv_nodes {w} _ _.
Arguments inv_playing {w} _ _.
Arguments inv_resuming {w} _ _.
Arguments inv_tracked {w} _ _ _ _.
Arguments inv_next {w} _.
Arguments inv_stopped {w} _ _.

(** The invariant during playback, the only time the layers run. *)
Definition Live (w : World) : Prop := Inv w /\ isPlaying w = true.

(** [setTimeout] leaves the new callback untracked until the push that
    follows it in the source. *)
Definition LiveOncePushed (t : Timer) (w : World) : Prop :=
  Live (set_activeTimers (activeTimers w ++ [t]) w).

(** The timers [stopArpeggioSequence] cancels. *)
Definition arpCleared (timers : list Timer) (id : nat) : bool :=
  existsb (fun t => isArpTimer t && (timer_id t =? id)) timers.

(** The commands a sweep of layer [l] sends. *)
Definition sweepCmds (l : Layer) (rampMs stopMs : nat) (units : list Unit) : list AudioCmd :=
  flat_map (fun u => if Layer_eqb (type u) l
                     then [FadeOut (gain u) rampMs; OscStop (osc u) stopMs]
                     else []) units.

(** The units a sweep of layer [l] keeps. *)
Definition notOf (l : Layer) (u : Unit) : bool := negb (Layer_eqb (type u) l).

(** The state [stopArpeggioSequence] leaves. *)
Definition stoppedArpeggio (w : World) : World :=
  set_activeOscillators (filter (notOf arpeggio) (activeOscillators w))
    (set_audioLog (audioLog w ++ sweepCmds arpeggio 100 200 (activeOscillators w))
       (set_activeTimers (filter (fun t => negb (isArpTimer t)) (activeTimers w))
          (set_timerTable
             (filter (fun p => negb (arpCleared (activeTimers w) (fst p))) (timerTable w))
             (set_console (console w ++ [LogStoppingArpeggio]) w)))).

(** The invariant with the playback flag at [b]. *)
Definition InvAt (b : bool) (w : World) : Prop := Inv w /\ isPlaying w = b.

(** The variables the invariant reads. *)
Definition same_frame (w w' : World) : Prop :=
  audioContext w' = audioContext w /\ masterGain w' = masterGain w /\
  analyser w' = analyser w /\ isPlaying w' = isPlaying w /\
  resuming w' = resuming w /\ timerTable w' = timerTable w /\
  activeTimers w' = activeTimers w /\ activeOscillators w' = activeOscillators w /\
  nextTimerId w' = nextTimerId w.

(** The state [initAudio] leaves when it creates the context: the three
    nodes, and mute and volume as [localStorage] has them. *)
Definition initialized (e : Env) (w : World) : World :=
  let muted := match storedMuted w with
               | Some s => String.eqb s "true"
               | None => false
               end in
  let volume := match storedVolume w with
                | Some v => v
                | None => defaultVolume
                end in
  set_audioLog (audioLog w ++ MasterValue (if muted then zero else volume)
                  :: (if contextSuspended e then [ContextResume] else []))
    (set_console (console w ++ LogInitialized
                    :: (if contextSuspended e then [LogContextSuspended] else []))
       (set_currentVolume volume
          (set_isMuted muted
             (set_analyser (Some (2 + nextNode w))
                (set_masterGain (Some (1 + nextNode w))
                   (set_audioContext (Some (nextNode w))
                      (set_nextNode (3 + nextNode w) w))))))).

(** Code behind the guard [!nodes || !masterGain] has a context. *)
Definition Ready (b : bool) (w : World) : Prop := InvAt b w /\ audioContext w <> None.

(** The timers [stopAmbient] cancels. *)
Definition stopCleared (timers : list Timer) (id : nat) : bool :=
  existsb (fun t => match t with
                    | Tagged i _ => negb (i =? 0) && (i =? id)
                    | TimerId i => i =? id
                    end) timers.

(** The commands [stopAmbient] sends to the tracked units. *)
Definition fadeCmds (rampMs stopMs : nat) (units : list Unit) : list AudioCmd :=
  flat_map (fun u => [FadeOut (gain u) rampMs; OscStop (osc u) stopMs]) units.

(** The state [stopAmbient] leaves when it stops playback. *)
Definition stopped (w : World) : World :=
  set_console (console w ++ [LogStopping; LogStopped])
    (set_activeOscillators []
       (set_audioLog (audioLog w ++ fadeCmds 1000 1100 (activeOscillators w))
          (set_activeTimers []
             (set_timerTable
                (filter (fun p => negb (stopCleared (activeTimers w) (fst p)))
                        (timerTable w))
                (set_isPlaying false w))))).

(** An environment with Web Audio available, a running context and the
    first entry of every table drawn; a page without stored preferences;
    and the state a start leaves there. *)
Definition quietEnv : Env :=
  {| audioSupported := true; contextSuspended := false; masterGainValue := zero;
     randomChord := 0; randomBass := 0; randomPhrase := 0 |}.

Definition freshPage : World := loaded None None.

Definition playingWorld : World :=
  world_of (perform quietEnv CallStartAmbient freshPage).

(** While [isPlaying] is set, the three nodes are there. *)
Definition nodesPresentWhilePlaying (w : World) : Prop :=
  isPlaying w = true ->
  audioContext w <> None /\ masterGain w <> None /\ analyser w <> None.

(** [Math.max(lo, Math.min(hi, x))] *)
Definition clamp (lo hi x : number) : number := Math_max [lo; Math_min [hi; x]].

(** What the source's bounds have in common: ordinary numbers in order,
    [lo] not -0 and [hi] not +0. *)
Definition goodBounds (lo hi : number) : bool :=
  negb (isNaN lo) && negb (isNaN hi) && negb (isNegZero lo) && negb (isPosZero hi)
  && lt NegInfinity lo && lt hi Infinity && lt lo hi
  && negb (lt lo lo) && negb (lt hi hi) && le lo lo && le hi hi && le lo hi.

(** [lo <= x && x <= hi] *)
Definition inRange (lo hi x : number) : Prop := le lo x = true /\ le x hi = true.

(** Numbers other than NaN, the infinities and the zeros. *)
Definition allFinite (l : list number) : Prop :=
  Forall (fun x => exists s m e, x = S754_finite s m e) l.

(** An oscillator of the arpeggio layer being started. *)
Definition isArpStart (c : AudioCmd) : bool :=
  match c with OscStart _ arpeggio _ => true | _ => false end.

(** The arpeggio oscillators started, in order, with their frequencies. *)
Definition arpStarts (cmds : list AudioCmd) : list AudioCmd := filter isArpStart cmds.

(** The units and commands of the voices of a chord, from node [n] on:
    five nodes a note, the two oscillators tracked with their gains. *)
Fixpoint voiceUnits (n : nat) (chord : list number) : list Unit :=
  match chord with
  | [] => []
  | _ :: rest => mkUnit n (1 + n) pad :: mkUnit (2 + n) (3 + n) pad :: voiceUnits (5 + n) rest
  end.

Fixpoint voiceCmds (n : nat) (chord : list number) : list AudioCmd :=
  match chord with
  | [] => []
  | freq :: rest =>
      OscStart n pad freq :: OscStart (2 + n) pad (mul freq detune) :: voiceCmds (5 + n) rest
  end.

(** The state the voices of [chord] leave when the nodes exist. *)
Definition voiced (chord : list number) (w : World) : World :=
  set_activeOscillators (activeOscillators w ++ voiceUnits (nextNode w) chord)
    (set_audioLog (audioLog w ++ voiceCmds (nextNode w) chord)
       (set_nextNode (5 * List.length chord + nextNode w) w)).

(** Playback started with the arpeggiator enabled. *)
Definition arpWorld : World :=
  world_of (perform quietEnv CallStartAmbient
              (world_of (perform quietEnv CallToggleArpeggiator freshPage))).

(** The chord after the one [quietEnv] draws. *)
Definition secondChord : list number := nth 1 chords [].

(** The statements of [startLayers] up to the return of [createPad], and
    those after it. *)
Definition startPad (e : Env) : Js unit :=
  write (set_isPlaying true) ;;
  v <- read currentVolume ;;
  setVolume e v ;;
  createPad e.

Definition startRest (e : Env) : Js unit :=
  createBassline e ;;
  createTexture ;;
  createMelody e ;;
  hb <- read heartbeatEnabled ;;
  when hb createHeartbeat ;;
  arp <- read arpeggiatorEnabled ;;
  chord <- read currentPadChordNotes ;;
  when (arp && (0 <? List.length chord)) createArpeggio.

(** The state [createPad] leaves when it runs with the nodes in place and
    [isPlaying] set: the chord drawn is stored, the pad units tracked
    before are faded and dropped, the chord's voices are started and
    tracked, and the next chord change is scheduled. *)
Definition padStarted (e : Env) (chord : list number) (w : World) : World :=
  let i := randomIndex (randomChord e) (List.length chords) in
  set_activeTimers (activeTimers w ++ [TimerId (nextTimerId w)])
    (set_nextTimerId (S (nextTimerId w))
       (set_timerTable
          (timerTable w
           ++ [(nextTimerId w, cbChordProgression ((i + 1) mod List.length chords))])
          (set_console (console w ++ [LogCreatingPad; LogNextPadChange])
             (voiced chord
                (set_activeOscillators (filter (notOf pad) (activeOscillators w))
                   (set_audioLog
                      (audioLog w ++ sweepCmds pad 4000 4100 (activeOscillators w))
                      (set_currentPadChordNotes chord w))))))).

(** [keeps F m]: a run of [m], completed or not, leaves [F] of the state
    as it was. *)
Definition keeps {A B} (F : World -> A) (m : Js B) : Prop :=
  forall w, F (world_of (m w)) = F w.

(** The state [setVolume] leaves when the nodes exist. *)
Definition volumeSet (e : Env) (value : number) (w : World) : World :=
  set_console (console w ++ [LogVolumeSet (clampVolume value)])
    (set_storedVolume (Some (clampVolume value))
       (set_audioLog
          (audioLog w
           ++ (if contextSuspended e then [ContextResume] else [])
           ++ (if isMuted w then [] else [MasterTarget (clampVolume value)]))
          (set_currentVolume (clampVolume value) w))).

(** A fresh page after [initAudio]. *)
Definition initializedPage : World :=
  world_of (perform quietEnv CallInitAudio freshPage).

(** A pending callback of layer [l]. *)
Definition scheduledBy (l : Layer) (w : World) : Prop :=
  exists id cb, In (id, cb) (timerTable w) /\ layer_of cb = l.

(** The claim of the specification about the timers that a start
    schedules. *)
Definition timersAfterStart_claimed (w' : World) : Prop :=
  scheduledBy pad w' /\ scheduledBy bass w' /\ scheduledBy texture w' /\
  scheduledBy melody w' /\ ~ scheduledBy heartbeat w' /\ ~ scheduledBy arpeggio w'.

(** The parameters as the module initializes them. *)
Definition atDefaults (w : World) : Prop :=
  padOscType w = "triangle"%string /\ padFilterFreq w = n2000 /\
  chordSpeedMs w = n12000 /\ currentVolume w = defaultVolume /\
  heartbeatEnabled w = false /\ arpeggiatorEnabled w = false.

(** The state [toggleMute] leaves when the nodes exist: unmuting ramps to
    the stored volume; muting first stores what the master gain has
    reached, when that is above 0.001. *)
Definition muteToggled (e : Env) (w : World) : World :=
  let resumed := if contextSuspended e then [ContextResume] else [] in
  if isMuted w then
    set_console (console w ++ [LogUnmuted])
      (set_storedMuted None
         (set_audioLog
            (audioLog w ++ resumed
             ++ [MasterCancel; MasterSetValue zero; MasterRamp (currentVolume w) 200])
            (set_isMuted false w)))
  else
    set_console (console w ++ [LogMuted])
      (set_storedMuted (Some "true"%string)
         (set_audioLog
            (audioLog w ++ resumed
             ++ [MasterCancel; MasterSetValue (masterGainValue e); MasterRamp zero 200])
            (set_currentVolume
               (if lt muteThreshold (masterGainValue e)
                then masterGainValue e else currentVolume w)
               (set_isMuted true w)))).

(** [typeof v === ty] *)
Definition isType (ty : string) (v : value) : Prop := typeof v = ty.

(** What the specification claims of the fields [applySettings] skips:
    the state that corresponds to a field that is absent or of another
    type is left as it was. *)
Definition skippedFieldsUnchanged_claimed (e : Env) (settings : value) (w : World) : Prop :=
  let w' := world_of (applySettings e settings w) in
  (~ isType "number" (prop settings "volume") -> currentVolume w' = currentVolume w) /\
  (~ isType "boolean" (prop settings "isMuted") -> isMuted w' = isMuted w) /\
  (~ isType "string" (prop settings "padOscType") -> padOscType w' = padOscType w) /\
  (~ isType "number" (prop settings "padFilterFreq") ->
   padFilterFreq w' = padFilterFreq w) /\
  (~ isType "number" (prop settings "chordSpeedMs") -> chordSpeedMs w' = chordSpeedMs w) /\
  (~ isType "boolean" (prop settings "heartbeatEnabled") ->
   heartbeatEnabled w' = heartbeatEnabled w) /\
  (~ isType "boolean" (prop settings "arpeggiatorEnabled") ->
   arpeggiatorEnabled w' = arpeggiatorEnabled w).

(** A page on which the user had muted the player in an earlier visit. *)
Definition mutedPage : World := loaded (Some "true"%string) None.

(** Settings that carry a volume and nothing else. *)
Definition volumeOnly : value :=
  VObject [("volume"%string, VNumber (lit 0.5%float))].

(** The steps of [applySettings], in the order of the source. *)
Definition applyVolume (e : Env) (settings : value) : Js unit :=
  ifNumber (prop settings "volume") (setVolume e).
Definition applyMuted (e : Env) (settings : value) : Js unit :=
  ifBooleanDiffers (prop settings "isMuted") isMuted (toggleMute e).
Definition applyPadOscType (settings : value) : Js unit :=
  ifString (prop settings "padOscType") setPadOscillatorType.
Definition applyPadFilterFreq (settings : value) : Js unit :=
  ifNumber (prop settings "padFilterFreq") setPadFilterFrequency.
Definition applyChordSpeed (settings : value) : Js unit :=
  ifNumber (prop settings "chordSpeedMs") setChordSpeed.
Definition applyHeartbeat (settings : value) : Js unit :=
  ifBooleanDiffers (prop settings "heartbeatEnabled") heartbeatEnabled toggleHeartbeat.
Definition applyArpeggiator (settings : value) : Js unit :=
  ifBooleanDiffers (prop settings "arpeggiatorEnabled") arpeggiatorEnabled
    toggleArpeggiator.

(** The run of [applySettings] on settings that are not falsy, step by
    step. *)
Record SettingsRun (e : Env) (s : value) (w w0 w1 w2 w3 w4 w5 w6 w7 : World) : Prop := {
  run_log : log LogApplyingSettings w = Normal tt w0;
  run_volume : applyVolume e s w0 = Normal tt w1;
  run_muted : applyMuted e s w1 = Normal tt w2;
  run_type : applyPadOscType s w2 = Normal tt w3;
  run_filter : applyPadFilterFreq s w3 = Normal tt w4;
  run_speed : applyChordSpeed s w4 = Normal tt w5;
  run_heartbeat : applyHeartbeat s w5 = Normal tt w6;
  run_arpeggiator : applyArpeggiator s w6 = Normal tt w7;
  run_all : applySettings e s w = Normal tt w7;
  run_inv0 : Inv w0; run_inv1 : Inv w1
}.

(** A value of the master gain that [toggleMute] would store as the
    volume lies in 0..1: the gain is only ever driven between such
    values. *)
Definition saneEnv (e : Env) : Prop :=
  lt muteThreshold (masterGainValue e) = true ->
  clampVolume (masterGainValue e) = masterGainValue e.

(** A volume found in [localStorage] at load was stored by [setVolume]. *)
Definition saneVolume (v : number) : Prop := clampVolume v = v.

(** The parameters are as the setters leave them. *)
Record Settled (w : World) : Prop := mkSettled {
  settled_volume : clampVolume (currentVolume w) = currentVolume w;
  settled_stored : forall v, storedVolume w = Some v -> clampVolume v = v;
  settled_filter : clampFilterFrequency (padFilterFreq w) = padFilterFreq w;
  settled_speed : clampChordSpeed (chordSpeedMs w) = chordSpeedMs w;
  settled_type : includes validOscTypes (VString (padOscType w)) = true;
  settled_unmuted : audioContext w = None -> isMuted w = false
}.

(** The variables [Settled] reads. *)
Definition parameters (w : World) :=
  (currentVolume w, storedVolume w, padFilterFreq w, chordSpeedMs w, padOscType w,
   isMuted w, audioContext w).

(** [preserves P m]: a run of [m], completed or not, keeps [P]. *)
Definition preserves {A} (P : World -> Prop) (m : Js A) : Prop :=
  forall w, P w -> P (world_of (m w)).

(** The state [setVolume] leaves when it has to create the audio graph
    first. *)
Definition volumeStored (value : number) (w : World) : World :=
  set_console (console w ++ [LogVolumeSet (clampVolume value)])
    (set_storedVolume (Some (clampVolume value))
       (set_audioLog
          (audioLog w ++ (if isMuted w then [] else [MasterTarget (clampVolume value)]))
          (set_currentVolume (clampVolume value) w))).

(** What the specification claims of the round trip: the seven settings
    after [applySettings(getSettings())] are the seven settings before. *)
Definition roundTrips (e : Env) (w : World) : Prop :=
  let w' := world_of (applySettings e (getSettings w) w) in
  currentVolume w' = currentVolume w /\
  isMuted w' = isMuted w /\
  padOscType w' = padOscType w /\
  padFilterFreq w' = padFilterFreq w /\
  chordSpeedMs w' = chordSpeedMs w /\
  heartbeatEnabled w' = heartbeatEnabled w /\
  arpeggiatorEnabled w' = arpeggiatorEnabled w.

(** A page whose [localStorage] holds a volume of 5, after the audio graph
    has been set up. *)
Definition foreignVolumePage : World :=
  world_of (perform quietEnv CallInitAudio (loaded None (Some (lit 5%float)))).

(** The variables that only [initAudio], [setVolume], [toggleMute] and
    the three parameter setters assign. *)
Definition settingsFrame (w : World) :=
  (audioContext w, masterGain w, isMuted w, currentVolume w, storedMuted w,
   storedVolume w, padOscType w, padFilterFreq w, chordSpeedMs w).

(** What a clamp lets through: a number within its bounds, or NaN. *)
Definition clamped (lo hi x : number) : Prop := isNaN x = true \/ inRange lo hi x.

Record ParamsOk (w : World) : Prop := mkParamsOk {
  ok_type : In (padOscType w) validOscTypes;
  ok_filter : clamped n100 n10000 (padFilterFreq w);
  ok_speed : clamped n4000 n30000 (chordSpeedMs w)
}.

Definition paramsFrame (w : World) := (padOscType w, padFilterFreq w, chordSpeedMs w).

(** [localStorage.getItem('ambientMuted') === 'true'] *)
Definition storedTrue (stored : option string) : bool :=
  match stored with
  | Some s => String.eqb s "true"
  | None => false
  end.

(** Once the audio graph exists, the mute flag is what the store holds. *)
Definition MuteStored (w : World) : Prop :=
  audioContext w <> None -> isMuted w = storedTrue (storedMuted w).

Definition muteFrame (w : World) := (audioContext w, isMuted w, storedMuted w).

(** A state with the mute flag set: playback started, then muted. *)
Definition mutedWorld : World := world_of (perform quietEnv CallToggleMute playingWorld).

(** The platform provides no Web Audio: constructing the context
    throws. *)
Definition noAudio (e : Env) : Prop := audioSupported e = false.

(** No context, no playback, nothing tracked, pending or sent. *)
Definition Dormant (w : World) : Prop :=
  audioContext w = None /\ isPlaying w = false /\ resuming w = 0 /\
  timerTable w = [] /\ activeTimers w = [] /\ activeOscillators w = [] /\
  audioLog w = [].

Definition dormantFrame (w : World) :=
  (audioContext w, isPlaying w, resuming w, timerTable w, activeTimers w,
   activeOscillators w, audioLog w).

(** A browser without Web Audio. *)
Definition deafEnv : Env :=
  {| audioSupported := false; contextSuspended := false; masterGainValue := zero;
     randomChord := 0; randomBass := 0; randomPhrase := 0 |}.

(** A start, a volume change and a toggle of the heartbeat there. *)
Definition deafWorld : World :=
  world_of (perform deafEnv CallToggleHeartbeat
    (world_of (perform deafEnv (CallSetVolume one)
       (world_of (perform deafEnv CallStartAmbient freshPage))))).

(** The value [Math.max(lo, Math.min(hi, x))] takes for a number [x]
    other than NaN. *)
Definition saturated (lo hi x : number) : number :=
  if lt x hi then (if lt lo x then x else lo) else hi.

(** The tracked units of layer [l]. *)
Definition unitsOf (l : Layer) (units : list Unit) : list Unit :=
  filter (fun u => Layer_eqb (type u) l) units.

(** The state [createArpeggio] leaves when it starts a sequence: the
    first note sounds, its unit is tracked with its self-cleanup, and the
    next note is scheduled under the [arpeggio_note] tag. *)
Definition arpeggioStarted (w : World) : World :=
  let arpNotes := arpNotesOf (currentPadChordNotes w) in
  let o := nextNode w in
  let t := nextTimerId w in
  set_activeTimers (activeTimers w ++ [TimerId t; Tagged (S t) "arpeggio_note"])
    (set_nextTimerId (S (S t))
       (set_timerTable
          (timerTable w ++ [(t, cbCleanup arpeggio o); (S t, cbPlayArpNote arpNotes 1)])
          (set_activeOscillators (activeOscillators w ++ [mkUnit o (S o) arpeggio])
             (set_audioLog
                (audioLog w ++ [OscStart o arpeggio (nth 0 (currentPadChordNotes w) NaN)])
                (set_nextNode (3 + o)
                   (set_console (console w ++ [LogCreatingArpeggio]) w)))))).

(** The state a chord transition leaves before it turns to the
    arpeggio: the chord stored, the pad units tracked before faded and
    dropped, the chord's voices started and tracked, and the next
    transition scheduled. *)
Definition chordAdvanced (i : nat) (chord : list number) (w : World) : World :=
  set_activeTimers (activeTimers w ++ [TimerId (nextTimerId w)])
    (set_nextTimerId (S (nextTimerId w))
       (set_timerTable
          (timerTable w
           ++ [(nextTimerId w, cbChordProgression ((i + 1) mod List.length chords))])
          (set_console (console w ++ [LogNextPadChange])
             (voiced chord
                (set_activeOscillators (filter (notOf pad) (activeOscillators w))
                   (set_audioLog
                      (audioLog w ++ sweepCmds pad 4000 4100 (activeOscillators w))
                      (set_currentPadChordNotes chord w))))))).

(** What a chord transition does of the arpeggio when the chord has
    changed. *)
Definition arpeggioUpdate : Js unit :=
  log LogChordChanged ;; stopArpeggioSequence ;; createArpeggio.

(** The state [playSingleBeat] leaves during playback. *)
Definition beatStarted (w : World) : World :=
  let o := nextNode w in
  let t := nextTimerId w in
  set_activeTimers (activeTimers w ++ [TimerId t])
    (set_nextTimerId (S t)
       (set_timerTable (timerTable w ++ [(t, cbCleanup heartbeat o)])
          (set_activeOscillators (activeOscillators w ++ [mkUnit o (S o) heartbeat])
             (set_audioLog (audioLog w ++ [OscStart o heartbeat baseFreq])
                (set_nextNode (2 + o) w))))).

(** The state [playBeatPair] leaves during playback with the heartbeat
    enabled: two beats, and the next pair scheduled. *)
Definition beatPairStarted (w : World) : World :=
  let w2 := beatStarted (beatStarted w) in
  set_activeTimers (activeTimers w2 ++ [TimerId (nextTimerId w2)])
    (set_nextTimerId (S (nextTimerId w2))
       (set_timerTable (timerTable w2 ++ [(nextTimerId w2, cbPlayBeatPair)]) w2)).

(** The statements of [toggleHeartbeat]'s disable branch. *)
Definition heartbeatSweep : Js unit :=
  currentTime ;;
  units <- read activeOscillators ;;
  kept <- filterM units (sweepCallback heartbeat 100 200) ;;
  write (set_activeOscillators kept) ;;
  timers <- read activeTimers ;;
  kept <- filterM timers (fun _ => ret true) ;;
  write (set_activeTimers kept).

(** The state they leave. *)
Definition heartbeatSwept (w : World) : World :=
  set_activeOscillators (filter (notOf heartbeat) (activeOscillators w))
    (set_audioLog (audioLog w ++ sweepCmds heartbeat 100 200 (activeOscillators w)) w).

(** The state [toggleHeartbeat] passes on after the flag and the log. *)
Definition heartbeatFlipped (w : World) : World :=
  set_console (console w ++ [LogHeartbeat (negb (heartbeatEnabled w))])
    (set_heartbeatEnabled (negb (heartbeatEnabled w)) w).

(** [hoare P m Q]: a run of [m] that starts in [P] and completes does so
    with a result and in a state in [Q]. *)
Definition hoare {A} (P : World -> Prop) (m : Js A) (Q : A -> World -> Prop) : Prop :=
  forall w a w', P w -> m w = Normal a w' -> Q a w'.

(** Timer ids are issued once and upwards, no bass oscillator is
    tracked and at most one texture source is. *)
Record Tidy (w : World) : Prop := mkTidy {
  tidy_ids : NoDup (map fst (timerTable w));
  tidy_pending : forall p, In p (timerTable w) -> fst p < nextTimerId w;
  tidy_tracked : forall t, In t (activeTimers w) -> timer_id t < nextTimerId w;
  tidy_bass : forall u, In u (activeOscillators w) -> type u <> bass;
  tidy_texture : List.length (unitsOf texture (activeOscillators w)) <= 1
}.

Definition tidyFrame (w : World) :=
  (timerTable w, nextTimerId w, activeTimers w, activeOscillators w).

(** Between [setTimeout] and the push of the id it returned. *)
Definition Scheduled (id : nat) (w : World) : Prop := Tidy w /\ id < nextTimerId w.

(** The state [createTexture] leaves when it starts the noise source. *)
Definition textureStarted (w : World) : World :=
  set_activeOscillators
    (activeOscillators w ++ [mkUnit (nextNode w) (2 + nextNode w) texture])
    (set_audioLog (audioLog w ++ [SourceStart (nextNode w) texture])
       (set_nextNode (3 + nextNode w)
          (set_console (console w ++ [LogCreatingTexture]) w))).

(** The state a chord transition leaves when it updates the arpeggio. *)
Definition arpeggioUpdated (i : nat) (chord : list number) (w : World) : World :=
  arpeggioStarted
    (stoppedArpeggio
       (set_console (console (chordAdvanced i chord w) ++ [LogChordChanged])
          (chordAdvanced i chord w))).

(** The variables the guards of the layers read. *)
Definition guardFrame (w : World) :=
  (audioContext w, masterGain w, isPlaying w, arpeggiatorEnabled w, heartbeatEnabled w,
   currentPadChordNotes w).

(** The pending beat pairs. *)
Definition isBeatPair (p : nat * Callback) : bool :=
  match snd p with cbPlayBeatPair => true | _ => false end.

Definition pendingBeatPairs (w : World) : nat :=
  List.length (filter isBeatPair (timerTable w)).

(** A state with the heartbeat running: enabled, then playback started. *)
Definition heartWorld : World :=
  world_of (perform quietEnv CallStartAmbient
              (world_of (perform quietEnv CallToggleHeartbeat freshPage))).

(** A callback that keeps its layer going: a chord transition, a bass
    note, a phrase, a beat pair or an arpeggio note; not a single melody
    note, nor a unit's self-cleanup. *)
Definition isLoop (cb : Callback) : bool :=
  match cb with
  | cbCleanup _ _ | cbMelodyNote _ => false
  | _ => true
  end.

Definition loopsIn (l : Layer) (cbs : list Callback) : nat :=
  List.length (filter (fun cb => isLoop cb && Layer_eqb (layer_of cb) l) cbs).

(** The number of such callbacks of layer [l] that are pending. *)
Definition loopsOf (l : Layer) (w : World) : nat := loopsIn l (map snd (timerTable w)).

Definition typesIn (l : Layer) (tys : list Layer) : nat :=
  List.length (filter (fun t => Layer_eqb t l) tys).

(** The number of tracked units of layer [l]. *)
Definition tracked (l : Layer) (w : World) : nat :=
  typesIn l (map type (activeOscillators w)).

Definition count (b : bool) : nat := if b then 1 else 0.

(** [w'] is [w] with the callbacks [cbs] scheduled and units of the types
    [tys] tracked in addition, the variables the guards read being the
    same. *)
Definition adds (cbs : list Callback) (tys : list Layer) (w w' : World) : Prop :=
  audioContext w' = audioContext w /\ masterGain w' = masterGain w /\
  isPlaying w' = isPlaying w /\ heartbeatEnabled w' = heartbeatEnabled w /\
  arpeggiatorEnabled w' = arpeggiatorEnabled w /\
  currentPadChordNotes w' = currentPadChordNotes w /\
  map snd (timerTable w') = map snd (timerTable w) ++ cbs /\
  map type (activeOscillators w') = map type (activeOscillators w) ++ tys.

(** The states the layers' starters leave. *)
Definition basslineStarted (e : Env) (w : World) : World :=
  set_activeTimers (activeTimers w ++ [TimerId (nextTimerId w)])
    (set_nextTimerId (S (nextTimerId w))
       (set_timerTable
          (timerTable w
           ++ [(nextTimerId w,
                cbPlayBassNote (randomIndex (randomBass e) (List.length bassNotes)))])
          (set_console (console w ++ [LogCreatingBassline]) w))).

Definition melodyStarted (e : Env) (w : World) : World :=
  set_activeTimers (activeTimers w ++ [TimerId (nextTimerId w)])
    (set_nextTimerId (S (nextTimerId w))
       (set_timerTable
          (timerTable w
           ++ [(nextTimerId w,
                cbPlayPhrase (randomIndex (randomPhrase e) (List.length phrases)))])
          (set_console (console w ++ [LogCreatingMelody]) w))).

(** What a layer's starter needs to go ahead. *)
Definition ready (w : World) : Prop :=
  audioContext w <> None /\ masterGain w <> None /\ isPlaying w = true.

(** A stopped state with both layers enabled. *)
Definition bothEnabled : World :=
  world_of (perform quietEnv CallToggleArpeggiator
              (world_of (perform quietEnv CallToggleHeartbeat freshPage))).

(** The state [playBassNote] leaves during playback: the note and the
    note an octave below sound, and the next position is scheduled. *)
Definition bassNotePlayed (i : nat) (f : number) (w : World) : World :=
  set_activeTimers (activeTimers w ++ [TimerId (nextTimerId w)])
    (set_nextTimerId (S (nextTimerId w))
       (set_timerTable
          (timerTable w
           ++ [(nextTimerId w, cbPlayBassNote ((i + 1) mod List.length bassNotes))])
          (set_audioLog
             (audioLog w ++ [OscStart (nextNode w) bass f;
                             OscStart (2 + nextNode w) bass (div f two)])
             (set_nextNode (5 + nextNode w) w)))).

(** The timers [playPhrase] sets for the notes of a phrase, from id [t]
    on. *)
Fixpoint noteTimers (t : nat) (phrase : list number) : list (nat * Callback) :=
  match phrase with
  | [] => []
  | freq :: rest => (t, cbMelodyNote freq) :: noteTimers (S t) rest
  end.

Definition noteIds (t : nat) (phrase : list number) : list Timer :=
  map (fun p => TimerId (fst p)) (noteTimers t phrase).

(** The state the scheduling of a phrase's notes leaves. *)
Definition notesScheduled (phrase : list number) (w : World) : World :=
  set_activeTimers (activeTimers w ++ noteIds (nextTimerId w) phrase)
    (set_nextTimerId (List.length phrase + nextTimerId w)
       (set_timerTable (timerTable w ++ noteTimers (nextTimerId w) phrase) w)).

(** The state [playPhrase] leaves during playback. *)
Definition phraseScheduled (i : nat) (phrase : list number) (w : World) : World :=
  let w1 := notesScheduled phrase w in
  set_activeTimers (activeTimers w1 ++ [TimerId (nextTimerId w1)])
    (set_nextTimerId (S (nextTimerId w1))
       (set_timerTable
          (timerTable w1
           ++ [(nextTimerId w1, cbPlayPhrase ((i + 1) mod List.length phrases))]) w1)).

(** The state a melody note leaves during playback. *)
Definition melodyNotePlayed (freq : number) (w : World) : World :=
  set_activeTimers (activeTimers w ++ [TimerId (nextTimerId w)])
    (set_nextTimerId (S (nextTimerId w))
       (set_timerTable (timerTable w ++ [(nextTimerId w, cbCleanup melody (nextNode w))])
          (set_activeOscillators
             (activeOscillators w ++ [mkUnit (nextNode w) (S (nextNode w)) melody])
             (set_audioLog (audioLog w ++ [OscStart (nextNode w) melody freq])
                (set_nextNode (4 + nextNode w) w))))).

(** No next-note callback of the arpeggio is pending while the
    arpeggiator is disabled. *)
Definition Quiet (w : World) : Prop :=
  forall id cb, In (id, cb) (timerTable w) -> is_arp_note cb = true ->
                arpeggiatorEnabled w = true.

Definition quietFrame (w : World) := (timerTable w, arpeggiatorEnabled w).

Definition Calm (b : bool) (w : World) : Prop := InvAt b w /\ Quiet w.

(** The state [playArpNote] leaves with the arpeggiator enabled during
    playback. *)
Definition arpNotePlayed (arpNotes : list number) (n : nat) (freq : number) (w : World)
  : World :=
  let o := nextNode w in
  let t := nextTimerId w in
  set_activeTimers (activeTimers w ++ [TimerId t; Tagged (S t) "arpeggio_note"])
    (set_nextTimerId (S (S t))
       (set_timerTable
          (timerTable w ++ [(t, cbCleanup arpeggio o); (S t, cbPlayArpNote arpNotes (S n))])
          (set_activeOscillators (activeOscillators w ++ [mkUnit o (S o) arpeggio])
             (set_audioLog (audioLog w ++ [OscStart o arpeggio freq])
                (set_nextNode (3 + o) w))))).

(** Playback after the first phrase has scheduled its notes. *)
Definition phraseWorld : World := world_of (perform quietEnv (TimerFires 3) playingWorld).

(** While the page plays, the chord the pad has stored is a chord of the
    progression. *)
Definition Chorded (w : World) : Prop :=
  isPlaying w = true -> In (currentPadChordNotes w) chords.

Definition chordFrame (w : World) := (isPlaying w, currentPadChordNotes w).

(** The context and the master gain exist. *)
Definition Wired (w : World) : Prop := audioContext w <> None /\ masterGain w <> None.

Definition wiredFrame (w : World) := (audioContext w, masterGain w).

(** The state [toggleArpeggiator] has reached when it turns to
    [createArpeggio]. *)
Definition arpeggiatorOn (w : World) : World :=
  set_console (console w ++ [LogArpeggiator true]) (set_arpeggiatorEnabled true w).

(** The state [toggleMute] leaves from the one [initAudio] has set up. *)
Definition muteFlipped (e : Env) (w : World) : World :=
  if isMuted w then
    set_console (console w ++ [LogUnmuted])
      (set_storedMuted None
         (set_audioLog
            (audioLog w
             ++ [MasterCancel; MasterSetValue zero; MasterRamp (currentVolume w) 200])
            (set_isMuted false w)))
  else
    set_console (console w ++ [LogMuted])
      (set_storedMuted (Some "true"%string)
         (set_audioLog
            (audioLog w
             ++ [MasterCancel; MasterSetValue (masterGainValue e); MasterRamp zero 200])
            (set_currentVolume
               (if lt muteThreshold (masterGainValue e)
                then masterGainValue e else currentVolume w)
               (set_isMuted true w)))).

(** The volume [toggleMute] leaves: muting takes over what the master
    gain has reached, when that is above 0.001. *)
Definition volumeAfterToggle (e : Env) (muted : bool) (volume : number) : number :=
  if muted then volume
  else if lt muteThreshold (masterGainValue e) then masterGainValue e else volume.

(** The level [toggleMute] ramps the master gain to. *)
Definition rampTarget (muted : bool) (volume : number) : number :=
  if muted then volume else zero.

(** The id [t] is tracked as a plain number. *)
Definition Held (t : nat) (w : World) : Prop := In (TimerId t) (activeTimers w).

(** An environment in which the context is suspended. *)
Definition suspendedEnv : Env :=
  {| audioSupported := true; contextSuspended := true; masterGainValue := zero;
     randomChord := 0; randomBass := 0; randomPhrase := 0 |}.

(** Two calls of [startAmbient] wait for the context; the wait of the
    first has ended. *)
Definition overlappedWorld : World :=
  world_of (perform quietEnv (ResumeSettles true)
    (world_of (perform suspendedEnv CallStartAmbient
       (world_of (perform suspendedEnv CallStartAmbient freshPage))))).

(** * Reasoning about runs *)

(** ** Total-correctness triples *)

Section Triples.
Context {A B : Type}.

Lemma triple_ret (P : World -> Prop) (a : A) (Q : A -> World -> Prop) :
  (forall w, P w -> Q a w) -> triple P (ret a) Q.
Proof. intros H w Hw. exists a, w. split; [reflexivity | auto]. Qed.

Lemma triple_bind (P : World -> Prop) (m : Js A) (R : A -> World -> Prop)
      (k : A -> Js B) (Q : B -> World -> Prop) :
  triple P m R -> (forall a, triple (R a) (k a) Q) -> triple P (bind m k) Q.
Proof.
  intros Hm Hk w Hw. destruct (Hm w Hw) as (a & w1 & Em & HR).
  destruct (Hk a w1 HR) as (b & w2 & Ek & HQ).
  exists b, w2. unfold bind. rewrite Em. auto.
Qed.

Lemma triple_pre (P P' : World -> Prop) (m : Js A) (Q : A -> World -> Prop) :
  (forall w, P w -> P' w) -> triple P' m Q -> triple P m Q.
Proof. intros HP Hm w Hw. apply Hm, HP, Hw. Qed.

Lemma triple_post (P : World -> Prop) (m : Js A) (Q Q' : A -> World -> Prop) :
  (forall a w, Q' a w -> Q a w) -> triple P m Q' -> triple P m Q.
Proof.
  intros HQ Hm w Hw. destruct (Hm w Hw) as (a & w' & E & H).
  exists a, w'. auto.
Qed.

Lemma triple_read (P : World -> Prop) (f : World -> A) :
  triple P (read f) (fun a w => P w /\ a = f w).
Proof. intros w Hw. exists (f w), w. auto. Qed.

Lemma triple_deref (P : World -> Prop) (f : World -> option A) :
  (forall w, P w -> f w <> None) ->
  triple P (deref f) (fun a w => P w /\ f w = Some a).
Proof.
  intros H w Hw. unfold deref. specialize (H w Hw).
  destruct (f w) as [a|] eqn:E; [| congruence]. exists a, w. auto.
Qed.
End Triples.

Lemma triple_write (P : World -> Prop) (f : World -> World) (Q : unit -> World -> Prop) :
  (forall w, P w -> Q tt (f w)) -> triple P (write f) Q.
Proof. intros H w Hw. exists tt, (f w). split; [reflexivity | auto]. Qed.

Lemma triple_when (P : World -> Prop) (b : bool) (m : Js unit) :
  triple P m (fun _ => P) -> triple P (when b m) (fun _ => P).
Proof. intros H. destruct b; [exact H | apply triple_ret; auto]. Qed.

Lemma triple_forEach {A} (P : World -> Prop) (l : list A) (f : A -> Js unit) :
  (forall x, In x l -> triple P (f x) (fun _ => P)) ->
  triple P (forEach l f) (fun _ => P).
Proof.
  induction l as [|x l IH]; intros H; simpl.
  - apply triple_ret; auto.
  - eapply triple_bind; [apply H; left; reflexivity |].
    intros ?. apply IH. intros y Hy. apply H. right. exact Hy.
Qed.

Lemma triple_filterM {A} (P : World -> Prop) (l : list A) (f : A -> Js bool) :
  (forall x, In x l -> triple P (f x) (fun _ => P)) ->
  triple P (filterM l f) (fun _ => P).
Proof.
  induction l as [|x l IH]; intros H; simpl.
  - apply triple_ret; auto.
  - eapply triple_bind; [apply H; left; reflexivity |].
    intros keep. eapply triple_bind; [apply IH; intros y Hy; apply H; right; exact Hy |].
    intros rest. apply triple_ret; auto.
Qed.

(** A run that completes in [Q], read off a triple. *)
Lemma triple_run {A} (P : World -> Prop) (m : Js A) (Q : A -> World -> Prop) (w : World) :
  triple P m Q -> P w -> exists a, m w = Normal a (world_of (m w)) /\ Q a (world_of (m w)).
Proof.
  intros H Hw. destruct (H w Hw) as (a & w' & E & HQ).
  exists a. rewrite E. simpl. auto.
Qed.

(** ** The invariant of the engine *)

Lemma Live_context w : Live w -> audioContext w <> None.
Proof. intros [H Hp]. apply (inv_playing H Hp). Qed.

Lemma Live_masterGain w : Live w -> masterGain w <> None.
Proof. intros H. apply (inv_nodes (proj1 H)), Live_context, H. Qed.

Lemma Inv_loaded muted volume : Inv (loaded muted volume).
Proof.
  constructor; simpl; try congruence; tauto.
Qed.

(** *** What the primitives keep *)

Ltac inv_fields H :=
  destruct H as [Hnodes Hplaying Hresuming Htracked Hnext Hstopped].

Lemma Live_log m : triple Live (log m) (fun _ => Live).
Proof.
  apply triple_write. intros w [H Hp]. split; [| exact Hp].
  inv_fields H. constructor; assumption.
Qed.

Lemma Live_emit c : triple Live (emit c) (fun _ => Live).
Proof.
  apply triple_write. intros w [H Hp]. split; [| exact Hp].
  inv_fields H. constructor; assumption.
Qed.

Lemma Inv_log m : triple Inv (log m) (fun _ => Inv).
Proof.
  apply triple_write. intros w H. inv_fields H. constructor; assumption.
Qed.

Lemma Inv_emit c : triple Inv (emit c) (fun _ => Inv).
Proof.
  apply triple_write. intros w H. inv_fields H. constructor; assumption.
Qed.

Lemma Live_currentTime : triple Live currentTime (fun _ => Live).
Proof.
  unfold currentTime. eapply triple_bind.
  - apply triple_deref. apply Live_context.
  - intros c. apply triple_ret. tauto.
Qed.

Lemma Live_createNode : triple Live createNode (fun _ => Live).
Proof.
  unfold createNode. eapply triple_bind.
  { apply triple_deref. apply Live_context. }
  intros ?. eapply triple_bind; [apply triple_read |].
  intros n. eapply triple_bind.
  { apply triple_write with (Q := fun _ => Live).
    intros w [[[H Hp] _] _]. split; [| exact Hp].
    inv_fields H. constructor; assumption. }
  intros ?. apply triple_ret. auto.
Qed.

Lemma Live_pushUnit u : triple Live (pushUnit u) (fun _ => Live).
Proof.
  apply triple_write. intros w [H Hp]. split; [| exact Hp].
  inv_fields H. constructor; try assumption.
  simpl. intros Hs. simpl in Hp. congruence.
Qed.

Lemma Live_set_units : forall l,
  triple Live (write (set_activeOscillators l)) (fun _ => Live).
Proof.
  intros l. apply triple_write. intros w [H Hp]. split; [| exact Hp].
  inv_fields H. constructor; try assumption.
  simpl. intros Hs. simpl in Hp. congruence.
Qed.

Lemma Live_set_chord : forall l,
  triple Live (write (set_currentPadChordNotes l)) (fun _ => Live).
Proof.
  intros l. apply triple_write. intros w [H Hp]. split; [| exact Hp].
  inv_fields H. constructor; assumption.
Qed.

Lemma Live_setTimeout cb :
  wf_callback cb ->
  triple Live (setTimeout cb) (fun id => LiveOncePushed (entry_for id cb)).
Proof.
  intros Hwf. unfold setTimeout. eapply triple_bind; [apply triple_read |].
  intros id. eapply triple_bind.
  { apply triple_write with
      (Q := fun _ => LiveOncePushed (entry_for id cb)).
    intros w [[H Hp] ->]. split; [| exact Hp].
    inv_fields H. constructor; simpl; try assumption.
    - intros i c Hin. apply in_app_or in Hin. destruct Hin as [Hin | [Heq | []]].
      + destruct (Htracked i c Hin) as (Hi & Ht & Hc).
        repeat split; auto. apply in_or_app. left. exact Ht.
      + inversion Heq. subst i c. repeat split; auto.
        apply in_or_app. right. left. reflexivity.
    - discriminate.
    - simpl in Hp. congruence. }
  intros ?. apply triple_ret. auto.
Qed.

Lemma Live_pushTimer t :
  triple (LiveOncePushed t) (pushTimer t) (fun _ => Live).
Proof. apply triple_write. intros w H. exact H. Qed.

Lemma Live_fadeAndStop u a b : triple Live (fadeAndStop u a b) (fun _ => Live).
Proof.
  unfold fadeAndStop. eapply triple_bind; [apply Live_emit |].
  intros ?. apply Live_emit.
Qed.

Lemma Live_clearTimeout id : triple Live (clearTimeout id) (fun _ => Live).
Proof.
  apply triple_write. intros w [H Hp]. split; [| exact Hp].
  inv_fields H. constructor; simpl; try assumption.
  - intros i c Hin. apply filter_In in Hin. apply Htracked, Hin.
  - simpl in Hp. congruence.
Qed.

(** ** Computing with worlds

    Projections of assignments, reduced by value so that nested
    assignments are not copied. *)
Ltac world :=
  cbv beta iota delta
    [
      audioContext masterGain analyser activeOscillators activeTimers isMuted
      currentVolume isPlaying heartbeatEnabled arpeggiatorEnabled
      currentPadChordNotes padOscType padFilterFreq chordSpeedMs timerTable
      nextTimerId nextNode storedMuted storedVolume console audioLog resuming
      set_audioContext set_masterGain set_analyser set_activeOscillators
      set_activeTimers set_isMuted set_currentVolume set_isPlaying
      set_heartbeatEnabled set_arpeggiatorEnabled set_currentPadChordNotes
      set_padOscType set_padFilterFreq set_chordSpeedMs set_timerTable
      set_nextTimerId set_nextNode set_storedMuted set_storedVolume
      set_console set_audioLog set_resuming ].

Ltac world_in H :=
  cbv beta iota delta
    [
      audioContext masterGain analyser activeOscillators activeTimers isMuted
      currentVolume isPlaying heartbeatEnabled arpeggiatorEnabled
      currentPadChordNotes padOscType padFilterFreq chordSpeedMs timerTable
      nextTimerId nextNode storedMuted storedVolume console audioLog resuming
      set_audioContext set_masterGain set_analyser set_activeOscillators
      set_activeTimers set_isMuted set_currentVolume set_isPlaying
      set_heartbeatEnabled set_arpeggiatorEnabled set_currentPadChordNotes
      set_padOscType set_padFilterFreq set_chordSpeedMs set_timerTable
      set_nextTimerId set_nextNode set_storedMuted set_storedVolume
      set_console set_audioLog set_resuming ] in H.

(** A run of straight-line code on a world given by its fields. *)
Ltac exec :=
  cbv beta iota zeta delta
    [ bind ret read write when deref log emit currentTime createNode
      pushUnit pushTimer setTimeout clearTimeout isNull
      negb orb andb world_of
      audioContext masterGain analyser activeOscillators activeTimers isMuted
      currentVolume isPlaying heartbeatEnabled arpeggiatorEnabled
      currentPadChordNotes padOscType padFilterFreq chordSpeedMs timerTable
      nextTimerId nextNode storedMuted storedVolume console audioLog resuming
      set_audioContext set_masterGain set_analyser set_activeOscillators
      set_activeTimers set_isMuted set_currentVolume set_isPlaying
      set_heartbeatEnabled set_arpeggiatorEnabled set_currentPadChordNotes
      set_padOscType set_padFilterFreq set_chordSpeedMs set_timerTable
      set_nextTimerId set_nextNode set_storedMuted set_storedVolume
      set_console set_audioLog set_resuming ].

(** The same, through loops over lists that are given. *)
Ltac exec_loops :=
  cbv beta iota zeta delta
    [ bind ret read write when deref log emit currentTime createNode
      pushUnit pushTimer setTimeout clearTimeout fadeAndStop isNull
      negb orb andb world_of forEach entry padVoice
      audioContext masterGain analyser activeOscillators activeTimers isMuted
      currentVolume isPlaying heartbeatEnabled arpeggiatorEnabled
      currentPadChordNotes padOscType padFilterFreq chordSpeedMs timerTable
      nextTimerId nextNode storedMuted storedVolume console audioLog resuming
      set_audioContext set_masterGain set_analyser set_activeOscillators
      set_activeTimers set_isMuted set_currentVolume set_isPlaying
      set_heartbeatEnabled set_arpeggiatorEnabled set_currentPadChordNotes
      set_padOscType set_padFilterFreq set_chordSpeedMs set_timerTable
      set_nextTimerId set_nextNode set_storedMuted set_storedVolume
      set_console set_audioLog set_resuming ].

(** *** Effectful filters, computed *)

Lemma set_timerTable_same w : set_timerTable (timerTable w) w = w.
Proof. destruct w; reflexivity. Qed.

Lemma set_audioLog_same w : set_audioLog (audioLog w) w = w.
Proof. destruct w; reflexivity. Qed.

Lemma filter_true {A} (l : list A) : filter (fun _ => true) l = l.
Proof. induction l; simpl; congruence. Qed.

Lemma filter_filter {A} (f g : A -> bool) (l : list A) :
  filter f (filter g l) = filter (fun x => g x && f x) l.
Proof.
  induction l as [|x l IH]; simpl; [reflexivity |].
  destruct (g x); simpl; [destruct (f x) |]; rewrite IH; reflexivity.
Qed.

Lemma filterM_arpTimers timers : forall w,
  filterM timers arpTimerCallback w
  = Normal (filter (fun t => negb (isArpTimer t)) timers)
           (set_timerTable
              (filter (fun p => negb (arpCleared timers (fst p))) (timerTable w)) w).
Proof.
  induction timers as [|t timers IH]; intros w; simpl.
  - unfold ret. rewrite filter_true, set_timerTable_same. reflexivity.
  - unfold bind, arpTimerCallback. destruct (isArpTimer t) eqn:Et; simpl.
    + unfold bind. simpl. rewrite IH. simpl. unfold ret.
      rewrite filter_filter. f_equal.
      change (set_timerTable ?a (set_timerTable ?b w)) with (set_timerTable a w).
      f_equal. apply filter_ext. intros [i c]. simpl.
      rewrite (Nat.eqb_sym i).
      destruct (timer_id t =? i); reflexivity.
    + unfold ret. rewrite IH. reflexivity.
Qed.

Lemma filterM_sweep l a b units : forall w,
  filterM units (sweepCallback l a b) w
  = Normal (filter (notOf l) units)
           (set_audioLog (audioLog w ++ sweepCmds l a b units) w).
Proof.
  induction units as [|u units IH]; intros w; simpl.
  - unfold ret. rewrite app_nil_r, set_audioLog_same. reflexivity.
  - unfold bind, sweepCallback, notOf. destruct (Layer_eqb (type u) l) eqn:E; simpl.
    + unfold bind, fadeAndStop, emit, write, bind. simpl. rewrite IH. simpl.
      unfold ret. rewrite <- !app_assoc. reflexivity.
    + unfold ret. rewrite IH. reflexivity.
Qed.

Lemma stopArpeggioSequence_run w :
  audioContext w <> None ->
  stopArpeggioSequence w = Normal tt (stoppedArpeggio w).
Proof.
  intros Hc. unfold stopArpeggioSequence, bind, log, write, read. simpl.
  rewrite filterM_arpTimers. simpl.
  unfold currentTime, bind, deref. simpl.
  destruct (audioContext w) eqn:E; [| congruence]. simpl.
  rewrite filterM_sweep. reflexivity.
Qed.

(** Without a context it faults, after the timers are gone. *)
Lemma stopArpeggioSequence_fault w :
  audioContext w = None ->
  exists w', stopArpeggioSequence w = TypeError w'.
Proof.
  intros Hc. unfold stopArpeggioSequence, bind, log, write, read. simpl.
  rewrite filterM_arpTimers. simpl.
  unfold currentTime, bind, deref. simpl. rewrite Hc. eauto.
Qed.

Lemma tracked_arp_cleared timers id cb :
  In (entry_for id cb) timers -> is_arp_note cb = true -> arpCleared timers id = true.
Proof.
  intros Hin Harp. unfold arpCleared. apply existsb_exists.
  exists (entry_for id cb). split; [exact Hin |].
  unfold entry_for. rewrite Harp. simpl. apply Nat.eqb_refl.
Qed.

Lemma Live_stoppedArpeggio w : Live w -> Live (stoppedArpeggio w).
Proof.
  intros [H Hp]. split; [| exact Hp].
  inv_fields H. constructor; simpl; try assumption.
  - intros id cb Hin. apply filter_In in Hin. destruct Hin as [Hin Hkeep].
    simpl in Hkeep. destruct (Htracked id cb Hin) as (Hid & Ht & Hwf).
    repeat split; auto. apply filter_In. split; [exact Ht |].
    unfold entry_for in *. destruct (is_arp_note cb) eqn:Ea; [| reflexivity].
    rewrite (tracked_arp_cleared (activeTimers w) id cb) in Hkeep.
    + discriminate.
    + unfold entry_for. rewrite Ea. exact Ht.
    + exact Ea.
  - simpl in Hp. congruence.
Qed.

Lemma Live_stopArpeggioSequence : triple Live stopArpeggioSequence (fun _ => Live).
Proof.
  intros w Hw. exists tt, (stoppedArpeggio w). split.
  - apply stopArpeggioSequence_run, Live_context, Hw.
  - apply Live_stoppedArpeggio, Hw.
Qed.

(** *** The layers keep the invariant *)

Lemma Live_read {A} (f : World -> A) : triple Live (read f) (fun _ => Live).
Proof. eapply triple_post; [| apply triple_read]. simpl. tauto. Qed.

Lemma Live_entry {A} (table : list A) i :
  i < List.length table -> triple Live (entry table i) (fun _ => Live).
Proof.
  intros Hi. unfold entry. eapply triple_post; [| apply triple_deref].
  - simpl. tauto.
  - intros w _. apply nth_error_Some. exact Hi.
Qed.

Lemma arpNoteAt_some arpNotes i : arpNotes <> [] -> arpNoteAt arpNotes i <> None.
Proof.
  intros Hne. unfold arpNoteAt. destruct arpNotes as [|x l]; [congruence |].
  apply nth_error_Some. apply Nat.mod_upper_bound. discriminate.
Qed.

Create HintDb live.
#[local] Hint Resolve Live_log Live_emit Live_currentTime Live_createNode
  Live_pushUnit Live_set_units Live_set_chord Live_fadeAndStop Live_clearTimeout
  Live_pushTimer Live_stopArpeggioSequence Live_read : live.

(** One step of a run through code that keeps [Live]. *)
Ltac live :=
  cbv beta zeta;
  lazymatch goal with
  | |- triple _ (bind (setTimeout _) _) _ =>
      eapply triple_bind;
      [ apply Live_setTimeout; cbn [wf_callback]; auto
      | intros ?; cbn [entry_for is_arp_note]; live ]
  | |- triple _ (bind _ _) _ => eapply triple_bind; [ live | intros ?; live ]
  | |- triple _ (ret _) _ => apply triple_ret; auto
  | |- triple _ (when _ _) _ => apply triple_when; live
  | |- triple _ (if ?b then _ else _) _ => destruct b; live
  | |- triple _ (forEach _ _) _ => apply triple_forEach; intros ? ?; live
  | |- triple _ (filterM _ _) _ => apply triple_filterM; intros ? ?; live
  | |- ?G => solve [eauto with live]
  end.

Lemma Live_playArpNote arpNotes i :
  arpNotes <> [] -> triple Live (playArpNote arpNotes i) (fun _ => Live).
Proof.
  intros Hne. unfold playArpNote.
  eapply triple_bind.
  { eapply triple_post; [| apply triple_deref].
    - intros a w H. exact (proj1 H).
    - intros w _. apply arpNoteAt_some, Hne. }
  intros freq. live.
Qed.

Lemma arpNotesOf_nonempty chord : arpNotesOf chord <> [].
Proof. unfold arpNotesOf. destruct chord; discriminate. Qed.

Lemma Live_createArpeggio : triple Live createArpeggio (fun _ => Live).
Proof.
  unfold createArpeggio. eapply triple_bind; [apply Live_read |].
  intros w0. destruct (_ || _); [apply triple_ret; auto |].
  eapply triple_bind; [apply Live_log |]. intros ?.
  apply Live_playArpNote, arpNotesOf_nonempty.
Qed.

#[local] Hint Resolve Live_createArpeggio : live.

Lemma Live_chordProgression i :
  i < List.length chords -> triple Live (chordProgression i) (fun _ => Live).
Proof.
  intros Hi. unfold chordProgression.
  eapply triple_bind; [apply Live_read |]. intros w0.
  destruct (_ || _); [apply triple_ret; auto |].
  eapply triple_bind; [apply Live_entry, Hi |]. intros chord.
  assert (Hnext : (i + 1) mod List.length chords < List.length chords)
    by (apply Nat.mod_upper_bound; discriminate).
  unfold padSweepCallback, padVoice. live.
Qed.

Lemma randomIndex_lt draw n : n <> 0 -> randomIndex draw n < n.
Proof. apply Nat.mod_upper_bound. Qed.

Lemma Live_createPad e : triple Live (createPad e) (fun _ => Live).
Proof.
  unfold createPad. eapply triple_bind; [apply Live_read |]. intros w0.
  destruct (_ || _); [apply triple_ret; auto |].
  assert (Hi : randomIndex (randomChord e) (List.length chords) < List.length chords)
    by (apply randomIndex_lt; discriminate).
  eapply triple_bind; [apply Live_log |]. intros ?.
  eapply triple_bind; [apply Live_entry, Hi |]. intros chord.
  eapply triple_bind; [apply Live_set_chord |]. intros ?.
  apply Live_chordProgression, Hi.
Qed.

Lemma Live_playBassNote i :
  i < List.length bassNotes -> triple Live (playBassNote i) (fun _ => Live).
Proof.
  intros Hi. unfold playBassNote.
  eapply triple_bind; [apply Live_read |]. intros w0.
  destruct (_ || _); [apply triple_ret; auto |].
  eapply triple_bind; [apply Live_entry, Hi |]. intros freq.
  assert (Hnext : (i + 1) mod List.length bassNotes < List.length bassNotes)
    by (apply Nat.mod_upper_bound; discriminate).
  live.
Qed.

Lemma Live_createBassline e : triple Live (createBassline e) (fun _ => Live).
Proof.
  unfold createBassline. eapply triple_bind; [apply Live_read |]. intros w0.
  destruct (_ || _); [apply triple_ret; auto |].
  assert (Hi : randomIndex (randomBass e) (List.length bassNotes) < List.length bassNotes)
    by (apply randomIndex_lt; discriminate).
  live.
Qed.

Lemma Live_melodyNote freq : triple Live (melodyNote freq) (fun _ => Live).
Proof.
  unfold melodyNote. eapply triple_bind; [apply Live_read |]. intros w0.
  destruct (_ || _); [apply triple_ret; auto |]. live.
Qed.

Lemma Live_playPhrase i :
  i < List.length phrases -> triple Live (playPhrase i) (fun _ => Live).
Proof.
  intros Hi. unfold playPhrase.
  eapply triple_bind; [apply Live_read |]. intros w0.
  destruct (_ || _); [apply triple_ret; auto |].
  eapply triple_bind; [apply Live_entry, Hi |]. intros phrase.
  assert (Hnext : (i + 1) mod List.length phrases < List.length phrases)
    by (apply Nat.mod_upper_bound; discriminate).
  live.
Qed.

Lemma Live_createMelody e : triple Live (createMelody e) (fun _ => Live).
Proof.
  unfold createMelody. eapply triple_bind; [apply Live_read |]. intros w0.
  destruct (_ || _); [apply triple_ret; auto |].
  assert (Hi : randomIndex (randomPhrase e) (List.length phrases) < List.length phrases)
    by (apply randomIndex_lt; discriminate).
  live.
Qed.

Lemma Live_createTexture : triple Live createTexture (fun _ => Live).
Proof.
  unfold createTexture. eapply triple_bind; [apply Live_read |]. intros w0.
  destruct (_ || _); [apply triple_ret; auto |].
  destruct (existsb _ _); [apply triple_ret; auto |].
  eapply triple_bind; [apply Live_log |]. intros ?.
  eapply triple_bind.
  { eapply triple_post; [| apply triple_deref; apply Live_context].
    intros c1 w1 H1. exact (proj1 H1). }
  intros ?. live.
Qed.

Lemma Live_playSingleBeat : triple Live playSingleBeat (fun _ => Live).
Proof.
  unfold playSingleBeat. eapply triple_bind; [apply Live_read |]. intros w0.
  destruct (_ || _); [apply triple_ret; auto |]. live.
Qed.

#[local] Hint Resolve Live_playSingleBeat : live.

Lemma Live_playBeatPair : triple Live playBeatPair (fun _ => Live).
Proof.
  unfold playBeatPair. eapply triple_bind; [apply Live_read |]. intros w0.
  destruct (_ || _); [apply triple_ret; auto |]. live.
Qed.

Lemma Live_createHeartbeat : triple Live createHeartbeat (fun _ => Live).
Proof.
  unfold createHeartbeat. eapply triple_bind; [apply Live_read |]. intros w0.
  destruct (_ || _); [apply triple_ret; auto |].
  eapply triple_bind; [apply Live_log |]. intros ?. apply Live_playBeatPair.
Qed.

Lemma Live_cleanup o : triple Live (cleanup o) (fun _ => Live).
Proof. unfold cleanup. apply triple_write. intros w Hw.
  destruct (Live_set_units (filter (fun item => negb (osc item =? o)) (activeOscillators w)) w Hw)
    as (a & w' & E & H).
  inversion E. subst w'. exact H.
Qed.

Lemma Live_run cb : wf_callback cb -> triple Live (run cb) (fun _ => Live).
Proof.
  destruct cb; simpl; intros Hwf.
  - apply Live_chordProgression, Hwf.
  - apply Live_playBassNote, Hwf.
  - apply Live_playPhrase, Hwf.
  - apply Live_melodyNote.
  - apply Live_cleanup.
  - apply Live_playBeatPair.
  - apply Live_playArpNote, Hwf.
Qed.

(** *** The exported functions keep the invariant *)

Lemma Inv_frame w w' : same_frame w w' -> Inv w -> Inv w'.
Proof.
  intros (E1 & E2 & E3 & E4 & E5 & E6 & E7 & E8 & E9) H. inv_fields H.
  constructor; rewrite ?E1, ?E2, ?E3, ?E4, ?E5, ?E6, ?E7, ?E8, ?E9; assumption.
Qed.

Lemma InvAt_frame b f :
  (forall w, same_frame w (f w)) -> triple (InvAt b) (write f) (fun _ => InvAt b).
Proof.
  intros Hf. apply triple_write. intros w [H Hb]. split.
  - apply (Inv_frame _ _ (Hf w) H).
  - destruct (Hf w) as (_ & _ & _ & E & _). congruence.
Qed.

Ltac frame := intros ?; repeat split; reflexivity.

Lemma InvAt_log b m : triple (InvAt b) (log m) (fun _ => InvAt b).
Proof. apply InvAt_frame. frame. Qed.

Lemma InvAt_emit b c : triple (InvAt b) (emit c) (fun _ => InvAt b).
Proof. apply InvAt_frame. frame. Qed.

Lemma InvAt_read {A} b (f : World -> A) : triple (InvAt b) (read f) (fun _ => InvAt b).
Proof. eapply triple_post; [| apply triple_read]. simpl. tauto. Qed.

Lemma InvAt_read_isPlaying b :
  triple (InvAt b) (read isPlaying) (fun r w => InvAt b w /\ r = b).
Proof.
  eapply triple_post; [| apply triple_read]. simpl.
  intros r w [[H Hb] ->]. split; [split |]; assumption.
Qed.

Lemma initAudio_existing e w :
  audioContext w <> None ->
  initAudio e w
  = Normal true (if contextSuspended e
                 then set_audioLog (audioLog w ++ [ContextResume]) w
                 else w).
Proof.
  intros Hc. unfold initAudio. destruct w; simpl in Hc. exec.
  destruct audioContext0; [| congruence].
  destruct (contextSuspended e); reflexivity.
Qed.

Lemma initAudio_create e w :
  audioContext w = None -> audioSupported e = true ->
  initAudio e w = Normal true (initialized e w).
Proof.
  intros Hc Hs. unfold initAudio, initialized. destruct w; simpl in Hc. subst.
  rewrite Hs. exec. destruct (contextSuspended e); exec; rewrite <- ?app_assoc; reflexivity.
Qed.

Lemma initAudio_unsupported e w :
  audioContext w = None -> audioSupported e = false ->
  initAudio e w
  = Normal false (set_analyser None (set_masterGain None
       (set_console (console w ++ [ErrNotSupported]) w))).
Proof.
  intros Hc Hs. unfold initAudio. destruct w; simpl in Hc. subst.
  rewrite Hs. exec. reflexivity.
Qed.

(** [initAudio] succeeds with the three nodes in place, or fails with
    none. *)
Lemma InvAt_initAudio b e :
  triple (InvAt b) (initAudio e)
         (fun nodes w => InvAt b w /\ (nodes = true -> audioContext w <> None)).
Proof.
  intros w [H Hb].
  destruct (audioContext w) as [c|] eqn:Ec.
  - rewrite initAudio_existing by congruence.
    eexists _, _. split; [reflexivity |].
    destruct (contextSuspended e).
    + split; [split |].
      * apply (Inv_frame w); [repeat split | exact H].
      * exact Hb.
      * simpl. congruence.
    + split; [split; assumption | congruence].
  - assert (Hnp : isPlaying w = false).
    { destruct (isPlaying w) eqn:Ep; [| reflexivity].
      destruct (inv_playing H Ep Ec). }
    assert (Hnr : resuming w = 0).
    { destruct (resuming w) eqn:Er; [reflexivity |].
      destruct (inv_resuming H); [rewrite Er; discriminate | exact Ec]. }
    inv_fields H.
    destruct (audioSupported e) eqn:Es.
    + rewrite initAudio_create by assumption.
      eexists _, _. split; [reflexivity |].
      split; [split; [| exact Hb] | simpl; discriminate].
      constructor; simpl; try assumption; try discriminate.
      intros _. split; discriminate.
    + rewrite initAudio_unsupported by assumption.
      eexists _, _. split; [reflexivity |].
      split; [split; [| exact Hb] | discriminate].
      constructor; simpl; try assumption. congruence.
Qed.

Lemma Ready_masterGain b w : Ready b w -> masterGain w <> None.
Proof. intros [[H _] Hc]. apply (inv_nodes H Hc). Qed.

Lemma Ready_frame b f :
  (forall w, same_frame w (f w)) -> triple (Ready b) (write f) (fun _ => Ready b).
Proof.
  intros Hf. apply triple_write. intros w [[H Hb] Hc].
  destruct (Hf w) as (E1 & _ & _ & E4 & _). split; [split |].
  - apply (Inv_frame _ _ (Hf w) H).
  - congruence.
  - congruence.
Qed.

Lemma Ready_log b m : triple (Ready b) (log m) (fun _ => Ready b).
Proof. apply Ready_frame. frame. Qed.

Lemma Ready_emit b c : triple (Ready b) (emit c) (fun _ => Ready b).
Proof. apply Ready_frame. frame. Qed.

Lemma Ready_read {A} b (f : World -> A) : triple (Ready b) (read f) (fun _ => Ready b).
Proof. eapply triple_post; [| apply triple_read]. simpl. tauto. Qed.

Lemma Ready_currentTime b : triple (Ready b) currentTime (fun _ => Ready b).
Proof.
  unfold currentTime. eapply triple_bind.
  - apply triple_deref. intros w H. exact (proj2 H).
  - intros c. apply triple_ret. tauto.
Qed.

Lemma Ready_deref_masterGain b :
  triple (Ready b) (deref masterGain) (fun _ => Ready b).
Proof.
  eapply triple_post; [| apply triple_deref; apply Ready_masterGain].
  simpl. tauto.
Qed.

Create HintDb ready.
#[local] Hint Resolve Ready_log Ready_emit Ready_read Ready_currentTime
  Ready_deref_masterGain : ready.

Ltac ready :=
  cbv beta zeta;
  lazymatch goal with
  | |- triple _ (bind _ _) _ => eapply triple_bind; [ ready | intros ?; ready ]
  | |- triple _ (ret _) _ => apply triple_ret; auto
  | |- triple _ (when _ _) _ => apply triple_when; ready
  | |- triple _ (if ?b then _ else _) _ => destruct b; ready
  | |- triple _ (write _) _ => apply Ready_frame; frame
  | |- ?G => solve [eauto with ready]
  end.

(** The shape shared by [toggleMute] and [setVolume]. *)
Lemma InvAt_guarded b e (body : Js unit) :
  triple (Ready b) body (fun _ => Ready b) ->
  triple (InvAt b)
    (nodes <- initAudio e ;;
     mg <- read masterGain ;;
     if negb nodes || isNull mg then ret tt else body)
    (fun _ => InvAt b).
Proof.
  intros Hbody. eapply triple_bind; [apply InvAt_initAudio |].
  intros nodes. eapply triple_bind; [apply triple_read |].
  intros mg. destruct nodes; simpl.
  - destruct (isNull mg).
    + apply triple_ret. tauto.
    + eapply triple_post; [| eapply triple_pre; [| exact Hbody]].
      * intros a w H. exact (proj1 H).
      * intros w [[H Hc] _]. split; [exact H | auto].
  - apply triple_ret. tauto.
Qed.

Lemma InvAt_toggleMute b e : triple (InvAt b) (toggleMute e) (fun _ => InvAt b).
Proof. unfold toggleMute. apply InvAt_guarded. ready. Qed.

Lemma InvAt_setVolume b e v : triple (InvAt b) (setVolume e v) (fun _ => InvAt b).
Proof. unfold setVolume. apply InvAt_guarded. ready. Qed.

Lemma InvAt_setPadOscillatorType b ty :
  triple (InvAt b) (setPadOscillatorType ty) (fun _ => InvAt b).
Proof.
  unfold setPadOscillatorType.
  destruct ty; try apply InvAt_log.
  destruct (includes _ _); [| apply InvAt_log].
  eapply triple_bind; [apply InvAt_frame; frame | intros ?; apply InvAt_log].
Qed.

Lemma InvAt_setPadFilterFrequency b f :
  triple (InvAt b) (setPadFilterFrequency f) (fun _ => InvAt b).
Proof.
  unfold setPadFilterFrequency.
  eapply triple_bind; [apply InvAt_frame; frame | intros ?].
  eapply triple_bind; [apply InvAt_read | intros ?; apply InvAt_log].
Qed.

Lemma InvAt_setChordSpeed b ms :
  triple (InvAt b) (setChordSpeed ms) (fun _ => InvAt b).
Proof.
  unfold setChordSpeed.
  eapply triple_bind; [apply InvAt_frame; frame | intros ?].
  eapply triple_bind; [apply InvAt_read | intros ?; apply InvAt_log].
Qed.

Lemma Live_filter_all_timers :
  triple Live (timers <- read activeTimers ;;
               kept <- filterM timers (fun _ => ret true) ;;
               write (set_activeTimers kept)) (fun _ => Live).
Proof.
  intros w Hw. unfold bind, read.
  assert (E : forall l w0, filterM l (fun _ : Timer => ret true) w0 = Normal l w0).
  { induction l as [|x l IH]; intros w0; simpl; [reflexivity |].
    unfold bind, ret. rewrite IH. reflexivity. }
  rewrite E. eexists _, _. split; [reflexivity |].
  replace (set_activeTimers (activeTimers w) w) with w by (destruct w; reflexivity).
  exact Hw.
Qed.

Lemma InvAt_toggleHeartbeat b : triple (InvAt b) toggleHeartbeat (fun _ => InvAt b).
Proof.
  unfold toggleHeartbeat.
  eapply triple_bind; [apply InvAt_frame; frame | intros ?].
  eapply triple_bind; [apply InvAt_read | intros enabled].
  eapply triple_bind; [apply InvAt_log | intros ?].
  eapply triple_bind; [apply InvAt_read_isPlaying | intros playing].
  destruct b.
  - apply triple_pre with (P' := Live); [intros w H; exact (proj1 H) |].
    apply triple_when. destruct enabled; [apply Live_createHeartbeat |].
    eapply triple_bind; [apply Live_currentTime | intros ?].
    eapply triple_bind; [apply Live_read | intros units].
    eapply triple_bind.
    { apply triple_filterM. intros u _. unfold sweepCallback. live. }
    intros kept. eapply triple_bind; [apply Live_set_units | intros ?].
    apply Live_filter_all_timers.
  - intros w [H ->]. exists tt, w. split; [reflexivity | exact H].
Qed.

Lemma InvAt_toggleArpeggiator b : triple (InvAt b) toggleArpeggiator (fun _ => InvAt b).
Proof.
  unfold toggleArpeggiator.
  eapply triple_bind; [apply InvAt_frame; frame | intros ?].
  eapply triple_bind; [apply InvAt_read | intros enabled].
  eapply triple_bind; [apply InvAt_log | intros ?].
  eapply triple_bind; [apply InvAt_read_isPlaying | intros playing].
  destruct b.
  - apply triple_pre with (P' := Live); [intros w H; exact (proj1 H) |].
    apply triple_when.
    destruct enabled; [apply Live_createArpeggio | apply Live_stopArpeggioSequence].
  - intros w [H ->]. exists tt, w. split; [reflexivity | exact H].
Qed.

(** *** Stopping, computed *)

Lemma forEach_clearTracked timers : forall w,
  forEach timers clearTracked w
  = Normal tt (set_timerTable
                 (filter (fun p => negb (stopCleared timers (fst p))) (timerTable w)) w).
Proof.
  induction timers as [|t timers IH]; intros w; simpl.
  - unfold ret. rewrite filter_true, set_timerTable_same. reflexivity.
  - unfold bind.
    assert (E : clearTracked t w
                = Normal tt (set_timerTable
                    (filter (fun p => negb (stopCleared [t] (fst p))) (timerTable w)) w)).
    { destruct t as [i | i ty]; simpl.
      - unfold clearTimeout, write. do 2 f_equal. apply filter_ext.
        intros [j c]. simpl. rewrite orb_false_r, (Nat.eqb_sym j). reflexivity.
      - destruct (i =? 0) eqn:E0; simpl.
        + unfold ret. rewrite filter_true, set_timerTable_same. reflexivity.
        + unfold clearTimeout, write. do 2 f_equal. apply filter_ext.
          intros [j c]. simpl. rewrite orb_false_r, (Nat.eqb_sym j). reflexivity. }
    rewrite E, IH. simpl.
    change (set_timerTable ?a (set_timerTable ?b w)) with (set_timerTable a w).
    rewrite filter_filter. do 2 f_equal. apply filter_ext.
    intros [j c]. simpl. rewrite orb_false_r, negb_orb. reflexivity.
Qed.

Lemma forEach_fade a b units : forall w,
  forEach units (fun u => fadeAndStop u a b) w
  = Normal tt (set_audioLog (audioLog w ++ fadeCmds a b units) w).
Proof.
  induction units as [|u units IH]; intros w; simpl.
  - unfold ret. rewrite app_nil_r, set_audioLog_same. reflexivity.
  - unfold bind, fadeAndStop, emit, write, bind. rewrite IH. simpl.
    rewrite <- !app_assoc. reflexivity.
Qed.

Lemma stopAmbient_run w :
  audioContext w <> None -> isPlaying w = true ->
  stopAmbient w = Normal tt (stopped w).
Proof.
  intros Hc Hp. unfold stopAmbient, stopped. destruct w. simpl in Hc, Hp. subst.
  destruct audioContext0 as [c|]; [| congruence].
  exec. rewrite forEach_clearTracked. exec. rewrite forEach_fade. exec.
  rewrite <- app_assoc. reflexivity.
Qed.

Lemma stopAmbient_idle w :
  audioContext w = None \/ isPlaying w = false ->
  stopAmbient w = Normal tt w.
Proof.
  intros H. unfold stopAmbient, bind, read.
  destruct H as [-> | ->]; simpl; [reflexivity |].
  rewrite orb_true_r. reflexivity.
Qed.

Lemma filter_none {A} (f : A -> bool) (l : list A) :
  (forall x, In x l -> f x = false) -> filter f l = [].
Proof.
  induction l as [|x l IH]; intros H; simpl; [reflexivity |].
  rewrite (H x (or_introl eq_refl)). apply IH. intros y Hy. apply H. right. exact Hy.
Qed.

Lemma stopCleared_tracked timers id cb :
  id <> 0 -> In (entry_for id cb) timers -> stopCleared timers id = true.
Proof.
  intros Hid Hin. unfold stopCleared. apply existsb_exists.
  exists (entry_for id cb). split; [exact Hin |].
  apply Nat.eqb_neq in Hid.
  unfold entry_for. destruct (is_arp_note cb); simpl; rewrite ?Hid; simpl;
    apply Nat.eqb_refl.
Qed.

(** Every pending callback is tracked, so the sweep reaches it. *)
Lemma stop_clears_table w :
  Inv w ->
  filter (fun p => negb (stopCleared (activeTimers w) (fst p))) (timerTable w) = [].
Proof.
  intros H. apply filter_none. intros [id cb] Hin. simpl.
  destruct (inv_tracked H _ _ Hin) as (Hid & Ht & _).
  rewrite (stopCleared_tracked _ _ _ Hid Ht). reflexivity.
Qed.

Lemma Inv_stopped w : Inv w -> Inv (stopped w).
Proof.
  intros H. pose proof (stop_clears_table w H) as Hnil. inv_fields H.
  constructor; simpl; try assumption.
  - discriminate.
  - rewrite Hnil. intros id cb [].
  - intros _. rewrite Hnil. auto.
Qed.

Lemma Inv_stopAmbient : triple Inv stopAmbient (fun _ => Inv).
Proof.
  intros w H.
  destruct (audioContext w) as [c|] eqn:Ec; [destruct (isPlaying w) eqn:Ep |].
  - rewrite stopAmbient_run by congruence.
    eexists _, _. split; [reflexivity | apply Inv_stopped, H].
  - rewrite stopAmbient_idle by auto. eauto.
  - rewrite stopAmbient_idle by auto. eauto.
Qed.

(** *** Starting *)

Lemma Live_setVolume e v : triple Live (setVolume e v) (fun _ => Live).
Proof. exact (InvAt_setVolume true e v). Qed.

#[local] Hint Resolve Live_setVolume Live_createPad Live_createBassline
  Live_createTexture Live_createMelody Live_createHeartbeat : live.

Lemma Live_startLayers b e : triple (Ready b) (startLayers e) (fun _ => Live).
Proof.
  unfold startLayers. eapply triple_bind.
  { apply triple_write with (Q := fun _ => Live).
    intros w [[H _] Hc]. split; [| reflexivity].
    inv_fields H. constructor; simpl; try assumption.
    - intros _. exact Hc.
    - discriminate. }
  intros ?. live.
Qed.

Lemma InvAt_startAmbient b e : triple (InvAt b) (startAmbient e) (fun _ => Inv).
Proof.
  unfold startAmbient. eapply triple_bind; [apply InvAt_initAudio |].
  intros nodes. eapply triple_bind; [apply triple_read |]. intros w0.
  destruct (negb nodes || isNull (audioContext w0) || isPlaying w0) eqn:Eg.
  { apply triple_ret. intros w [[[H _] _] _]. exact H. }
  apply orb_false_iff in Eg. destruct Eg as [Eg _].
  apply orb_false_iff in Eg. destruct Eg as [_ Ec].
  apply triple_pre with (P' := Ready b).
  { intros w [[H _] ->]. split; [exact H |].
    destruct (audioContext w); [discriminate | discriminate Ec]. }
  eapply triple_bind; [apply Ready_log |]. intros ?.
  eapply triple_bind.
  { eapply triple_post; [| apply triple_deref; intros w Hw; exact (proj2 Hw)].
    intros c w Hw. exact (proj1 Hw). }
  intros ?. destruct (contextSuspended e).
  - apply triple_write. intros w [[H _] Hc]. inv_fields H.
    constructor; simpl; try assumption. intros _. exact Hc.
  - eapply triple_post; [| apply Live_startLayers]. intros ? w Hw. exact (proj1 Hw).
Qed.

Lemma Inv_startAmbient e : triple Inv (startAmbient e) (fun _ => Inv).
Proof.
  intros w H. apply (InvAt_startAmbient (isPlaying w) e w). split; [exact H | reflexivity].
Qed.

Lemma Inv_resumeSettled e resolved :
  triple Inv (resumeSettled e resolved) (fun _ => Inv).
Proof.
  unfold resumeSettled. eapply triple_bind; [apply triple_read |].
  intros n. destruct n as [|n'].
  { apply triple_ret. tauto. }
  eapply triple_bind.
  { apply triple_write with (Q := fun _ w => Ready (isPlaying w) w).
    intros w [H Hn]. assert (Hc : audioContext w <> None).
    { apply (inv_resuming H). rewrite <- Hn. discriminate. }
    split; [split; [| reflexivity] | exact Hc].
    inv_fields H. constructor; simpl; try assumption. intros _. exact Hc. }
  intros ?. intros w Hw. destruct resolved.
  - destruct (Live_startLayers (isPlaying w) e w Hw) as (a' & w' & E & Hl).
    exists a', w'. split; [exact E | exact (proj1 Hl)].
  - destruct (Ready_log (isPlaying w) ErrResuming w Hw) as (a' & w' & E & Hl).
    exists a', w'. split; [exact E | exact (proj1 (proj1 Hl))].
Qed.

(** *** Timers *)

Lemma pending_Live w id cb : Inv w -> In (id, cb) (timerTable w) -> Live w.
Proof.
  intros H Hin. split; [exact H |].
  destruct (isPlaying w) eqn:Ep; [reflexivity |].
  destruct (inv_stopped H Ep) as (_ & _ & Ht). rewrite Ht in Hin. destruct Hin.
Qed.

Lemma Inv_fire id : triple Inv (fire id) (fun _ => Inv).
Proof.
  intros w H. unfold fire, bind at 1, read.
  destruct (find (fun p => fst p =? id) (timerTable w)) as [[i cb]|] eqn:Ef.
  - apply find_some in Ef. destruct Ef as [Hin _].
    pose proof (pending_Live _ _ _ H Hin) as Hl.
    destruct (inv_tracked H _ _ Hin) as (_ & _ & Hwf).
    assert (T : triple Live (clearTimeout id ;; run cb) (fun _ => Live)).
    { eapply triple_bind; [apply Live_clearTimeout |]. intros ?. apply Live_run, Hwf. }
    destruct (T w Hl) as (a & w' & E & Hl').
    exists a, w'. split; [exact E | exact (proj1 Hl')].
  - exists tt, w. split; [reflexivity | exact H].
Qed.

(** *** Settings and the rest *)

Lemma InvAt_ifNumber b v f :
  (forall n, triple (InvAt b) (f n) (fun _ => InvAt b)) ->
  triple (InvAt b) (ifNumber v f) (fun _ => InvAt b).
Proof. intros H. destruct v; simpl; try (apply triple_ret; auto). apply H. Qed.

Lemma InvAt_ifString b v f :
  (forall s, triple (InvAt b) (f s) (fun _ => InvAt b)) ->
  triple (InvAt b) (ifString v f) (fun _ => InvAt b).
Proof. intros H. destruct v; simpl; try (apply triple_ret; auto). apply H. Qed.

Lemma InvAt_ifBooleanDiffers b v current toggle :
  triple (InvAt b) toggle (fun _ => InvAt b) ->
  triple (InvAt b) (ifBooleanDiffers v current toggle) (fun _ => InvAt b).
Proof.
  intros H. destruct v; simpl; try (apply triple_ret; auto).
  eapply triple_bind; [apply InvAt_read |]. intros c.
  destruct (negb _); [exact H | apply triple_ret; auto].
Qed.

Lemma InvAt_applySettings b e settings :
  triple (InvAt b) (applySettings e settings) (fun _ => InvAt b).
Proof.
  unfold applySettings. destruct (negb (truthy settings)); [apply triple_ret; auto |].
  eapply triple_bind; [apply InvAt_log |]. intros ?.
  eapply triple_bind; [apply InvAt_ifNumber; intros; apply InvAt_setVolume |]. intros ?.
  eapply triple_bind; [apply InvAt_ifBooleanDiffers, InvAt_toggleMute |]. intros ?.
  eapply triple_bind; [apply InvAt_ifString; intros; apply InvAt_setPadOscillatorType |].
  intros ?.
  eapply triple_bind; [apply InvAt_ifNumber; intros; apply InvAt_setPadFilterFrequency |].
  intros ?.
  eapply triple_bind; [apply InvAt_ifNumber; intros; apply InvAt_setChordSpeed |].
  intros ?.
  eapply triple_bind; [apply InvAt_ifBooleanDiffers, InvAt_toggleHeartbeat |]. intros ?.
  apply InvAt_ifBooleanDiffers, InvAt_toggleArpeggiator.
Qed.

Lemma InvAt_suspendAudio b e : triple (InvAt b) (suspendAudio e) (fun _ => InvAt b).
Proof.
  unfold suspendAudio. eapply triple_bind; [apply InvAt_read |]. intros ?.
  apply triple_when, InvAt_emit.
Qed.

Lemma InvAt_resumeAudio b e : triple (InvAt b) (resumeAudio e) (fun _ => InvAt b).
Proof.
  unfold resumeAudio. eapply triple_bind; [apply InvAt_read |]. intros ?.
  apply triple_when, InvAt_emit.
Qed.

Lemma Inv_of_InvAt {A} (m : Js A) :
  (forall b, triple (InvAt b) m (fun _ => InvAt b)) -> triple Inv m (fun _ => Inv).
Proof.
  intros H w Hw.
  destruct (H (isPlaying w) w (conj Hw eq_refl)) as (a & w' & E & Hi).
  exists a, w'. split; [exact E | exact (proj1 Hi)].
Qed.

(** Every transition completes and keeps the invariant. *)
Lemma Inv_perform e a : triple Inv (perform e a) (fun _ => Inv).
Proof.
  destruct a; simpl.
  - apply Inv_of_InvAt. intros b. eapply triple_bind; [apply InvAt_initAudio |].
    intros ?. apply triple_ret. tauto.
  - apply Inv_startAmbient.
  - apply Inv_stopAmbient.
  - apply Inv_of_InvAt. intros b. apply InvAt_toggleMute.
  - apply Inv_of_InvAt. intros b. apply InvAt_setVolume.
  - apply Inv_of_InvAt. intros b. apply InvAt_applySettings.
  - apply Inv_of_InvAt. intros b. apply InvAt_suspendAudio.
  - apply Inv_of_InvAt. intros b. apply InvAt_resumeAudio.
  - apply Inv_of_InvAt. intros b. apply InvAt_setPadOscillatorType.
  - apply Inv_of_InvAt. intros b. apply InvAt_setPadFilterFrequency.
  - apply Inv_of_InvAt. intros b. apply InvAt_setChordSpeed.
  - apply Inv_of_InvAt. intros b. apply InvAt_toggleHeartbeat.
  - apply Inv_of_InvAt. intros b. apply InvAt_toggleArpeggiator.
  - apply Inv_fire.
  - apply Inv_resumeSettled.
Qed.

Lemma reachableIn_Inv envOk volumeOk w : reachableIn envOk volumeOk w -> Inv w.
Proof.
  induction 1 as [muted volume _ | w e a _ IH _].
  - apply Inv_loaded.
  - destruct (Inv_perform e a w IH) as (r & w' & E & H). rewrite E. exact H.
Qed.

Lemma reachable_no_fault w e a :
  reachable w -> exists w', perform e a w = Normal tt w'.
Proof.
  intros H. destruct (Inv_perform e a w (reachableIn_Inv _ _ _ H)) as ([] & w' & E & _).
  eauto.
Qed.

(** * Properties of the specification *)

(** ** Stopping *)

Lemma reachable_freshPage : reachable freshPage.
Proof. apply reach_loaded. intros v Hv. exact I. Qed.

Lemma reachable_playingWorld : reachable playingWorld.
Proof. apply reach_step; [apply reachable_freshPage | exact I]. Qed.

Lemma set_activeOscillators_same w : set_activeOscillators (activeOscillators w) w = w.
Proof. destruct w; reflexivity. Qed.

(** The self-cleanup of a unit finds nothing to remove once the registry
    is empty. *)
Lemma cleanup_empty o w : activeOscillators w = [] -> cleanup o w = Normal tt w.
Proof.
  intros He. unfold cleanup, write. rewrite He. simpl. rewrite <- He.
  rewrite set_activeOscillators_same. reflexivity.
Qed.

Lemma fire_none id w : timerTable w = [] -> fire id w = Normal tt w.
Proof. intros He. unfold fire, bind, read. rewrite He. reflexivity. Qed.

(** C1. When [stopAmbient] is called during playback, [isPlaying] becomes
    false, [activeTimers] and [activeOscillators] are emptied, and every
    callback that was pending has been cancelled: the browser's table of
    pending timers is empty, so nothing of any layer fires afterwards.  A
    unit's self-cleanup, were it to run on the state reached, would leave
    it as it is. *)
Theorem stopAmbient_cancels_everything (w : World) :
  reachable w -> isPlaying w = true ->
  exists w',
    stopAmbient w = Normal tt w' /\
    isPlaying w' = false /\
    activeTimers w' = [] /\
    activeOscillators w' = [] /\
    timerTable w' = [] /\
    (forall id, fire id w' = Normal tt w') /\
    (forall o, cleanup o w' = Normal tt w').
Proof.
  intros Hr Hp. pose proof (reachableIn_Inv _ _ _ Hr) as H.
  exists (stopped w).
  assert (Ht : timerTable (stopped w) = []) by (simpl; apply stop_clears_table, H).
  split; [apply stopAmbient_run; [apply (inv_playing H Hp) | exact Hp] |].
  split; [reflexivity |]. split; [reflexivity |]. split; [reflexivity |].
  split; [exact Ht |]. split.
  - intros id. apply fire_none, Ht.
  - intros o. apply cleanup_empty. reflexivity.
Qed.

Lemma stopAmbient_cancels_everything_witness :
  reachable playingWorld /\ isPlaying playingWorld = true /\
  exists w',
    stopAmbient playingWorld = Normal tt w' /\
    isPlaying w' = false /\
    activeTimers w' = [] /\
    activeOscillators w' = [] /\
    timerTable w' = [] /\
    (forall id, fire id w' = Normal tt w') /\
    (forall o, cleanup o w' = Normal tt w').
Proof.
  split; [apply reachable_playingWorld |].
  split; [vm_compute; reflexivity |].
  apply (stopAmbient_cancels_everything playingWorld).
  - apply reachable_playingWorld.
  - vm_compute; reflexivity.
Defined.

(** C5. [stopAmbient] is idempotent.  In every state a second call
    changes nothing, so two calls end where one does; and from every
    state the engine can reach, that end state has [isPlaying] false and
    both registries empty. *)
Theorem stopAmbient_idempotent (w : World) :
  let once := world_of (stopAmbient w) in
  stopAmbient once = Normal tt once /\
  world_of (stopAmbient once) = once /\
  (reachable w ->
   stopAmbient w = Normal tt once /\
   isPlaying once = false /\ activeTimers once = [] /\ activeOscillators once = []).
Proof.
  intros once.
  assert (Hidle : stopAmbient once = Normal tt once).
  { unfold once.
    destruct (audioContext w) as [c|] eqn:Ec; [destruct (isPlaying w) eqn:Ep |].
    - rewrite (stopAmbient_run w) by congruence. simpl.
      apply stopAmbient_idle. right. reflexivity.
    - rewrite (stopAmbient_idle w) by auto. simpl. apply stopAmbient_idle. auto.
    - rewrite (stopAmbient_idle w) by auto. simpl. apply stopAmbient_idle. auto. }
  split; [exact Hidle |]. split; [rewrite Hidle; reflexivity |].
  intros Hr. pose proof (reachableIn_Inv _ _ _ Hr) as H. unfold once.
  destruct (isPlaying w) eqn:Ep.
  - rewrite (stopAmbient_run w) by (try apply (inv_playing H Ep); exact Ep).
    simpl. repeat split; reflexivity.
  - rewrite (stopAmbient_idle w) by auto. simpl.
    destruct (inv_stopped H Ep) as (Ht & Ho & _). auto.
Qed.

Lemma stopAmbient_idempotent_witness :
  reachable playingWorld /\
  let once := world_of (stopAmbient playingWorld) in
  stopAmbient once = Normal tt once /\
  world_of (stopAmbient once) = once /\
  (reachable playingWorld ->
   stopAmbient playingWorld = Normal tt once /\
   isPlaying once = false /\ activeTimers once = [] /\ activeOscillators once = []).
Proof.
  split; [apply reachable_playingWorld |].
  apply (stopAmbient_idempotent playingWorld).
Defined.

(** ** The audio nodes during playback *)

Lemma Inv_nodesPresent w : Inv w -> nodesPresentWhilePlaying w.
Proof.
  intros H Hp. pose proof (inv_playing H Hp) as Hc.
  destruct (inv_nodes H Hc). auto.
Qed.

(** The dereference in [toggleArpeggiator]'s stop branch is unguarded: in
    a state (not a reachable one) that plays without a context, it
    faults. *)
Lemma toggleArpeggiator_needs_context w :
  isPlaying w = true -> arpeggiatorEnabled w = true -> audioContext w = None ->
  exists w', toggleArpeggiator w = TypeError w'.
Proof.
  intros Hp Ha Hc. unfold toggleArpeggiator, bind, write, read, log. simpl.
  rewrite Hp, Ha. simpl.
  apply stopArpeggioSequence_fault. exact Hc.
Qed.

(** C9. In every state the engine reaches, if [isPlaying] holds then
    [audioContext], [masterGain] and [analyser] are all non-null; every
    exported function, fired timer and settled resume completes from such
    a state without a [TypeError] and leads to a state with the same
    property; in particular [toggleHeartbeat] and [toggleArpeggiator],
    whose reads of [audioContext.currentTime] are unguarded, complete. *)
Theorem nodes_present_while_playing (w : World) :
  reachable w ->
  nodesPresentWhilePlaying w /\
  (forall e a, exists w', perform e a w = Normal tt w' /\ nodesPresentWhilePlaying w') /\
  (exists w', toggleHeartbeat w = Normal tt w') /\
  (exists w', toggleArpeggiator w = Normal tt w').
Proof.
  intros Hr. pose proof (reachableIn_Inv _ _ _ Hr) as H.
  assert (Hall : forall e a,
             exists w', perform e a w = Normal tt w' /\ nodesPresentWhilePlaying w').
  { intros e a. destruct (Inv_perform e a w H) as ([] & w' & E & H').
    exists w'. split; [exact E | apply Inv_nodesPresent, H']. }
  split; [apply Inv_nodesPresent, H |]. split; [exact Hall |]. split.
  - destruct (Hall quietEnv CallToggleHeartbeat) as (w' & E & _). exists w'. exact E.
  - destruct (Hall quietEnv CallToggleArpeggiator) as (w' & E & _). exists w'. exact E.
Qed.

Lemma nodes_present_while_playing_witness :
  reachable playingWorld /\
  nodesPresentWhilePlaying playingWorld /\
  (forall e a, exists w',
      perform e a playingWorld = Normal tt w' /\ nodesPresentWhilePlaying w') /\
  (exists w', toggleHeartbeat playingWorld = Normal tt w') /\
  (exists w', toggleArpeggiator playingWorld = Normal tt w').
Proof.
  split; [apply reachable_playingWorld |].
  apply (nodes_present_while_playing playingWorld), reachable_playingWorld.
Defined.

(** ** Stopping the arpeggio sequence *)

Lemma toggleArpeggiator_off_run w :
  isPlaying w = true -> arpeggiatorEnabled w = true -> audioContext w <> None ->
  toggleArpeggiator w
  = Normal tt (stoppedArpeggio
                 (set_console (console w ++ [LogArpeggiator false])
                    (set_arpeggiatorEnabled false w))).
Proof.
  intros Hp Ha Hc. unfold toggleArpeggiator, bind, write, read, log. simpl.
  rewrite Hp, Ha. simpl. apply stopArpeggioSequence_run. exact Hc.
Qed.

(** C3. [toggleArpeggiator], called during playback with the arpeggiator
    enabled, disables it; removes from [activeOscillators] exactly the
    units tagged [arpeggio], each faded over 0.1 s and stopped at 0.2 s;
    removes from [activeTimers] exactly the entries tagged
    [arpeggio_note], cancelling their timers, so that no next-note
    callback stays pending; and leaves every other unit and every other
    entry of [activeTimers] in place and in order. *)
Theorem toggle_off_stops_arpeggio (w : World) :
  reachable w -> isPlaying w = true -> arpeggiatorEnabled w = true ->
  exists w',
    toggleArpeggiator w = Normal tt w' /\
    arpeggiatorEnabled w' = false /\
    activeOscillators w' = filter (notOf arpeggio) (activeOscillators w) /\
    audioLog w' = audioLog w ++ sweepCmds arpeggio 100 200 (activeOscillators w) /\
    activeTimers w' = filter (fun t => negb (isArpTimer t)) (activeTimers w) /\
    (forall u, In u (activeOscillators w') -> type u <> arpeggio) /\
    (forall t, In t (activeTimers w') -> isArpTimer t = false) /\
    (forall id cb, In (id, cb) (timerTable w') -> is_arp_note cb = false).
Proof.
  intros Hr Hp Ha. pose proof (reachableIn_Inv _ _ _ Hr) as H.
  eexists. split; [apply toggleArpeggiator_off_run; auto; apply (inv_playing H Hp) |].
  simpl. repeat split.
  - intros u Hu. apply filter_In in Hu. destruct Hu as [_ Hu].
    unfold notOf in Hu. intros E. rewrite E in Hu. discriminate.
  - intros t Ht. apply filter_In in Ht. destruct Ht as [_ Ht].
    apply negb_true_iff. exact Ht.
  - intros id cb Hin. apply filter_In in Hin. destruct Hin as [Hin Hkeep].
    simpl in Hkeep. destruct (inv_tracked H _ _ Hin) as (_ & Ht & _).
    destruct (is_arp_note cb) eqn:Ea; [| reflexivity].
    rewrite (tracked_arp_cleared _ _ _ Ht Ea) in Hkeep. discriminate.
Qed.

(** ** Clamping *)

Lemma lt_le a b : lt a b = true -> le a b = true.
Proof.
  unfold lt, le, SFltb, SFleb. destruct (SFcompare a b) as [[]|]; congruence.
Qed.

Lemma clamp_cases lo hi x :
  goodBounds lo hi = true ->
  clamp lo hi x
  = if isNaN x then NaN
    else if lt x hi then (if lt lo x then x else lo) else hi.
Proof.
  unfold goodBounds. intros H.
  repeat (apply andb_true_iff in H; destruct H as [H ?]).
  repeat match goal with
         | E : negb _ = true |- _ => apply negb_true_iff in E
         end.
  unfold clamp, Math_max, Math_min. simpl.
  replace (isNaN hi) with false by congruence.
  replace (isNaN lo) with false by congruence. simpl.
  rewrite orb_false_r.
  destruct (isNaN x) eqn:Ex; simpl; [reflexivity |].
  rewrite andb_false_r.
  replace (lt hi Infinity) with true by congruence.
  replace (isPosZero hi) with false by congruence.
  rewrite andb_false_r.
  replace (isNaN (if lt x hi then x else hi)) with false
    by (destruct (lt x hi); congruence).
  simpl. rewrite andb_false_r.
  replace (lt NegInfinity lo) with true by congruence.
  replace (isNegZero lo) with false by congruence.
  rewrite andb_false_r.
  destruct (lt x hi) eqn:Exh; [reflexivity |].
  replace (lt lo hi) with true by congruence. reflexivity.
Qed.

Lemma clamp_inRange lo hi x :
  goodBounds lo hi = true -> isNaN x = false -> inRange lo hi (clamp lo hi x).
Proof.
  intros H Hx. rewrite (clamp_cases _ _ _ H), Hx.
  unfold goodBounds in H.
  repeat (apply andb_true_iff in H; destruct H as [H ?]).
  unfold inRange.
  destruct (lt x hi) eqn:Exh; [destruct (lt lo x) eqn:Elx |]; split;
    auto using lt_le.
Qed.

Lemma clamp_NaN lo hi : goodBounds lo hi = true -> clamp lo hi NaN = NaN.
Proof. intros H. rewrite (clamp_cases _ _ _ H). reflexivity. Qed.

Lemma clamp_idempotent lo hi x :
  goodBounds lo hi = true -> clamp lo hi (clamp lo hi x) = clamp lo hi x.
Proof.
  intros H. rewrite (clamp_cases lo hi x H).
  unfold goodBounds in H.
  pose proof H as H'.
  repeat (apply andb_true_iff in H; destruct H as [H ?]).
  repeat match goal with
         | E : negb _ = true |- _ => apply negb_true_iff in E
         end.
  destruct (isNaN x) eqn:Ex; [apply clamp_NaN, H' |].
  destruct (lt x hi) eqn:Exh; [destruct (lt lo x) eqn:Elx |];
    rewrite (clamp_cases _ _ _ H').
  - rewrite Ex, Exh, Elx. reflexivity.
  - replace (isNaN lo) with false by congruence.
    replace (lt lo hi) with true by congruence.
    replace (lt lo lo) with false by congruence. reflexivity.
  - replace (isNaN hi) with false by congruence.
    replace (lt hi hi) with false by congruence. reflexivity.
Qed.

Lemma goodBounds_volume : goodBounds zero one = true.
Proof. reflexivity. Qed.

Lemma goodBounds_filter : goodBounds n100 n10000 = true.
Proof. reflexivity. Qed.

Lemma goodBounds_speed : goodBounds n4000 n30000 = true.
Proof. reflexivity. Qed.

(** A number is passed through NaN by every clamp: the setters store it. *)
Lemma setPadFilterFrequency_NaN w :
  padFilterFreq (world_of (setPadFilterFrequency NaN w)) = NaN.
Proof. reflexivity. Qed.

(** ** The setters *)

Lemma setVolume_run e v w :
  Inv w -> audioContext w <> None \/ audioSupported e = true ->
  exists w',
    setVolume e v w = Normal tt w' /\
    currentVolume w' = clampVolume v /\ storedVolume w' = Some (clampVolume v).
Proof.
  intros H Ha.
  destruct (audioContext w) as [c|] eqn:Ec.
  - destruct (inv_nodes H) as [Hm _]; [congruence |].
    unfold setVolume, bind at 1. rewrite initAudio_existing by congruence.
    destruct w. simpl in *. destruct masterGain0 as [g|]; [| congruence]. subst.
    destruct (contextSuspended e), isMuted0; exec;
      (eexists; split; [reflexivity | split; reflexivity]).
  - destruct Ha as [Ha | Ha]; [congruence |].
    unfold setVolume, bind at 1. rewrite initAudio_create by assumption.
    unfold initialized. destruct w. simpl in *. subst.
    destruct (contextSuspended e), storedMuted0 as [s|];
      try destruct (String.eqb s "true"); exec;
      (eexists; split; [reflexivity | split; reflexivity]).
Qed.

Lemma setVolume_unavailable e v w :
  audioContext w = None -> audioSupported e = false ->
  currentVolume (world_of (setVolume e v w)) = currentVolume w.
Proof.
  intros Hc Hs. unfold setVolume, bind at 1.
  rewrite initAudio_unsupported by assumption. reflexivity.
Qed.



(** ** The pad's chord change and the arpeggio *)

Lemma filterM_padSweep units : forall w,
  audioContext w <> None ->
  filterM units padSweepCallback w
  = Normal (filter (notOf pad) units)
           (set_audioLog (audioLog w ++ sweepCmds pad 4000 4100 units) w).
Proof.
  induction units as [|u units IH]; intros w Hc.
  - cbn [filterM filter sweepCmds flat_map]. unfold ret.
    rewrite app_nil_r, set_audioLog_same. reflexivity.
  - cbn [filterM filter sweepCmds flat_map]. unfold padSweepCallback, notOf.
    destruct (Layer_eqb (type u) pad) eqn:E; unfold bind at 1;
      destruct w; cbn [audioContext] in Hc;
      (destruct audioContext0 as [c|]; [| congruence]).
    + unfold fadeAndStop. exec. rewrite IH by (cbn [audioContext]; discriminate).
      exec. rewrite <- !app_assoc. reflexivity.
    + exec. rewrite IH by (cbn [audioContext]; discriminate). exec. reflexivity.
Qed.

Lemma json_eqb_finite a s m e :
  json_eqb a (S754_finite s m e) = true -> a = S754_finite s m e.
Proof.
  destruct a as [s'| s' | | s' m' e']; simpl; try discriminate.
  intros H. apply andb_true_iff in H. destruct H as [H He].
  apply andb_true_iff in H. destruct H as [Hs Hm].
  apply Bool.eqb_prop in Hs. apply Pos.eqb_eq in Hm. apply Z.eqb_eq in He.
  congruence.
Qed.

Lemma json_array_eqb_finite a b :
  allFinite b -> json_array_eqb a b = true -> a = b.
Proof.
  intros Hb. revert a. induction Hb as [|y b (s & m & e & ->) _ IH]; intros a H.
  - destruct a; [reflexivity | discriminate].
  - destruct a as [|x a]; [discriminate |]. simpl in H.
    apply andb_true_iff in H. destruct H as [Hx Ha].
    apply json_eqb_finite in Hx. rewrite Hx, (IH a Ha). reflexivity.
Qed.

Lemma chords_finite chord : In chord chords -> allFinite chord.
Proof.
  intros H. repeat (destruct H as [<- | H]);
    [ repeat constructor; eexists _, _, _; reflexivity .. | destruct H ].
Qed.

(** The chord changed, as [chordProgression] tests it. *)
Lemma chordChanged_true previous chord :
  In chord chords -> previous <> chord -> json_array_eqb previous chord = false.
Proof.
  intros Hin Hne. destruct (json_array_eqb previous chord) eqn:E; [| reflexivity].
  apply json_array_eqb_finite in E; [congruence | apply chords_finite, Hin].
Qed.

Lemma arpNoteAt_first chord :
  arpNoteAt (arpNotesOf chord) 0 = Some (hd (mul NaN two) (arpNotesOf chord)).
Proof.
  unfold arpNoteAt. destruct (arpNotesOf chord) as [|x l] eqn:E.
  - destruct (arpNotesOf_nonempty chord E).
  - rewrite Nat.Div0.mod_0_l. reflexivity.
Qed.

Lemma arpStarts_sweep l a b units : arpStarts (sweepCmds l a b units) = [].
Proof.
  unfold arpStarts, sweepCmds. induction units as [|u units IH]; simpl; [reflexivity |].
  rewrite filter_app, IH, app_nil_r. destruct (Layer_eqb (type u) l); reflexivity.
Qed.

Lemma forEach_padVoice chord : forall w,
  audioContext w <> None ->
  forEach chord padVoice w = Normal tt (voiced chord w).
Proof.
  induction chord as [|freq rest IH]; intros w Hc.
  - unfold voiced. cbn [forEach voiceUnits voiceCmds List.length Nat.mul Nat.add].
    rewrite !app_nil_r. destruct w; reflexivity.
  - cbn [forEach]. unfold bind at 1, voiced.
    destruct w. cbn [audioContext] in Hc.
    destruct audioContext0 as [c|]; [| congruence].
    unfold padVoice. exec. rewrite IH by (cbn [audioContext]; discriminate).
    unfold voiced. exec. cbn [voiceUnits voiceCmds List.length].
    rewrite <- !app_assoc. cbn [app].
    replace (5 * S (List.length rest) + nextNode0)
      with (5 * List.length rest + S (S (S (S (S nextNode0))))) by lia.
    reflexivity.
Qed.

Lemma arpStarts_voices n chord : arpStarts (voiceCmds n chord) = [].
Proof.
  revert n. induction chord as [|f rest IH]; intros n; simpl; [reflexivity | apply IH].
Qed.

Lemma chords_length chord : In chord chords -> List.length chord = 3.
Proof.
  intros H. repeat (destruct H as [<- | H]); try reflexivity. destruct H.
Qed.

Lemma chord_first chord :
  In chord chords -> hd (mul NaN two) (arpNotesOf chord) = nth 0 chord NaN.
Proof.
  intros H. repeat (destruct H as [<- | H]); try reflexivity. destruct H.
Qed.

Lemma arpCleared_app l1 l2 id :
  arpCleared (l1 ++ l2) id = arpCleared l1 id || arpCleared l2 id.
Proof. unfold arpCleared. apply existsb_app. Qed.


Lemma reachable_arpWorld : reachable arpWorld.
Proof.
  apply reach_step; [| exact I]. apply reach_step; [| exact I].
  apply reachable_freshPage.
Qed.


Lemma toggle_off_stops_arpeggio_witness :
  reachable arpWorld /\ isPlaying arpWorld = true /\
  arpeggiatorEnabled arpWorld = true /\
  exists w',
    toggleArpeggiator arpWorld = Normal tt w' /\
    arpeggiatorEnabled w' = false /\
    activeOscillators w' = filter (notOf arpeggio) (activeOscillators arpWorld) /\
    audioLog w' = audioLog arpWorld
                  ++ sweepCmds arpeggio 100 200 (activeOscillators arpWorld) /\
    activeTimers w' = filter (fun t => negb (isArpTimer t)) (activeTimers arpWorld) /\
    (forall u, In u (activeOscillators w') -> type u <> arpeggio) /\
    (forall t, In t (activeTimers w') -> isArpTimer t = false) /\
    (forall id cb, In (id, cb) (timerTable w') -> is_arp_note cb = false).
Proof.
  split; [apply reachable_arpWorld |].
  split; [vm_compute; reflexivity |].
  split; [vm_compute; reflexivity |].
  apply (toggle_off_stops_arpeggio arpWorld).
  - apply reachable_arpWorld.
  - vm_compute; reflexivity.
  - vm_compute; reflexivity.
Defined.

(** ** Starting the layers *)

Lemma chords_entry k :
  k < List.length chords -> exists chord, nth_error chords k = Some chord /\ In chord chords.
Proof.
  intros Hk. destruct (nth_error chords k) as [chord|] eqn:E.
  - exists chord. split; [reflexivity | eapply nth_error_In; exact E].
  - apply nth_error_None in E. lia.
Qed.

Lemma json_array_eqb_refl chord : In chord chords -> json_array_eqb chord chord = true.
Proof.
  intros H. repeat (destruct H as [<- | H]); try reflexivity. destruct H.
Qed.

Lemma chords_nonempty chord : In chord chords -> chord <> [].
Proof.
  intros H E. apply chords_length in H. rewrite E in H. discriminate.
Qed.

Lemma startLayers_split e w : startLayers e w = (startPad e ;; startRest e) w.
Proof.
  unfold startLayers, startPad, startRest, bind.
  destruct (write (set_isPlaying true) w) as [a1 w1|w1]; [| reflexivity].
  destruct (read currentVolume w1) as [v w2|w2]; [| reflexivity].
  destruct (setVolume e v w2) as [a3 w3|w3]; [| reflexivity].
  destruct (createPad e w3) as [a4 w4|w4]; reflexivity.
Qed.

Lemma createPad_run e w :
  audioContext w <> None -> masterGain w <> None -> isPlaying w = true ->
  exists chord,
    In chord chords /\ createPad e w = Normal tt (padStarted e chord w).
Proof.
  intros Hc Hm Hp.
  destruct (chords_entry (randomIndex (randomChord e) (List.length chords)))
    as (chord & Hi & Hin); [apply randomIndex_lt; discriminate |].
  exists chord. split; [exact Hin |].
  pose proof (json_array_eqb_refl _ Hin) as Hsame.
  unfold createPad, chordProgression, padStarted.
  remember (randomIndex (randomChord e) (List.length chords)) as i eqn:Ei.
  clear Ei Hin.
  destruct w. cbn [audioContext masterGain isPlaying] in *. subst.
  destruct audioContext0 as [c|]; [| congruence].
  destruct masterGain0 as [g|]; [| congruence].
  destruct arpeggiatorEnabled0;
    (exec; unfold entry, deref; rewrite Hi; exec; rewrite Hsame;
     rewrite filterM_padSweep by (simpl; discriminate);
     exec; rewrite forEach_padVoice by (simpl; discriminate);
     unfold voiced; exec; rewrite <- !app_assoc; reflexivity).
Qed.

(** ** What a run leaves alone *)

Lemma keeps_ret {A B} (F : World -> A) (b : B) : keeps F (ret b).
Proof. intros w. reflexivity. Qed.

Lemma keeps_read {A B} (F : World -> A) (f : World -> B) : keeps F (read f).
Proof. intros w. reflexivity. Qed.

Lemma keeps_deref {A B} (F : World -> A) (f : World -> option B) : keeps F (deref f).
Proof. intros w. unfold deref. destruct (f w); reflexivity. Qed.

Lemma keeps_write {A} (F : World -> A) (f : World -> World) :
  (forall w, F (f w) = F w) -> keeps F (write f).
Proof. intros H w. apply H. Qed.

Lemma keeps_bind {A B C} (F : World -> A) (m : Js B) (k : B -> Js C) :
  keeps F m -> (forall b, keeps F (k b)) -> keeps F (bind m k).
Proof.
  intros Hm Hk w. unfold bind. specialize (Hm w).
  destruct (m w) as [b w1|w1]; simpl in *.
  - rewrite Hk. exact Hm.
  - exact Hm.
Qed.

Lemma keeps_when {A} (F : World -> A) (b : bool) (m : Js unit) :
  keeps F m -> keeps F (when b m).
Proof. intros H. destruct b; [exact H | apply keeps_ret]. Qed.

Lemma keeps_forEach {A B} (F : World -> A) (l : list B) (f : B -> Js unit) :
  (forall x, keeps F (f x)) -> keeps F (forEach l f).
Proof.
  intros H. induction l as [|x l IH]; simpl.
  - apply keeps_ret.
  - apply keeps_bind; [apply H | intros ?; exact IH].
Qed.

Lemma keeps_filterM {A B} (F : World -> A) (l : list B) (f : B -> Js bool) :
  (forall x, keeps F (f x)) -> keeps F (filterM l f).
Proof.
  intros H. induction l as [|x l IH]; simpl.
  - apply keeps_ret.
  - apply keeps_bind; [apply H | intros ?].
    apply keeps_bind; [exact IH | intros ?; apply keeps_ret].
Qed.

Create HintDb engine.
#[local] Hint Unfold log emit currentTime createNode pushUnit pushTimer setTimeout
  clearTimeout fadeAndStop entry sweepCallback arpTimerCallback padSweepCallback
  padVoice stopArpeggioSequence playArpNote createArpeggio chordProgression
  createPad playBassNote createBassline melodyNote playPhrase createMelody
  createTexture playSingleBeat playBeatPair createHeartbeat cleanup
  toggleHeartbeat toggleArpeggiator setPadOscillatorType setPadFilterFrequency
  setChordSpeed initAudio setVolume toggleMute ifNumber ifString
  ifBooleanDiffers : engine.

(** Decides [keeps F m] for a projection [F] that [m] never assigns. *)
Ltac keeps_step :=
  lazymatch goal with
  | |- keeps _ (bind _ _) => apply keeps_bind; [| intros ?]
  | |- keeps _ (ret _) => apply keeps_ret
  | |- keeps _ (read _) => apply keeps_read
  | |- keeps _ (deref _) => apply keeps_deref
  | |- keeps _ (write _) => apply keeps_write; intros ?; reflexivity
  | |- keeps _ (when _ _) => apply keeps_when
  | |- keeps _ (forEach _ _) => apply keeps_forEach; intros ?
  | |- keeps _ (filterM _ _) => apply keeps_filterM; intros ?
  | |- keeps _ (if ?b then _ else _) => destruct b
  | |- keeps _ (match ?x with _ => _ end) => destruct x
  | |- keeps _ _ => progress (autounfold with engine; cbv beta zeta)
  end.

Ltac keeps_all := repeat keeps_step.

Lemma keeps_chord_startRest e : keeps currentPadChordNotes (startRest e).
Proof. unfold startRest. keeps_all. Qed.

Lemma setVolume_existing e value w :
  audioContext w <> None -> masterGain w <> None ->
  setVolume e value w = Normal tt (volumeSet e value w).
Proof.
  intros Hc Hm. unfold setVolume, bind at 1.
  rewrite initAudio_existing by exact Hc.
  unfold volumeSet. destruct w. cbn [audioContext masterGain] in *.
  destruct audioContext0 as [c|]; [| congruence].
  destruct masterGain0 as [g|]; [| congruence].
  destruct (contextSuspended e), isMuted0; exec;
    rewrite <- ?app_assoc, ?app_nil_r; reflexivity.
Qed.

Lemma startPad_run e w :
  audioContext w <> None -> masterGain w <> None ->
  exists chord,
    In chord chords /\
    startPad e w
    = Normal tt (padStarted e chord
                   (volumeSet e (currentVolume w) (set_isPlaying true w))).
Proof.
  intros Hc Hm.
  destruct (createPad_run e (volumeSet e (currentVolume w) (set_isPlaying true w)))
    as (chord & Hin & E); try assumption; try reflexivity.
  exists chord. split; [exact Hin |].
  unfold startPad, bind, write, read.
  rewrite setVolume_existing by assumption. exact E.
Qed.

Lemma arpStarts_app l1 l2 : arpStarts (l1 ++ l2) = arpStarts l1 ++ arpStarts l2.
Proof. apply filter_app. Qed.

Lemma createArpeggio_no_chord w :
  currentPadChordNotes w = [] -> createArpeggio w = Normal tt w.
Proof.
  intros He. unfold createArpeggio, bind, read. rewrite He. simpl.
  rewrite !orb_true_r. reflexivity.
Qed.


Lemma reachable_initializedPage : reachable initializedPage.
Proof. apply reach_step; [apply reachable_freshPage | exact I]. Qed.


(** ** Timers after a start *)

Lemma voiceUnits_no_texture n chord :
  existsb (fun item => Layer_eqb (type item) texture) (voiceUnits n chord) = false.
Proof.
  revert n. induction chord as [|f rest IH]; intros n; simpl; [reflexivity | apply IH].
Qed.

Lemma startRest_run e chord w :
  audioContext w <> None -> masterGain w <> None ->
  heartbeatEnabled w = false -> arpeggiatorEnabled w = false ->
  activeOscillators w = [] -> activeTimers w = [] -> timerTable w = [] ->
  exists w' t n,
    startRest e (padStarted e chord (volumeSet e (currentVolume w) (set_isPlaying true w)))
    = Normal tt w' /\
    isPlaying w' = true /\
    timerTable w'
    = [(t, cbChordProgression
             ((randomIndex (randomChord e) (List.length chords) + 1)
              mod List.length chords));
       (S t, cbPlayBassNote (randomIndex (randomBass e) (List.length bassNotes)));
       (S (S t), cbPlayPhrase (randomIndex (randomPhrase e) (List.length phrases)))] /\
    activeTimers w' = [TimerId t; TimerId (S t); TimerId (S (S t))] /\
    activeOscillators w' = voiceUnits (nextNode w) chord ++ [mkUnit n (2 + n) texture].
Proof.
  intros Hc Hm Hh Ha Ho Ht Htab.
  unfold startRest, createBassline, createTexture, createMelody, padStarted, voiced,
    volumeSet.
  destruct w.
  cbn [audioContext masterGain heartbeatEnabled arpeggiatorEnabled activeOscillators
       activeTimers timerTable] in *.
  subst.
  destruct audioContext0 as [c|]; [| congruence].
  destruct masterGain0 as [g|]; [| congruence].
  exec. cbn [filter app]. rewrite voiceUnits_no_texture. exec.
  eexists _, _, _. split; [reflexivity |].
  cbn [isPlaying timerTable activeTimers activeOscillators app].
  repeat split.
Qed.

(** Where [startAmbient] goes on to start the layers: the state it has
    reached by then differs from the one it was called in by the audio
    nodes, mute and volume, and the logs. *)
Lemma startAmbient_starts e w :
  Inv w -> isPlaying w = false -> contextSuspended e = false ->
  audioContext w <> None \/ audioSupported e = true ->
  exists w0,
    startAmbient e w = startLayers e w0 /\
    audioContext w0 <> None /\ masterGain w0 <> None /\
    heartbeatEnabled w0 = heartbeatEnabled w /\
    arpeggiatorEnabled w0 = arpeggiatorEnabled w /\
    activeOscillators w0 = activeOscillators w /\
    activeTimers w0 = activeTimers w /\
    timerTable w0 = timerTable w.
Proof.
  intros H Hp Hs Ha. unfold startAmbient, bind at 1.
  destruct (audioContext w) as [c|] eqn:Ec.
  - destruct (inv_nodes H) as [Hm _]; [congruence |].
    rewrite initAudio_existing by congruence. rewrite Hs.
    exists (set_console (console w ++ [LogStarting]) w).
    destruct w. cbn [audioContext masterGain isPlaying] in *. subst.
    split; [exec; reflexivity |].
    world. repeat split; congruence.
  - destruct Ha as [Ha | Ha]; [congruence |].
    rewrite initAudio_create by assumption.
    exists (set_console (console (initialized e w) ++ [LogStarting]) (initialized e w)).
    unfold initialized. rewrite Hs.
    destruct w. cbn [audioContext isPlaying] in *. subst.
    split; [exec; reflexivity |].
    world. repeat split; discriminate.
Qed.

Lemma scheduledBy_three l w t a b c :
  timerTable w = [(t, a); (S t, b); (S (S t), c)] ->
  scheduledBy l w <-> layer_of a = l \/ layer_of b = l \/ layer_of c = l.
Proof.
  intros E. unfold scheduledBy. rewrite E. split.
  - intros (id & cb & [Hin | [Hin | [Hin | []]]] & Hl); inversion Hin; subst; auto.
  - intros [Hl | [Hl | Hl]]; eexists _, _; (split; [| exact Hl]); simpl; auto.
Qed.




(** ** The settings codec *)

Lemma toggleMute_existing e w :
  audioContext w <> None -> masterGain w <> None ->
  toggleMute e w = Normal tt (muteToggled e w).
Proof.
  intros Hc Hm. unfold toggleMute, bind at 1.
  rewrite initAudio_existing by exact Hc.
  unfold muteToggled. destruct w. cbn [audioContext masterGain] in *.
  destruct audioContext0 as [c|]; [| congruence].
  destruct masterGain0 as [g|]; [| congruence].
  destruct (contextSuspended e), isMuted0, (lt muteThreshold (masterGainValue e));
    exec; rewrite <- ?app_assoc; reflexivity.
Qed.

Lemma reachable_mutedPage : reachable mutedPage.
Proof. apply reach_loaded. intros v Hv. exact I. Qed.


Lemma applySettings_steps e settings :
  truthy settings = true ->
  applySettings e settings
  = (log LogApplyingSettings ;;
     applyVolume e settings ;; applyMuted e settings ;;
     applyPadOscType settings ;; applyPadFilterFreq settings ;;
     applyChordSpeed settings ;;
     applyHeartbeat settings ;; applyArpeggiator settings).
Proof. intros Ht. unfold applySettings. rewrite Ht. reflexivity. Qed.

Lemma applySettings_falsy e settings w :
  truthy settings = false -> applySettings e settings w = Normal tt w.
Proof. intros Ht. unfold applySettings. rewrite Ht. reflexivity. Qed.

Lemma falsy_prop settings k : truthy settings = false -> prop settings k = VUndefined.
Proof. destruct settings; simpl; congruence. Qed.

(** One step of a run that completes. *)
Lemma bind_step {A B} (m : Js A) (k : A -> Js B) w a w1 :
  m w = Normal a w1 -> bind m k w = k a w1.
Proof. intros E. unfold bind. rewrite E. reflexivity. Qed.

Lemma keeps_after {A B C} (F : World -> A) (m : Js B) (k : B -> Js C) w b w1 :
  m w = Normal b w1 -> keeps F (k b) -> F (world_of (bind m k w)) = F w1.
Proof. intros E Hk. rewrite (bind_step m k w b w1 E). apply Hk. Qed.

#[local] Hint Unfold applyVolume applyMuted applyPadOscType applyPadFilterFreq
  applyChordSpeed applyHeartbeat applyArpeggiator : engine.

Lemma InvAt_applyVolume b e s : triple (InvAt b) (applyVolume e s) (fun _ => InvAt b).
Proof. apply InvAt_ifNumber. intros. apply InvAt_setVolume. Qed.

Lemma InvAt_applyMuted b e s : triple (InvAt b) (applyMuted e s) (fun _ => InvAt b).
Proof. apply InvAt_ifBooleanDiffers, InvAt_toggleMute. Qed.

Lemma InvAt_applyPadOscType b s : triple (InvAt b) (applyPadOscType s) (fun _ => InvAt b).
Proof. apply InvAt_ifString. intros. apply InvAt_setPadOscillatorType. Qed.

Lemma InvAt_applyPadFilterFreq b s :
  triple (InvAt b) (applyPadFilterFreq s) (fun _ => InvAt b).
Proof. apply InvAt_ifNumber. intros. apply InvAt_setPadFilterFrequency. Qed.

Lemma InvAt_applyChordSpeed b s : triple (InvAt b) (applyChordSpeed s) (fun _ => InvAt b).
Proof. apply InvAt_ifNumber. intros. apply InvAt_setChordSpeed. Qed.

Lemma InvAt_applyHeartbeat b s : triple (InvAt b) (applyHeartbeat s) (fun _ => InvAt b).
Proof. apply InvAt_ifBooleanDiffers, InvAt_toggleHeartbeat. Qed.

Lemma InvAt_applyArpeggiator b s :
  triple (InvAt b) (applyArpeggiator s) (fun _ => InvAt b).
Proof. apply InvAt_ifBooleanDiffers, InvAt_toggleArpeggiator. Qed.

Lemma kept {A B} (F : World -> A) (m : Js B) w r w1 :
  keeps F m -> m w = Normal r w1 -> F w1 = F w.
Proof. intros Hk E. specialize (Hk w). rewrite E in Hk. exact Hk. Qed.

Lemma applySettings_run e s w :
  Inv w -> truthy s = true ->
  exists w0 w1 w2 w3 w4 w5 w6 w7, SettingsRun e s w w0 w1 w2 w3 w4 w5 w6 w7.
Proof.
  intros H Ht. set (b := isPlaying w).
  assert (Hw : InvAt b w) by (split; [exact H | reflexivity]).
  destruct (InvAt_log b LogApplyingSettings w Hw) as ([] & w0 & E0 & H0).
  destruct (InvAt_applyVolume b e s w0 H0) as ([] & w1 & E1 & H1).
  destruct (InvAt_applyMuted b e s w1 H1) as ([] & w2 & E2 & H2).
  destruct (InvAt_applyPadOscType b s w2 H2) as ([] & w3 & E3 & H3).
  destruct (InvAt_applyPadFilterFreq b s w3 H3) as ([] & w4 & E4 & H4).
  destruct (InvAt_applyChordSpeed b s w4 H4) as ([] & w5 & E5 & H5).
  destruct (InvAt_applyHeartbeat b s w5 H5) as ([] & w6 & E6 & H6).
  destruct (InvAt_applyArpeggiator b s w6 H6) as ([] & w7 & E7 & H7).
  exists w0, w1, w2, w3, w4, w5, w6, w7.
  constructor; try assumption; try (apply H0); try (apply H1).
  rewrite (applySettings_steps e s Ht).
  rewrite (bind_step _ _ _ _ _ E0), (bind_step _ _ _ _ _ E1), (bind_step _ _ _ _ _ E2),
    (bind_step _ _ _ _ _ E3), (bind_step _ _ _ _ _ E4), (bind_step _ _ _ _ _ E5),
    (bind_step _ _ _ _ _ E6).
  exact E7.
Qed.

Lemma toggleHeartbeat_flips w r w1 :
  toggleHeartbeat w = Normal r w1 -> heartbeatEnabled w1 = negb (heartbeatEnabled w).
Proof.
  intros E. unfold toggleHeartbeat in E.
  match type of E with
  | bind (write ?f) ?k w = _ =>
      assert (Hk : keeps heartbeatEnabled (k tt)) by keeps_all;
      pose proof (keeps_after heartbeatEnabled (write f) k w tt (f w) eq_refl Hk) as Hf
  end.
  rewrite E in Hf. exact Hf.
Qed.

Lemma toggleArpeggiator_flips w r w1 :
  toggleArpeggiator w = Normal r w1 ->
  arpeggiatorEnabled w1 = negb (arpeggiatorEnabled w).
Proof.
  intros E. unfold toggleArpeggiator in E.
  match type of E with
  | bind (write ?f) ?k w = _ =>
      assert (Hk : keeps arpeggiatorEnabled (k tt)) by keeps_all;
      pose proof (keeps_after arpeggiatorEnabled (write f) k w tt (f w) eq_refl Hk) as Hf
  end.
  rewrite E in Hf. exact Hf.
Qed.

Lemma negb_differs b c : negb (Bool.eqb b c) = true -> negb c = b.
Proof. destruct b, c; simpl; congruence. Qed.

Lemma same_eqb b c : negb (Bool.eqb b c) = false -> c = b.
Proof. destruct b, c; simpl; congruence. Qed.

(** A boolean field that is present ends up in force. *)
Lemma ifBooleanDiffers_sets (current : World -> bool) (toggle : Js unit) b w w1 :
  (forall u r u1, toggle u = Normal r u1 -> current u1 = negb (current u)) ->
  ifBooleanDiffers (VBoolean b) current toggle w = Normal tt w1 ->
  current w1 = b.
Proof.
  intros Hflip E. unfold ifBooleanDiffers, bind, read in E.
  destruct (negb (Bool.eqb b (current w))) eqn:Ed.
  - rewrite (Hflip _ _ _ E). apply negb_differs, Ed.
  - inversion E. subst w1. apply same_eqb, Ed.
Qed.

Lemma ifBooleanDiffers_same (current : World -> bool) (toggle : Js unit) v w :
  (forall b, v = VBoolean b -> b = current w) ->
  ifBooleanDiffers v current toggle w = Normal tt w.
Proof.
  intros Hv. destruct v; try reflexivity.
  unfold ifBooleanDiffers, bind, read. rewrite <- (Hv b eq_refl).
  rewrite Bool.eqb_reflx. reflexivity.
Qed.

Lemma not_number v f w : ~ isType "number" v -> ifNumber v f w = Normal tt w.
Proof. intros Hn. destruct v; try reflexivity. destruct Hn. reflexivity. Qed.

Lemma not_string v f w : ~ isType "string" v -> ifString v f w = Normal tt w.
Proof. intros Hn. destruct v; try reflexivity. destruct Hn. reflexivity. Qed.

Lemma not_boolean v current toggle w :
  ~ isType "boolean" v -> ifBooleanDiffers v current toggle w = Normal tt w.
Proof. intros Hn. destruct v; try reflexivity. destruct Hn. reflexivity. Qed.

Ltac same_world E lemma :=
  rewrite lemma in E by assumption; inversion E; subst; clear E.

Lemma setPadOscillatorType_sets s w r w1 :
  In s validOscTypes ->
  setPadOscillatorType (VString s) w = Normal r w1 -> padOscType w1 = s.
Proof.
  intros Hs E. unfold setPadOscillatorType in E.
  assert (Hi : includes validOscTypes (VString s) = true).
  { simpl in Hs. destruct Hs as [<- | [<- | [<- | [<- | []]]]]; reflexivity. }
  rewrite Hi in E. inversion E. reflexivity.
Qed.

Lemma setPadFilterFrequency_sets n w r w1 :
  setPadFilterFrequency n w = Normal r w1 -> padFilterFreq w1 = clampFilterFrequency n.
Proof. intros E. inversion E. reflexivity. Qed.

Lemma setChordSpeed_sets n w r w1 :
  setChordSpeed n w = Normal r w1 -> chordSpeedMs w1 = clampChordSpeed n.
Proof. intros E. inversion E. reflexivity. Qed.

(** Follows a variable back through the steps that leave it alone. *)
Ltac chain F :=
  repeat match goal with
         | E : ?m ?u = Normal tt ?v |- context [F ?v] =>
             rewrite (kept F m u tt v ltac:(solve [keeps_all]) E)
         end.


(** ** Settings round trip *)

Lemma Settled_parameters w w' : parameters w' = parameters w -> Settled w -> Settled w'.
Proof.
  unfold parameters. intros E [H1 H2 H3 H4 H5 H6]. inversion E as [[E1 E2 E3 E4 E5 E6 E7]].
  constructor; rewrite ?E1, ?E2, ?E3, ?E4, ?E5, ?E6, ?E7; assumption.
Qed.

Lemma preserves_bind {A B} (P : World -> Prop) (m : Js A) (k : A -> Js B) :
  preserves P m -> (forall a, preserves P (k a)) -> preserves P (bind m k).
Proof.
  intros Hm Hk w Hw. unfold bind. specialize (Hm w Hw).
  destruct (m w) as [a w1|w1]; simpl in *; [apply Hk, Hm | exact Hm].
Qed.

Lemma preserves_keeps {A} (m : Js A) : keeps parameters m -> preserves Settled m.
Proof. intros Hk w Hw. apply (Settled_parameters w); [apply Hk | exact Hw]. Qed.

Lemma clampVolume_idempotent v : clampVolume (clampVolume v) = clampVolume v.
Proof. apply (clamp_idempotent zero one v goodBounds_volume). Qed.

Lemma Settled_initAudio e : preserves Settled (initAudio e).
Proof.
  intros w H. destruct (audioContext w) as [c|] eqn:Ec.
  - rewrite initAudio_existing by congruence.
    destruct (contextSuspended e); [| exact H].
    apply (Settled_parameters w); [reflexivity | exact H].
  - destruct (audioSupported e) eqn:Es.
    + rewrite initAudio_create by assumption. destruct H as [H1 H2 H3 H4 H5 H6].
      unfold initialized. destruct w.
      cbn [currentVolume storedVolume padFilterFreq chordSpeedMs padOscType isMuted
           audioContext] in *.
      constructor; cbn [world_of]; world; try assumption.
      * destruct storedVolume0 as [v|]; [apply H2; reflexivity | reflexivity].
      * discriminate.
    + rewrite initAudio_unsupported by assumption.
      apply (Settled_parameters w); [| exact H].
      destruct w. cbn [audioContext] in Ec. subst. reflexivity.
Qed.

Lemma Settled_setVolume e v : preserves Settled (setVolume e v).
Proof.
  unfold setVolume. apply preserves_bind; [apply Settled_initAudio | intros nodes].
  intros w H. unfold bind, read. destruct (negb nodes || isNull (masterGain w)); [exact H |].
  destruct H as [H1 H2 H3 H4 H5 H6]. destruct w.
  cbn [currentVolume storedVolume padFilterFreq chordSpeedMs padOscType isMuted
       audioContext] in *.
  destruct isMuted0, audioContext0 as [c|], masterGain0 as [g|]; exec;
    (constructor; world; try assumption;
     try apply clampVolume_idempotent;
     intros v' Hv; inversion Hv; apply clampVolume_idempotent).
Qed.

Lemma initAudio_nodes e w w1 :
  initAudio e w = Normal true w1 -> audioContext w1 <> None.
Proof.
  intros E. destruct (audioContext w) as [c|] eqn:Ec.
  - rewrite initAudio_existing in E by congruence. inversion E.
    destruct (contextSuspended e); simpl; congruence.
  - destruct (audioSupported e) eqn:Es.
    + rewrite initAudio_create in E by assumption. inversion E. discriminate.
    + rewrite initAudio_unsupported in E by assumption. discriminate E.
Qed.

Lemma Settled_toggleMute e : saneEnv e -> preserves Settled (toggleMute e).
Proof.
  intros He w H. unfold toggleMute, bind at 1.
  pose proof (Settled_initAudio e w H) as H'.
  pose proof (initAudio_nodes e w) as Hn.
  destruct (initAudio e w) as [nodes w1|w1]; [| exact H'].
  cbn [world_of] in H'. destruct nodes; [| exact H'].
  specialize (Hn w1 eq_refl). clear H w.
  destruct H' as [H1 H2 H3 H4 H5 H6]. unfold saneEnv in He. destruct w1.
  cbn [currentVolume storedVolume padFilterFreq chordSpeedMs padOscType isMuted
       audioContext masterGain] in *.
  destruct audioContext0 as [c|]; [| congruence].
  destruct masterGain0 as [g|];
    [| exec; constructor; world; assumption].
  destruct isMuted0, (lt muteThreshold (masterGainValue e)); exec;
    (constructor; world; try assumption; try discriminate; apply He; reflexivity).
Qed.

Lemma Settled_setPadOscillatorType ty : preserves Settled (setPadOscillatorType ty).
Proof.
  intros w H. unfold setPadOscillatorType.
  destruct ty; try (apply (Settled_parameters w); [reflexivity | exact H]).
  destruct (includes validOscTypes (VString s)) eqn:Ei;
    [| apply (Settled_parameters w); [reflexivity | exact H]].
  destruct H as [H1 H2 H3 H4 H5 H6]. destruct w.
  cbn [currentVolume storedVolume padFilterFreq chordSpeedMs padOscType isMuted
       audioContext] in *.
  exec. constructor; world; assumption.
Qed.

Lemma Settled_setPadFilterFrequency f : preserves Settled (setPadFilterFrequency f).
Proof.
  intros w H. destruct H as [H1 H2 H3 H4 H5 H6]. unfold setPadFilterFrequency. destruct w.
  cbn [currentVolume storedVolume padFilterFreq chordSpeedMs padOscType isMuted
       audioContext] in *.
  exec. constructor; world; try assumption.
  apply (clamp_idempotent n100 n10000 f goodBounds_filter).
Qed.

Lemma Settled_setChordSpeed ms : preserves Settled (setChordSpeed ms).
Proof.
  intros w H. destruct H as [H1 H2 H3 H4 H5 H6]. unfold setChordSpeed. destruct w.
  cbn [currentVolume storedVolume padFilterFreq chordSpeedMs padOscType isMuted
       audioContext] in *.
  exec. constructor; world; try assumption.
  apply (clamp_idempotent n4000 n30000 ms goodBounds_speed).
Qed.

#[local] Hint Unfold run fire stopAmbient clearTracked suspendAudio resumeAudio
  startLayers startAmbient resumeSettled applySettings : engine.

Lemma preserves_read {A B} (P : World -> Prop) (f : World -> A) (k : A -> Js B) :
  (forall a, preserves P (k a)) -> preserves P (bind (read f) k).
Proof. intros Hk. apply preserves_bind; [intros w Hw; exact Hw | exact Hk]. Qed.

Lemma Settled_startLayers e : preserves Settled (startLayers e).
Proof.
  unfold startLayers.
  apply preserves_bind; [apply preserves_keeps; keeps_all | intros ?].
  apply preserves_read. intros v.
  apply preserves_bind; [apply Settled_setVolume | intros ?].
  apply preserves_keeps. keeps_all.
Qed.

Lemma Settled_startAmbient e : preserves Settled (startAmbient e).
Proof.
  unfold startAmbient.
  apply preserves_bind; [apply Settled_initAudio | intros nodes].
  apply preserves_read. intros w0.
  destruct (negb nodes || isNull (audioContext w0) || isPlaying w0);
    [apply preserves_keeps; keeps_all |].
  apply preserves_bind; [apply preserves_keeps; keeps_all | intros ?].
  apply preserves_bind; [apply preserves_keeps; keeps_all | intros ?].
  destruct (contextSuspended e);
    [apply preserves_keeps; keeps_all | apply Settled_startLayers].
Qed.

Lemma Settled_resumeSettled e resolved : preserves Settled (resumeSettled e resolved).
Proof.
  unfold resumeSettled. apply preserves_read. intros n.
  destruct n as [|n']; [apply preserves_keeps; keeps_all |].
  apply preserves_bind; [apply preserves_keeps; keeps_all | intros ?].
  destruct resolved; [apply Settled_startLayers | apply preserves_keeps; keeps_all].
Qed.

Lemma Settled_ifNumber v f :
  (forall n, preserves Settled (f n)) -> preserves Settled (ifNumber v f).
Proof. intros H. destruct v; try (apply preserves_keeps; solve [keeps_all]). apply H. Qed.

Lemma Settled_ifString v f :
  (forall s, preserves Settled (f s)) -> preserves Settled (ifString v f).
Proof. intros H. destruct v; try (apply preserves_keeps; solve [keeps_all]). apply H. Qed.

Lemma Settled_ifBooleanDiffers v current toggle :
  preserves Settled toggle -> preserves Settled (ifBooleanDiffers v current toggle).
Proof.
  intros H. destruct v; try (apply preserves_keeps; solve [keeps_all]).
  unfold ifBooleanDiffers. apply preserves_read. intros c.
  destruct (negb (Bool.eqb b c)); [exact H | apply preserves_keeps; keeps_all].
Qed.

Lemma Settled_applySettings e settings :
  saneEnv e -> preserves Settled (applySettings e settings).
Proof.
  intros He. unfold applySettings.
  destruct (negb (truthy settings)); [apply preserves_keeps; keeps_all |].
  apply preserves_bind; [apply preserves_keeps; keeps_all | intros ?].
  apply preserves_bind; [apply Settled_ifNumber, Settled_setVolume | intros ?].
  apply preserves_bind;
    [apply Settled_ifBooleanDiffers, Settled_toggleMute, He | intros ?].
  apply preserves_bind; [apply Settled_ifString, Settled_setPadOscillatorType | intros ?].
  apply preserves_bind; [apply Settled_ifNumber, Settled_setPadFilterFrequency | intros ?].
  apply preserves_bind; [apply Settled_ifNumber, Settled_setChordSpeed | intros ?].
  apply preserves_bind;
    [apply Settled_ifBooleanDiffers, preserves_keeps; keeps_all | intros ?].
  apply Settled_ifBooleanDiffers, preserves_keeps. keeps_all.
Qed.

Lemma Settled_perform e a : saneEnv e -> preserves Settled (perform e a).
Proof.
  intros He. destruct a; cbn [perform].
  - apply preserves_bind; [apply Settled_initAudio | intros ?].
    apply preserves_keeps. keeps_all.
  - apply Settled_startAmbient.
  - apply preserves_keeps. keeps_all.
  - apply Settled_toggleMute, He.
  - apply Settled_setVolume.
  - apply Settled_applySettings, He.
  - apply preserves_keeps. keeps_all.
  - apply preserves_keeps. keeps_all.
  - apply Settled_setPadOscillatorType.
  - apply Settled_setPadFilterFrequency.
  - apply Settled_setChordSpeed.
  - apply preserves_keeps. keeps_all.
  - apply preserves_keeps. keeps_all.
  - apply preserves_keeps. keeps_all.
  - apply Settled_resumeSettled.
Qed.

Lemma Settled_loaded muted volume :
  (forall v, volume = Some v -> saneVolume v) -> Settled (loaded muted volume).
Proof.
  intros Hv. constructor; cbn [loaded currentVolume storedVolume padFilterFreq
    chordSpeedMs padOscType isMuted audioContext]; try reflexivity. exact Hv.
Qed.

Lemma reachableIn_Settled w : reachableIn saneEnv saneVolume w -> Settled w.
Proof.
  induction 1 as [muted volume Hv | w e a _ IH He].
  - apply Settled_loaded, Hv.
  - apply (Settled_perform e a He w IH).
Qed.

Lemma truthy_getSettings w : truthy (getSettings w) = true.
Proof. reflexivity. Qed.

Lemma setVolume_create e value w :
  audioContext w = None -> audioSupported e = true ->
  setVolume e value w = Normal tt (volumeStored value (initialized e w)).
Proof.
  intros Hc Hs. unfold setVolume, bind at 1.
  rewrite initAudio_create by assumption.
  unfold volumeStored, initialized. destruct w. cbn [audioContext] in Hc. subst.
  destruct (contextSuspended e), storedMuted0 as [s|]; exec;
    try destruct (String.eqb s "true"); exec; rewrite <- ?app_assoc, ?app_nil_r;
    reflexivity.
Qed.

Lemma setVolume_unsupported e value w :
  audioContext w = None -> audioSupported e = false ->
  setVolume e value w
  = Normal tt (set_analyser None (set_masterGain None
       (set_console (console w ++ [ErrNotSupported]) w))).
Proof.
  intros Hc Hs. unfold setVolume, bind at 1.
  rewrite initAudio_unsupported by assumption. reflexivity.
Qed.

(** [setVolume] with the current volume: the volume stays, and so does
    the mute flag unless the audio graph was set up by the call. *)
Lemma setVolume_current e w w1 :
  Inv w -> Settled w ->
  setVolume e (currentVolume w) w = Normal tt w1 ->
  currentVolume w1 = currentVolume w /\
  (isMuted w1 = isMuted w \/
   isMuted w = false /\ audioContext w1 <> None /\ masterGain w1 <> None).
Proof.
  intros H S E. pose proof (settled_volume w S) as Hv.
  destruct (audioContext w) as [c|] eqn:Ec.
  - rewrite setVolume_existing in E
      by (try apply (inv_nodes H); congruence).
    inversion E. split; [exact Hv | left; reflexivity].
  - destruct (audioSupported e) eqn:Es.
    + rewrite setVolume_create in E by assumption. inversion E.
      split; [exact Hv |]. right.
      split; [apply (settled_unmuted w S Ec) |]. split; discriminate.
    + rewrite setVolume_unsupported in E by assumption. inversion E.
      split; [reflexivity | left; reflexivity].
Qed.

(** The mute step of the round trip undoes what the set-up loaded. *)
Lemma applyMuted_current e m w1 w2 :
  (isMuted w1 = m \/ m = false /\ audioContext w1 <> None /\ masterGain w1 <> None) ->
  ifBooleanDiffers (VBoolean m) isMuted (toggleMute e) w1 = Normal tt w2 ->
  currentVolume w2 = currentVolume w1 /\ isMuted w2 = m.
Proof.
  intros Hm E. unfold ifBooleanDiffers, bind, read in E.
  destruct (negb (Bool.eqb m (isMuted w1))) eqn:Ed.
  - apply negb_differs in Ed.
    destruct Hm as [Hm | (Hm & Hc & Hg)].
    + rewrite Hm in Ed. destruct m; discriminate Ed.
    + subst m. rewrite toggleMute_existing in E by assumption.
      inversion E. unfold muteToggled.
      destruct (isMuted w1); [split; reflexivity | discriminate Ed].
  - apply same_eqb in Ed. inversion E. subst w2. split; [reflexivity | exact Ed].
Qed.

Lemma reachable_foreignVolumePage : reachable foreignVolumePage.
Proof.
  apply reach_step; [| exact I]. apply reach_loaded. intros v Hv. exact I.
Qed.



Lemma reachableSane_playingWorld : reachableIn saneEnv saneVolume playingWorld.
Proof.
  apply reach_step.
  - apply reach_loaded. intros v Hv. discriminate Hv.
  - intros Hlt. vm_compute in Hlt. discriminate Hlt.
Qed.



(** * More of the engine's behaviour *)

(** ** Invariants of the settings *)

(** Opens a state into its variables, under fixed names. *)
Ltac open_world w :=
  destruct w as [audioContext0 masterGain0 analyser0 activeOscillators0 activeTimers0
                 isMuted0 currentVolume0 isPlaying0 heartbeatEnabled0 arpeggiatorEnabled0
                 currentPadChordNotes0 padOscType0 padFilterFreq0 chordSpeedMs0
                 timerTable0 nextTimerId0 nextNode0 storedMuted0 storedVolume0
                 console0 audioLog0 resuming0].

Lemma preserves_frame {A B} (F : World -> B) (U : B -> Prop) (m : Js A) :
  keeps F m -> preserves (fun w => U (F w)) m.
Proof. intros Hk w Hw. rewrite Hk. exact Hw. Qed.

Lemma preserves_ret {A} (P : World -> Prop) (a : A) : preserves P (ret a).
Proof. intros w Hw. exact Hw. Qed.

Lemma preserves_ifNumber (P : World -> Prop) v f :
  (forall n, preserves P (f n)) -> preserves P (ifNumber v f).
Proof. intros H. destruct v; try apply preserves_ret. apply H. Qed.

Lemma preserves_ifString (P : World -> Prop) v f :
  (forall s, preserves P (f s)) -> preserves P (ifString v f).
Proof. intros H. destruct v; try apply preserves_ret. apply H. Qed.

Lemma preserves_ifBooleanDiffers (P : World -> Prop) v current toggle :
  preserves P toggle -> preserves P (ifBooleanDiffers v current toggle).
Proof.
  intros H. destruct v; try apply preserves_ret.
  unfold ifBooleanDiffers. apply preserves_read. intros c.
  destruct (negb (Bool.eqb b c)); [exact H | apply preserves_ret].
Qed.

Lemma reachableIn_preserves envOk volumeOk (P : World -> Prop) :
  (forall muted volume, (forall v, volume = Some v -> volumeOk v) ->
                        P (loaded muted volume)) ->
  (forall e a, envOk e -> preserves P (perform e a)) ->
  forall w, reachableIn envOk volumeOk w -> P w.
Proof.
  intros H0 Hstep w Hr. induction Hr as [muted volume Hv | w e a _ IH He].
  - apply H0, Hv.
  - apply (Hstep e a He w IH).
Qed.

Section SettingsInvariant.

Variable P : World -> Prop.
Variable envOk : Env -> Prop.
Hypothesis P_frame : forall w w', settingsFrame w' = settingsFrame w -> P w -> P w'.
Hypothesis P_initAudio : forall e, envOk e -> preserves P (initAudio e).
Hypothesis P_setVolume : forall e v, envOk e -> preserves P (setVolume e v).
Hypothesis P_toggleMute : forall e, envOk e -> preserves P (toggleMute e).
Hypothesis P_type : forall ty, preserves P (setPadOscillatorType ty).
Hypothesis P_filter : forall f, preserves P (setPadFilterFrequency f).
Hypothesis P_speed : forall ms, preserves P (setChordSpeed ms).

Lemma framed {A} (m : Js A) : keeps settingsFrame m -> preserves P m.
Proof. intros Hk w Hw. apply (P_frame w); [apply Hk | exact Hw]. Qed.

Lemma framed_startLayers e : envOk e -> preserves P (startLayers e).
Proof.
  intros He. unfold startLayers.
  apply preserves_bind; [apply framed; keeps_all | intros ?].
  apply preserves_read. intros v.
  apply preserves_bind; [apply P_setVolume, He | intros ?].
  apply framed. keeps_all.
Qed.

Lemma framed_startAmbient e : envOk e -> preserves P (startAmbient e).
Proof.
  intros He. unfold startAmbient.
  apply preserves_bind; [apply P_initAudio, He | intros nodes].
  apply preserves_read. intros w0.
  destruct (negb nodes || isNull (audioContext w0) || isPlaying w0);
    [apply preserves_ret |].
  apply preserves_bind; [apply framed; keeps_all | intros ?].
  apply preserves_bind; [apply framed; keeps_all | intros ?].
  destruct (contextSuspended e);
    [apply framed; keeps_all | apply framed_startLayers, He].
Qed.

Lemma framed_resumeSettled e resolved : envOk e -> preserves P (resumeSettled e resolved).
Proof.
  intros He. unfold resumeSettled. apply preserves_read. intros n.
  destruct n as [|n']; [apply preserves_ret |].
  apply preserves_bind; [apply framed; keeps_all | intros ?].
  destruct resolved; [apply framed_startLayers, He | apply framed; keeps_all].
Qed.

Lemma framed_applySettings e settings : envOk e -> preserves P (applySettings e settings).
Proof.
  intros He. unfold applySettings.
  destruct (negb (truthy settings)); [apply preserves_ret |].
  apply preserves_bind; [apply framed; keeps_all | intros ?].
  apply preserves_bind; [apply preserves_ifNumber; intros; apply P_setVolume, He | intros ?].
  apply preserves_bind;
    [apply preserves_ifBooleanDiffers, P_toggleMute, He | intros ?].
  apply preserves_bind; [apply preserves_ifString, P_type | intros ?].
  apply preserves_bind; [apply preserves_ifNumber, P_filter | intros ?].
  apply preserves_bind; [apply preserves_ifNumber, P_speed | intros ?].
  apply preserves_bind;
    [apply preserves_ifBooleanDiffers, framed; keeps_all | intros ?].
  apply preserves_ifBooleanDiffers, framed. keeps_all.
Qed.

Lemma framed_perform e a : envOk e -> preserves P (perform e a).
Proof.
  intros He. destruct a; cbn [perform].
  - apply preserves_bind; [apply P_initAudio, He | intros ?; apply preserves_ret].
  - apply framed_startAmbient, He.
  - apply framed. keeps_all.
  - apply P_toggleMute, He.
  - apply P_setVolume, He.
  - apply framed_applySettings, He.
  - apply framed. keeps_all.
  - apply framed. keeps_all.
  - apply P_type.
  - apply P_filter.
  - apply P_speed.
  - apply framed. keeps_all.
  - apply framed. keeps_all.
  - apply framed. keeps_all.
  - apply framed_resumeSettled, He.
Qed.

End SettingsInvariant.

(** *** The pad's parameters *)

Lemma ParamsOk_frame w w' : paramsFrame w' = paramsFrame w -> ParamsOk w -> ParamsOk w'.
Proof.
  unfold paramsFrame. intros E [H1 H2 H3]. inversion E as [[E1 E2 E3]].
  constructor; rewrite ?E1, ?E2, ?E3; assumption.
Qed.

Lemma ParamsOk_keeps {A} (m : Js A) : keeps paramsFrame m -> preserves ParamsOk m.
Proof. intros Hk w Hw. apply (ParamsOk_frame w); [apply Hk | exact Hw]. Qed.

Lemma clamp_clamped lo hi x : goodBounds lo hi = true -> clamped lo hi (clamp lo hi x).
Proof.
  intros H. destruct (isNaN x) eqn:Ex.
  - left. rewrite (clamp_cases _ _ _ H), Ex. reflexivity.
  - right. apply clamp_inRange; assumption.
Qed.

Lemma includes_In s : includes validOscTypes (VString s) = true -> In s validOscTypes.
Proof.
  unfold includes. intros H. apply existsb_exists in H. destruct H as (t & Hin & E).
  apply String.eqb_eq in E. subst t. exact Hin.
Qed.

Lemma ParamsOk_perform e a : preserves ParamsOk (perform e a).
Proof.
  apply (framed_perform ParamsOk (fun _ => True)); try exact I.
  - intros w w' E. apply ParamsOk_frame. unfold settingsFrame in E. unfold paramsFrame.
    inversion E. reflexivity.
  - intros e0 _. apply ParamsOk_keeps. keeps_all.
  - intros e0 v _. apply ParamsOk_keeps. keeps_all.
  - intros e0 _. apply ParamsOk_keeps. keeps_all.
  - intros ty w [H1 H2 H3]. unfold setPadOscillatorType.
    destruct ty; try (constructor; assumption).
    destruct (includes validOscTypes (VString s)) eqn:Ei; [| constructor; assumption].
    constructor; [apply includes_In, Ei | exact H2 | exact H3].
  - intros f w [H1 H2 H3].
    constructor; [exact H1 | apply (clamp_clamped n100 n10000 f goodBounds_filter) | exact H3].
  - intros ms w [H1 H2 H3].
    constructor; [exact H1 | exact H2 |
                  apply (clamp_clamped n4000 n30000 ms goodBounds_speed)].
Qed.

Lemma ParamsOk_loaded muted volume : ParamsOk (loaded muted volume).
Proof.
  constructor; cbn [loaded padOscType padFilterFreq chordSpeedMs].
  - right. right. right. left. reflexivity.
  - right. split; reflexivity.
  - right. split; reflexivity.
Qed.

(** In every state the engine reaches, the pad's oscillator type is one
    of the four valid ones, and the filter frequency and the chord speed
    are within 100..10000 and 4000..30000, or NaN. *)
Theorem parameters_stay_valid (w : World) :
  reachable w ->
  In (getPadOscillatorType w) validOscTypes /\
  clamped n100 n10000 (getPadFilterFrequency w) /\
  clamped n4000 n30000 (getChordSpeed w).
Proof.
  intros Hr.
  assert (H : ParamsOk w).
  { apply (reachableIn_preserves (fun _ => True) (fun _ => True) ParamsOk); try exact Hr.
    - intros. apply ParamsOk_loaded.
    - intros e a _. apply ParamsOk_perform. }
  destruct H as [H1 H2 H3]. auto.
Qed.

Lemma parameters_stay_valid_witness :
  reachable playingWorld /\
  In (getPadOscillatorType playingWorld) validOscTypes /\
  clamped n100 n10000 (getPadFilterFrequency playingWorld) /\
  clamped n4000 n30000 (getChordSpeed playingWorld).
Proof.
  split; [apply reachable_playingWorld |].
  apply (parameters_stay_valid playingWorld), reachable_playingWorld.
Defined.

(** *** Mute and volume across page loads *)

Lemma MuteStored_frame w w' : muteFrame w' = muteFrame w -> MuteStored w -> MuteStored w'.
Proof.
  unfold muteFrame, MuteStored. intros E H. inversion E as [[E1 E2 E3]].
  rewrite E1, E2, E3. exact H.
Qed.

Lemma MuteStored_keeps {A} (m : Js A) : keeps muteFrame m -> preserves MuteStored m.
Proof. intros Hk w Hw. apply (MuteStored_frame w); [apply Hk | exact Hw]. Qed.

Lemma MuteStored_initAudio e : preserves MuteStored (initAudio e).
Proof.
  intros w H. destruct (audioContext w) as [c|] eqn:Ec.
  - rewrite initAudio_existing by congruence.
    destruct (contextSuspended e); [| exact H].
    apply (MuteStored_frame w); [reflexivity | exact H].
  - destruct (audioSupported e) eqn:Es.
    + rewrite initAudio_create by assumption. intros _. reflexivity.
    + rewrite initAudio_unsupported by assumption. intros Hc. exfalso. apply Hc.
      open_world w. cbn [audioContext] in Ec. subst. reflexivity.
Qed.

Lemma MuteStored_toggleMute e : preserves MuteStored (toggleMute e).
Proof.
  unfold toggleMute. apply preserves_bind; [apply MuteStored_initAudio | intros nodes].
  intros w H. unfold MuteStored in *. open_world w. cbn [audioContext isMuted storedMuted] in *.
  destruct nodes, masterGain0 as [g|], audioContext0 as [c|], isMuted0,
    (lt muteThreshold (masterGainValue e));
    exec; intros Hc; try reflexivity; try (apply H, Hc); congruence.
Qed.

Lemma MuteStored_perform e a : preserves MuteStored (perform e a).
Proof.
  apply (framed_perform MuteStored (fun _ => True)); try exact I.
  - intros w w' E. apply MuteStored_frame. unfold settingsFrame in E. unfold muteFrame.
    inversion E. reflexivity.
  - intros e0 _. apply MuteStored_initAudio.
  - intros e0 v _. unfold setVolume.
    apply preserves_bind; [apply MuteStored_initAudio | intros nodes].
    apply MuteStored_keeps. keeps_all.
  - intros e0 _. apply MuteStored_toggleMute.
  - intros ty. apply MuteStored_keeps. keeps_all.
  - intros f. apply MuteStored_keeps. keeps_all.
  - intros ms. apply MuteStored_keeps. keeps_all.
Qed.


Lemma reachable_mutedWorld : reachable mutedWorld.
Proof. apply reach_step; [apply reachable_playingWorld | exact I]. Qed.




(** ** Without Web Audio *)

Lemma Dormant_frame w w' : dormantFrame w' = dormantFrame w -> Dormant w -> Dormant w'.
Proof.
  unfold dormantFrame, Dormant. intros E H. inversion E as [[E1 E2 E3 E4 E5 E6 E7]].
  rewrite E1, E2, E3, E4, E5, E6, E7. exact H.
Qed.

Lemma Dormant_keeps {A} (m : Js A) : keeps dormantFrame m -> preserves Dormant m.
Proof. intros Hk w Hw. apply (Dormant_frame w); [apply Hk | exact Hw]. Qed.

Ltac dormant H w :=
  destruct H as (Hc & Hp & Hr & Ht & Ha & Ho & Hl); open_world w;
  cbn [audioContext isPlaying resuming timerTable activeTimers activeOscillators
       audioLog] in Hc, Hp, Hr, Ht, Ha, Ho, Hl;
  subst.

Lemma Dormant_initAudio e : noAudio e -> preserves Dormant (initAudio e).
Proof.
  intros He w H. rewrite initAudio_unsupported by (try exact He; apply H).
  apply (Dormant_frame w); [| exact H]. dormant H w. reflexivity.
Qed.

Lemma toggleMute_unsupported e w :
  audioContext w = None -> audioSupported e = false ->
  toggleMute e w
  = Normal tt (set_analyser None (set_masterGain None
       (set_console (console w ++ [ErrNotSupported]) w))).
Proof.
  intros Hc Hs. unfold toggleMute, bind at 1.
  rewrite initAudio_unsupported by assumption. reflexivity.
Qed.

Lemma startAmbient_unsupported e w :
  audioContext w = None -> audioSupported e = false ->
  startAmbient e w
  = Normal tt (set_analyser None (set_masterGain None
       (set_console (console w ++ [ErrNotSupported]) w))).
Proof.
  intros Hc Hs. unfold startAmbient, bind at 1.
  rewrite initAudio_unsupported by assumption. reflexivity.
Qed.

Lemma Dormant_failed w :
  Dormant w ->
  Dormant (set_analyser None (set_masterGain None
             (set_console (console w ++ [ErrNotSupported]) w))).
Proof. apply Dormant_frame. reflexivity. Qed.

Lemma Dormant_setVolume e v : noAudio e -> preserves Dormant (setVolume e v).
Proof.
  intros He w H. rewrite setVolume_unsupported by (try exact He; apply H).
  apply Dormant_failed, H.
Qed.

Lemma Dormant_toggleMute e : noAudio e -> preserves Dormant (toggleMute e).
Proof.
  intros He w H. rewrite toggleMute_unsupported by (try exact He; apply H).
  apply Dormant_failed, H.
Qed.

Lemma Dormant_toggleHeartbeat : preserves Dormant toggleHeartbeat.
Proof.
  intros w H. dormant H w. unfold toggleHeartbeat. exec. repeat split.
Qed.

Lemma Dormant_toggleArpeggiator : preserves Dormant toggleArpeggiator.
Proof.
  intros w H. dormant H w. unfold toggleArpeggiator. exec. repeat split.
Qed.

Lemma Dormant_applySettings e settings :
  noAudio e -> preserves Dormant (applySettings e settings).
Proof.
  intros He. unfold applySettings.
  destruct (negb (truthy settings)); [apply preserves_ret |].
  apply preserves_bind; [apply Dormant_keeps; keeps_all | intros ?].
  apply preserves_bind;
    [apply preserves_ifNumber; intros; apply Dormant_setVolume, He | intros ?].
  apply preserves_bind;
    [apply preserves_ifBooleanDiffers, Dormant_toggleMute, He | intros ?].
  apply preserves_bind;
    [apply preserves_ifString; intros; apply Dormant_keeps; keeps_all | intros ?].
  apply preserves_bind;
    [apply preserves_ifNumber; intros; apply Dormant_keeps; keeps_all | intros ?].
  apply preserves_bind;
    [apply preserves_ifNumber; intros; apply Dormant_keeps; keeps_all | intros ?].
  apply preserves_bind;
    [apply preserves_ifBooleanDiffers, Dormant_toggleHeartbeat | intros ?].
  apply preserves_ifBooleanDiffers, Dormant_toggleArpeggiator.
Qed.

Lemma Dormant_perform e a : noAudio e -> preserves Dormant (perform e a).
Proof.
  intros He. destruct a; cbn [perform].
  - apply preserves_bind; [apply Dormant_initAudio, He | intros ?; apply preserves_ret].
  - intros w H. rewrite startAmbient_unsupported by (try exact He; apply H).
    apply Dormant_failed, H.
  - intros w H. rewrite stopAmbient_idle by (left; apply H). exact H.
  - apply Dormant_toggleMute, He.
  - apply Dormant_setVolume, He.
  - apply Dormant_applySettings, He.
  - intros w H. dormant H w. unfold suspendAudio. exec. repeat split.
  - intros w H. dormant H w. unfold resumeAudio. exec. repeat split.
  - apply Dormant_keeps. keeps_all.
  - apply Dormant_keeps. keeps_all.
  - apply Dormant_keeps. keeps_all.
  - apply Dormant_toggleHeartbeat.
  - apply Dormant_toggleArpeggiator.
  - intros w H. rewrite fire_none by apply H. exact H.
  - intros w H. dormant H w. unfold resumeSettled. exec. repeat split.
Qed.

(** Where the platform provides no Web Audio, no sequence of calls ever
    brings the engine to play: in every state reached there is no
    context, [isPlaying] is false, no command has been sent to an audio
    node, no timer is pending and no unit is tracked. *)
Theorem unsupported_audio_is_inert (w : World) :
  reachableIn noAudio (fun _ => True) w ->
  audioContext w = None /\ isPlaying w = false /\ audioLog w = [] /\
  timerTable w = [] /\ activeTimers w = [] /\ activeOscillators w = [].
Proof.
  intros Hr.
  assert (H : Dormant w).
  { apply (reachableIn_preserves noAudio (fun _ => True) Dormant); try exact Hr.
    - intros m v _. repeat split.
    - intros e a He. apply Dormant_perform, He. }
  destruct H as (Hc & Hp & _ & Ht & Ha & Ho & Hl). auto 6.
Qed.

Lemma reachable_deafWorld : reachableIn noAudio (fun _ => True) deafWorld.
Proof.
  repeat (apply reach_step; [| reflexivity]).
  apply reach_loaded. intros v Hv. exact I.
Qed.

Lemma unsupported_audio_is_inert_witness :
  reachableIn noAudio (fun _ => True) deafWorld /\
  audioContext deafWorld = None /\ isPlaying deafWorld = false /\
  audioLog deafWorld = [] /\ timerTable deafWorld = [] /\
  activeTimers deafWorld = [] /\ activeOscillators deafWorld = [].
Proof.
  split; [apply reachable_deafWorld |].
  apply (unsupported_audio_is_inert deafWorld), reachable_deafWorld.
Defined.

(** ** Starting twice *)

(** [startAmbient], called during playback, starts nothing: it returns
    with the state as it was, but for the request to resume that
    [initAudio] sends to a suspended context.  No layer is started a
    second time. *)
Theorem start_while_playing_starts_nothing (e : Env) (w : World) :
  reachable w -> isPlaying w = true ->
  startAmbient e w
  = Normal tt (if contextSuspended e
               then set_audioLog (audioLog w ++ [ContextResume]) w
               else w).
Proof.
  intros Hr Hp. pose proof (reachableIn_Inv _ _ _ Hr) as H.
  pose proof (inv_playing H Hp) as Hc.
  unfold startAmbient, bind at 1. rewrite initAudio_existing by exact Hc.
  open_world w. cbn [isPlaying audioContext] in Hp, Hc. subst.
  destruct audioContext0 as [c|]; [| congruence].
  destruct (contextSuspended e); exec; reflexivity.
Qed.

Lemma start_while_playing_starts_nothing_witness :
  reachable playingWorld /\ isPlaying playingWorld = true /\
  startAmbient quietEnv playingWorld
  = Normal tt (if contextSuspended quietEnv
               then set_audioLog (audioLog playingWorld ++ [ContextResume]) playingWorld
               else playingWorld).
Proof.
  split; [apply reachable_playingWorld |]. split; [reflexivity |].
  apply (start_while_playing_starts_nothing quietEnv playingWorld);
    [apply reachable_playingWorld | reflexivity].
Defined.

(** ** What the setters store *)

Lemma clamp_saturated lo hi x :
  goodBounds lo hi = true -> isNaN x = false -> clamp lo hi x = saturated lo hi x.
Proof. intros H Hx. rewrite (clamp_cases _ _ _ H), Hx. reflexivity. Qed.



(** ** The pad's chord transition *)

Lemma arpNoteAt_head chord :
  chord <> [] -> arpNoteAt (arpNotesOf chord) 0 = Some (nth 0 chord NaN).
Proof.
  intros Hne. rewrite arpNoteAt_first. unfold arpNotesOf.
  destruct chord as [|x rest]; [congruence | reflexivity].
Qed.

Lemma createArpeggio_run w :
  audioContext w <> None -> masterGain w <> None -> isPlaying w = true ->
  arpeggiatorEnabled w = true -> currentPadChordNotes w <> [] ->
  createArpeggio w = Normal tt (arpeggioStarted w).
Proof.
  intros Hc Hm Hp Ha Hne. pose proof (arpNoteAt_head _ Hne) as Hhd.
  unfold createArpeggio, playArpNote, arpeggioStarted. open_world w.
  cbn [audioContext masterGain isPlaying arpeggiatorEnabled currentPadChordNotes] in *.
  subst.
  destruct audioContext0 as [c|]; [| congruence].
  destruct masterGain0 as [g|]; [| congruence].
  destruct currentPadChordNotes0 as [|x rest]; [congruence |].
  exec. cbn [List.length Nat.eqb]. exec. rewrite Hhd. exec.
  rewrite <- !app_assoc. reflexivity.
Qed.

Lemma chordProgression_run i chord w :
  audioContext w <> None -> isPlaying w = true -> nth_error chords i = Some chord ->
  chordProgression i w
  = when (arpeggiatorEnabled w && negb (json_array_eqb (currentPadChordNotes w) chord))
      arpeggioUpdate (chordAdvanced i chord w).
Proof.
  intros Hc Hp Hi. unfold chordProgression, chordAdvanced, arpeggioUpdate. open_world w.
  cbn [audioContext isPlaying arpeggiatorEnabled currentPadChordNotes] in *. subst.
  destruct audioContext0 as [c|]; [| congruence].
  exec. unfold entry, deref. rewrite Hi. exec.
  rewrite filterM_padSweep by (simpl; discriminate).
  exec. rewrite forEach_padVoice by (simpl; discriminate).
  unfold voiced. exec.
  destruct (arpeggiatorEnabled0 && negb (json_array_eqb currentPadChordNotes0 chord));
    reflexivity.
Qed.

Lemma unitsOf_app l us vs : unitsOf l (us ++ vs) = unitsOf l us ++ unitsOf l vs.
Proof. apply filter_app. Qed.

Lemma Layer_eqb_eq a b : Layer_eqb a b = true <-> a = b.
Proof. split; [destruct a, b; (reflexivity || discriminate) | intros ->; destruct b; reflexivity]. Qed.

Lemma unitsOf_swept l us : unitsOf l (filter (notOf l) us) = [].
Proof.
  unfold unitsOf, notOf. induction us as [|u us IH]; [reflexivity |].
  cbn [filter]. destruct (Layer_eqb (type u) l) eqn:E; cbn [negb filter];
    [exact IH | rewrite E; exact IH].
Qed.

Lemma unitsOf_kept l l' us : l <> l' -> unitsOf l (filter (notOf l') us) = unitsOf l us.
Proof.
  intros Hne. unfold unitsOf, notOf. induction us as [|u us IH]; [reflexivity |].
  cbn [filter]. destruct (Layer_eqb (type u) l') eqn:E'; cbn [negb filter].
  - destruct (Layer_eqb (type u) l) eqn:E; [| exact IH].
    apply Layer_eqb_eq in E, E'. congruence.
  - rewrite IH. reflexivity.
Qed.

Lemma unitsOf_voices n chord : unitsOf pad (voiceUnits n chord) = voiceUnits n chord.
Proof.
  revert n. induction chord as [|f rest IH]; intros n; [reflexivity |].
  cbn [voiceUnits unitsOf filter type Layer_eqb]. fold (unitsOf pad (voiceUnits (5 + n) rest)).
  rewrite IH. reflexivity.
Qed.

Lemma unitsOf_voices_other l n chord : l <> pad -> unitsOf l (voiceUnits n chord) = [].
Proof.
  intros Hne. revert n. induction chord as [|f rest IH]; intros n; [reflexivity |].
  cbn [voiceUnits unitsOf filter type].
  destruct (Layer_eqb pad l) eqn:E; [apply Layer_eqb_eq in E; congruence |].
  apply IH.
Qed.

Lemma voiceUnits_length n chord : List.length (voiceUnits n chord) = 2 * List.length chord.
Proof.
  revert n. induction chord as [|f rest IH]; intros n; [reflexivity |].
  cbn [voiceUnits List.length]. rewrite IH. lia.
Qed.

Lemma sweepCmds_In l a b units u :
  In u units -> type u = l ->
  In (FadeOut (gain u) a) (sweepCmds l a b units) /\
  In (OscStop (osc u) b) (sweepCmds l a b units).
Proof.
  intros Hin Hl. unfold sweepCmds.
  split; apply in_flat_map; exists u; (split; [exact Hin |]);
    (replace (Layer_eqb (type u) l) with true
       by (symmetry; apply Layer_eqb_eq, Hl)); simpl; auto.
Qed.

Lemma voiceCmds_In n chord f :
  In f chord ->
  exists o o2, In (OscStart o pad f) (voiceCmds n chord) /\
               In (OscStart o2 pad (mul f detune)) (voiceCmds n chord).
Proof.
  revert n. induction chord as [|x rest IH]; intros n Hin; [destruct Hin |].
  destruct Hin as [-> | Hin].
  - exists n, (2 + n). cbn [voiceCmds]. split; [left | right; left]; reflexivity.
  - destruct (IH (5 + n) Hin) as (o & o2 & H1 & H2). exists o, o2.
    cbn [voiceCmds]. split; right; right; assumption.
Qed.

(** *** The heartbeat, computed *)

Lemma playSingleBeat_run w :
  audioContext w <> None -> isPlaying w = true ->
  playSingleBeat w = Normal tt (beatStarted w).
Proof.
  intros Hc Hp. unfold playSingleBeat, beatStarted. open_world w.
  cbn [audioContext isPlaying] in *. subst.
  destruct audioContext0 as [c|]; [| congruence].
  exec. reflexivity.
Qed.

Lemma playBeatPair_run w :
  audioContext w <> None -> isPlaying w = true -> heartbeatEnabled w = true ->
  playBeatPair w = Normal tt (beatPairStarted w).
Proof.
  intros Hc Hp Hh. unfold playBeatPair, beatPairStarted.
  unfold bind at 1, read. rewrite Hp, Hh.
  replace (isNull (audioContext w)) with false
    by (destruct (audioContext w); [reflexivity | congruence]).
  cbn [negb orb]. unfold bind at 1.
  rewrite playSingleBeat_run by assumption.
  unfold bind at 1.
  rewrite playSingleBeat_run by assumption.
  generalize (beatStarted (beatStarted w)). intros w2. open_world w2. reflexivity.
Qed.

Lemma playBeatPair_idle w :
  isPlaying w = false \/ audioContext w = None \/ heartbeatEnabled w = false ->
  playBeatPair w = Normal tt w.
Proof.
  intros H. unfold playBeatPair, bind, read.
  destruct H as [-> | [-> | ->]]; cbn [negb orb isNull];
    rewrite ?orb_true_r; reflexivity.
Qed.

Lemma filterM_keep_all {A} (l : list A) w : filterM l (fun _ => ret true) w = Normal l w.
Proof.
  revert w. induction l as [|x l IH]; intros w; cbn [filterM]; [reflexivity |].
  unfold bind, ret. rewrite IH. reflexivity.
Qed.

Lemma set_activeTimers_same w : set_activeTimers (activeTimers w) w = w.
Proof. destruct w; reflexivity. Qed.

Lemma heartbeatSweep_run w :
  audioContext w <> None -> heartbeatSweep w = Normal tt (heartbeatSwept w).
Proof.
  intros Hc. unfold heartbeatSweep, currentTime, bind at 1, bind at 1, deref.
  destruct (audioContext w) as [c|] eqn:Ec; [| congruence].
  unfold ret, bind at 1, read. unfold bind at 1. rewrite filterM_sweep.
  unfold bind at 1, write. unfold bind at 1, read. unfold bind at 1.
  rewrite filterM_keep_all. cbv beta iota. rewrite set_activeTimers_same. reflexivity.
Qed.

Lemma heartbeatSweep_fault w :
  audioContext w = None -> heartbeatSweep w = TypeError w.
Proof.
  intros Hc. unfold heartbeatSweep, currentTime, bind at 1, bind at 1, deref.
  rewrite Hc. reflexivity.
Qed.

Lemma toggleHeartbeat_steps w :
  toggleHeartbeat w
  = when (isPlaying w)
      (if negb (heartbeatEnabled w) then createHeartbeat else heartbeatSweep)
      (heartbeatFlipped w).
Proof. open_world w. reflexivity. Qed.

Lemma createHeartbeat_run w :
  audioContext w <> None -> masterGain w <> None -> isPlaying w = true ->
  heartbeatEnabled w = true ->
  createHeartbeat w
  = Normal tt (beatPairStarted (set_console (console w ++ [LogCreatingHeartbeat]) w)).
Proof.
  intros Hc Hm Hp Hh. unfold createHeartbeat, bind at 1, read. rewrite Hp, Hh.
  replace (isNull (audioContext w)) with false
    by (destruct (audioContext w); [reflexivity | congruence]).
  replace (isNull (masterGain w)) with false
    by (destruct (masterGain w); [reflexivity | congruence]).
  cbn [negb orb]. unfold bind at 1, log, write.
  apply playBeatPair_run; assumption.
Qed.

(** ** The registries stay tidy *)

Lemma hoare_ret {A} (P : World -> Prop) (a : A) (Q : A -> World -> Prop) :
  (forall w, P w -> Q a w) -> hoare P (ret a) Q.
Proof. intros H w b w' Hw E. inversion E. subst. auto. Qed.

Lemma hoare_bind {A B} (P : World -> Prop) (m : Js A) (R : A -> World -> Prop)
      (k : A -> Js B) (Q : B -> World -> Prop) :
  hoare P m R -> (forall a, hoare (R a) (k a) Q) -> hoare P (bind m k) Q.
Proof.
  intros Hm Hk w b w' Hw E. unfold bind in E.
  destruct (m w) as [a w1|w1] eqn:Em; [| discriminate E].
  apply (Hk a w1 b w'); [apply (Hm w a w1 Hw Em) | exact E].
Qed.

Lemma hoare_pre {A} (P P' : World -> Prop) (m : Js A) (Q : A -> World -> Prop) :
  (forall w, P w -> P' w) -> hoare P' m Q -> hoare P m Q.
Proof. intros HP Hm w a w' Hw E. apply (Hm w a w'); auto. Qed.

Lemma hoare_read {A} (P : World -> Prop) (f : World -> A) :
  hoare P (read f) (fun a w => P w /\ a = f w).
Proof. intros w a w' Hw E. inversion E. subst. auto. Qed.

Lemma hoare_write (P : World -> Prop) (f : World -> World) (Q : unit -> World -> Prop) :
  (forall w, P w -> Q tt (f w)) -> hoare P (write f) Q.
Proof. intros H w a w' Hw E. inversion E. subst. auto. Qed.

Lemma hoare_when (P : World -> Prop) (b : bool) (m : Js unit) :
  hoare P m (fun _ => P) -> hoare P (when b m) (fun _ => P).
Proof. intros H. destruct b; [exact H | apply hoare_ret; auto]. Qed.

Lemma hoare_forEach {A} (P : World -> Prop) (l : list A) (f : A -> Js unit) :
  (forall x, hoare P (f x) (fun _ => P)) -> hoare P (forEach l f) (fun _ => P).
Proof.
  intros H. induction l as [|x l IH]; cbn [forEach].
  - apply hoare_ret. auto.
  - eapply hoare_bind; [apply H | intros ?; exact IH].
Qed.

Lemma hoare_keeps {A B} (F : World -> B) (P : World -> Prop) (m : Js A) :
  (forall w w', F w' = F w -> P w -> P w') -> keeps F m -> hoare P m (fun _ => P).
Proof.
  intros HF Hk w a w' Hw E. apply (HF w); [| exact Hw].
  specialize (Hk w). rewrite E in Hk. exact Hk.
Qed.

Lemma hoare_run {A} (P : World -> Prop) (m : Js A) (Q : A -> World -> Prop) w a w' :
  hoare P m Q -> P w -> m w = Normal a w' -> Q a w'.
Proof. intros H. apply H. Qed.

Lemma Tidy_frame w w' : tidyFrame w' = tidyFrame w -> Tidy w -> Tidy w'.
Proof.
  unfold tidyFrame. intros E [H1 H2 H3 H4 H5]. inversion E as [[E1 E2 E3 E4]].
  constructor; rewrite ?E1, ?E2, ?E3, ?E4; assumption.
Qed.

Lemma Tidy_keeps {A} (m : Js A) : keeps tidyFrame m -> hoare Tidy m (fun _ => Tidy).
Proof. apply hoare_keeps, Tidy_frame. Qed.

Lemma NoDup_fst_filter {A B} (g : A * B -> bool) (l : list (A * B)) :
  NoDup (map fst l) -> NoDup (map fst (filter g l)).
Proof.
  induction l as [|p l IH]; cbn [filter map]; intros H; [exact H |].
  inversion H as [|x xs Hx Hl]; subst.
  destruct (g p); [| apply IH, Hl].
  cbn [map]. constructor; [| apply IH, Hl].
  intros Hin. apply Hx. apply in_map_iff in Hin. destruct Hin as (q & Eq & Hq).
  apply filter_In in Hq. apply in_map_iff. exists q. tauto.
Qed.

Lemma NoDup_fst_snoc {B} (l : list (nat * B)) n b :
  NoDup (map fst l) -> (forall p, In p l -> fst p < n) -> NoDup (map fst (l ++ [(n, b)])).
Proof.
  intros H Hlt. rewrite map_app. cbn [map fst].
  apply NoDup_app; [exact H | repeat constructor; intros [] |].
  intros x Hin [<- | []]. apply in_map_iff in Hin. destruct Hin as (p & Ep & Hp).
  specialize (Hlt p Hp). lia.
Qed.

Lemma unitsOf_length_filter l (f : Unit -> bool) us :
  List.length (unitsOf l (filter f us)) <= List.length (unitsOf l us).
Proof.
  unfold unitsOf. induction us as [|u us IH]; [reflexivity |].
  cbn [filter]. destruct (f u), (Layer_eqb (type u) l) eqn:E; cbn [filter List.length];
    rewrite ?E; cbn [List.length]; lia.
Qed.

(** A state whose pending timers and tracked entries are among those of
    a tidy one is tidy. *)
Lemma Tidy_shrink w w' (g : nat * Callback -> bool) (f : Unit -> bool) :
  Tidy w ->
  timerTable w' = filter g (timerTable w) ->
  nextTimerId w' = nextTimerId w ->
  incl (activeTimers w') (activeTimers w) ->
  activeOscillators w' = filter f (activeOscillators w) ->
  Tidy w'.
Proof.
  intros [H1 H2 H3 H4 H5] Et En Ea Eo. constructor; rewrite ?Et, ?En, ?Eo.
  - apply NoDup_fst_filter, H1.
  - intros p Hp. apply filter_In in Hp. apply H2, Hp.
  - intros t Ht. apply H3, Ea, Ht.
  - intros u Hu. apply filter_In in Hu. apply H4, Hu.
  - etransitivity; [apply unitsOf_length_filter | exact H5].
Qed.

Lemma Tidy_scheduled w w' cb :
  Tidy w ->
  timerTable w' = timerTable w ++ [(nextTimerId w, cb)] ->
  nextTimerId w' = S (nextTimerId w) ->
  activeTimers w' = activeTimers w ->
  activeOscillators w' = activeOscillators w ->
  Scheduled (nextTimerId w) w'.
Proof.
  intros [H1 H2 H3 H4 H5] Et En Ea Eo. split; [| lia].
  constructor; rewrite ?Et, ?En, ?Ea, ?Eo; try assumption.
  - apply NoDup_fst_snoc; assumption.
  - intros p Hp. apply in_app_or in Hp. destruct Hp as [Hp | [<- | []]].
    + specialize (H2 p Hp). lia.
    + cbn [fst]. lia.
  - intros t Ht. specialize (H3 t Ht). lia.
Qed.

Lemma Tidy_pushed w w' t :
  Scheduled (timer_id t) w ->
  tidyFrame w' = (timerTable w, nextTimerId w, activeTimers w ++ [t], activeOscillators w) ->
  Tidy w'.
Proof.
  unfold tidyFrame. intros [[H1 H2 H3 H4 H5] Hlt] E. inversion E as [[E1 E2 E3 E4]].
  constructor; rewrite ?E1, ?E2, ?E3, ?E4; try assumption.
  intros t' Ht. apply in_app_or in Ht. destruct Ht as [Ht | [<- | []]]; auto.
Qed.

Lemma Tidy_units w w' us :
  Tidy w ->
  (forall u, In u us -> type u <> bass /\ type u <> texture) ->
  tidyFrame w' = (timerTable w, nextTimerId w, activeTimers w, activeOscillators w ++ us) ->
  Tidy w'.
Proof.
  unfold tidyFrame. intros [H1 H2 H3 H4 H5] Hus E. inversion E as [[E1 E2 E3 E4]].
  constructor; rewrite ?E1, ?E2, ?E3, ?E4; try assumption.
  - intros u Hu. apply in_app_or in Hu. destruct Hu as [Hu | Hu]; [auto | apply Hus, Hu].
  - rewrite unitsOf_app, length_app.
    replace (unitsOf texture us) with (@nil Unit); [cbn [List.length]; lia |].
    symmetry. unfold unitsOf. clear E E4. induction us as [|u us IH]; [reflexivity |].
    cbn [filter]. destruct (Layer_eqb (type u) texture) eqn:Et.
    + apply Layer_eqb_eq in Et. destruct (Hus u (or_introl eq_refl)). congruence.
    + apply IH. intros v Hv. apply Hus. right. exact Hv.
Qed.

Lemma existsb_unitsOf l us :
  existsb (fun item => Layer_eqb (type item) l) us = false -> unitsOf l us = [].
Proof.
  unfold unitsOf. induction us as [|u us IH]; [reflexivity |]. cbn [existsb filter].
  intros H. apply orb_false_iff in H. destruct H as [-> H]. apply IH, H.
Qed.

Lemma Tidy_texture w w' u :
  Tidy w -> type u = texture ->
  existsb (fun item => Layer_eqb (type item) texture) (activeOscillators w) = false ->
  tidyFrame w' = (timerTable w, nextTimerId w, activeTimers w, activeOscillators w ++ [u]) ->
  Tidy w'.
Proof.
  unfold tidyFrame. intros [H1 H2 H3 H4 H5] Hu Hex E. inversion E as [[E1 E2 E3 E4]].
  constructor; rewrite ?E1, ?E2, ?E3, ?E4; try assumption.
  - intros v Hv. apply in_app_or in Hv. destruct Hv as [Hv | [<- | []]]; [auto |].
    rewrite Hu. discriminate.
  - rewrite unitsOf_app, (existsb_unitsOf _ _ Hex).
    cbn [app unitsOf filter]. rewrite Hu. reflexivity.
Qed.

Lemma Tidy_timer w cb t :
  Tidy w -> timer_id t = nextTimerId w ->
  Tidy (set_activeTimers (activeTimers w ++ [t])
          (set_nextTimerId (S (nextTimerId w))
             (set_timerTable (timerTable w ++ [(nextTimerId w, cb)]) w))).
Proof.
  intros Hw Et.
  apply (Tidy_pushed
           (set_nextTimerId (S (nextTimerId w))
              (set_timerTable (timerTable w ++ [(nextTimerId w, cb)]) w)) _ t);
    [| reflexivity].
  rewrite Et. apply (Tidy_scheduled w _ cb Hw); reflexivity.
Qed.

Lemma Tidy_setTimeout cb : hoare Tidy (setTimeout cb) (fun id => Scheduled id).
Proof.
  intros w a w' Hw E.
  assert (E' : setTimeout cb w
               = Normal (nextTimerId w)
                   (set_nextTimerId (S (nextTimerId w))
                      (set_timerTable (timerTable w ++ [(nextTimerId w, cb)]) w)))
    by reflexivity.
  rewrite E' in E. inversion E. subst a w'.
  apply (Tidy_scheduled w _ cb Hw); reflexivity.
Qed.

Lemma Tidy_pushTimer t id :
  timer_id t = id -> hoare (Scheduled id) (pushTimer t) (fun _ => Tidy).
Proof.
  intros <-. apply hoare_write. intros w Hw. apply (Tidy_pushed w _ t Hw). reflexivity.
Qed.

Lemma Tidy_pushUnit u :
  type u <> bass -> type u <> texture -> hoare Tidy (pushUnit u) (fun _ => Tidy).
Proof.
  intros Hb Ht. apply hoare_write. intros w Hw. apply (Tidy_units w _ [u] Hw).
  - intros v [<- | []]. auto.
  - reflexivity.
Qed.

Lemma Tidy_clearTimeout id : hoare Tidy (clearTimeout id) (fun _ => Tidy).
Proof.
  apply hoare_write. intros w Hw.
  apply (Tidy_shrink w _ (fun p => negb (fst p =? id)) (fun _ => true) Hw);
    try reflexivity.
  - apply incl_refl.
  - cbn [activeOscillators]. symmetry. apply filter_true.
Qed.

Lemma Tidy_cleanup o : hoare Tidy (cleanup o) (fun _ => Tidy).
Proof.
  apply hoare_write. intros w Hw.
  apply (Tidy_shrink w _ (fun _ => true) (fun item => negb (osc item =? o)) Hw);
    try reflexivity.
  - symmetry. apply filter_true.
  - apply incl_refl.
Qed.

Create HintDb tidy.
#[local] Hint Resolve Tidy_clearTimeout Tidy_cleanup : tidy.

(** One step of a run through code that keeps the registries tidy. *)
Ltac tidy :=
  cbv beta zeta;
  lazymatch goal with
  | |- hoare _ (bind (setTimeout _) _) _ =>
      eapply hoare_bind; [apply Tidy_setTimeout | intros ?; tidy]
  | |- hoare (Scheduled _) (bind (pushTimer _) _) _ =>
      eapply hoare_bind; [apply Tidy_pushTimer; reflexivity | intros ?; tidy]
  | |- hoare (Scheduled _) (pushTimer _) _ => apply Tidy_pushTimer; reflexivity
  | |- hoare _ (bind _ _) _ => eapply hoare_bind; [tidy | intros ?; tidy]
  | |- hoare _ (ret _) _ => apply hoare_ret; auto
  | |- hoare _ (when _ _) _ => apply hoare_when; tidy
  | |- hoare _ (if ?b then _ else _) _ => destruct b; tidy
  | |- hoare _ (match ?x with _ => _ end) _ => destruct x; tidy
  | |- hoare _ (forEach _ _) _ => apply hoare_forEach; intros ?; tidy
  | |- hoare _ (pushUnit _) _ => apply Tidy_pushUnit; discriminate
  | |- _ => first [ apply Tidy_keeps; solve [keeps_all] | solve [eauto with tidy] ]
  end.

Lemma Tidy_playArpNote arpNotes i : hoare Tidy (playArpNote arpNotes i) (fun _ => Tidy).
Proof. unfold playArpNote. tidy. Qed.

Lemma Tidy_createArpeggio : hoare Tidy createArpeggio (fun _ => Tidy).
Proof.
  unfold createArpeggio. eapply hoare_bind; [apply Tidy_keeps; keeps_all | intros w0].
  destruct (_ || _); [apply hoare_ret; auto |].
  eapply hoare_bind; [apply Tidy_keeps; keeps_all | intros ?]. apply Tidy_playArpNote.
Qed.

Lemma Tidy_stoppedArpeggio w : Tidy w -> Tidy (stoppedArpeggio w).
Proof.
  intros Hw.
  apply (Tidy_shrink w _ (fun p => negb (arpCleared (activeTimers w) (fst p)))
           (notOf arpeggio) Hw); try reflexivity.
  intros t Ht. cbn in Ht. apply filter_In in Ht. apply Ht.
Qed.

Lemma Tidy_stopArpeggioSequence : hoare Tidy stopArpeggioSequence (fun _ => Tidy).
Proof.
  intros w a w' Hw E. destruct (audioContext w) eqn:Ec.
  - rewrite stopArpeggioSequence_run in E by congruence. inversion E.
    apply Tidy_stoppedArpeggio, Hw.
  - destruct (stopArpeggioSequence_fault w Ec) as (w1 & E1). rewrite E1 in E. discriminate E.
Qed.

#[local] Hint Resolve Tidy_createArpeggio Tidy_stopArpeggioSequence : tidy.

Lemma voiceUnits_types n chord u : In u (voiceUnits n chord) -> type u = pad.
Proof.
  revert n. induction chord as [|f rest IH]; intros n Hin; [destruct Hin |].
  cbn [voiceUnits] in Hin. destruct Hin as [<- | [<- | Hin]]; try reflexivity.
  apply (IH _ Hin).
Qed.

Lemma Tidy_chordAdvanced i chord w : Tidy w -> Tidy (chordAdvanced i chord w).
Proof.
  intros Hw. unfold chordAdvanced.
  match goal with
  | |- Tidy (set_activeTimers _ (set_nextTimerId _ (set_timerTable _ ?w3))) =>
      assert (H3 : Tidy w3)
  end.
  { match goal with
    | |- Tidy (set_console _ (voiced _ ?w2)) => assert (H2 : Tidy w2)
    end.
    { apply (Tidy_shrink w _ (fun _ => true) (notOf pad) Hw); try reflexivity.
      - symmetry. apply filter_true.
      - apply incl_refl. }
    eapply (Tidy_units _ _ (voiceUnits _ chord) H2); [| reflexivity].
    intros u Hu. rewrite (voiceUnits_types _ _ _ Hu). split; discriminate. }
  match goal with
  | |- Tidy (set_activeTimers _ (set_nextTimerId _ (set_timerTable _ ?w3))) =>
      exact (Tidy_timer w3 _ (TimerId (nextTimerId w)) H3 eq_refl)
  end.
Qed.

Lemma Tidy_chordProgression i : hoare Tidy (chordProgression i) (fun _ => Tidy).
Proof.
  intros w a w' Hw E.
  destruct (negb (isPlaying w) || isNull (audioContext w)) eqn:Eg.
  - unfold chordProgression, bind at 1, read in E. rewrite Eg in E. inversion E.
    subst. exact Hw.
  - apply orb_false_iff in Eg. destruct Eg as [Ep Ec]. apply negb_false_iff in Ep.
    assert (Hc : audioContext w <> None) by (destruct (audioContext w); [discriminate | discriminate Ec]).
    destruct (nth_error chords i) as [chord|] eqn:Ei.
    + rewrite (chordProgression_run i chord w Hc Ep Ei) in E.
      refine (hoare_run Tidy _ (fun _ => Tidy) _ a w' _ _ E);
        [| apply Tidy_chordAdvanced, Hw].
      apply hoare_when. unfold arpeggioUpdate. tidy.
    + exfalso. unfold chordProgression, bind at 1, read in E.
      rewrite Ep in E. destruct (audioContext w); [| congruence].
      cbn [negb isNull orb] in E. unfold bind at 1, entry, deref in E.
      rewrite Ei in E. discriminate E.
Qed.

#[local] Hint Resolve Tidy_chordProgression : tidy.

Lemma Tidy_createPad e : hoare Tidy (createPad e) (fun _ => Tidy).
Proof. unfold createPad. tidy. Qed.

Lemma Tidy_playBassNote i : hoare Tidy (playBassNote i) (fun _ => Tidy).
Proof. unfold playBassNote. tidy. Qed.

Lemma Tidy_createBassline e : hoare Tidy (createBassline e) (fun _ => Tidy).
Proof. unfold createBassline. tidy. Qed.

Lemma Tidy_melodyNote freq : hoare Tidy (melodyNote freq) (fun _ => Tidy).
Proof. unfold melodyNote. tidy. Qed.

Lemma Tidy_playPhrase i : hoare Tidy (playPhrase i) (fun _ => Tidy).
Proof. unfold playPhrase. tidy. Qed.

Lemma Tidy_createMelody e : hoare Tidy (createMelody e) (fun _ => Tidy).
Proof. unfold createMelody. tidy. Qed.

Lemma createTexture_cases w :
  createTexture w
  = Normal tt
      (if isNull (audioContext w) || isNull (masterGain w) || negb (isPlaying w)
          || existsb (fun item => Layer_eqb (type item) texture) (activeOscillators w)
       then w else textureStarted w).
Proof.
  unfold createTexture, textureStarted. open_world w.
  destruct audioContext0 as [c|], masterGain0 as [g|], isPlaying0; exec; try reflexivity.
  destruct (existsb _ activeOscillators0); exec; reflexivity.
Qed.

Lemma Tidy_createTexture : hoare Tidy createTexture (fun _ => Tidy).
Proof.
  intros w a w' Hw E. rewrite createTexture_cases in E. inversion E. clear E.
  destruct (isNull (audioContext w) || isNull (masterGain w) || negb (isPlaying w));
    cbn [orb]; [exact Hw |].
  destruct (existsb _ (activeOscillators w)) eqn:Et; [exact Hw |].
  eapply (Tidy_texture w _ _ Hw); [| exact Et | reflexivity]. reflexivity.
Qed.

Lemma Tidy_playSingleBeat : hoare Tidy playSingleBeat (fun _ => Tidy).
Proof. unfold playSingleBeat. tidy. Qed.

#[local] Hint Resolve Tidy_playSingleBeat : tidy.

Lemma Tidy_playBeatPair : hoare Tidy playBeatPair (fun _ => Tidy).
Proof. unfold playBeatPair. tidy. Qed.

#[local] Hint Resolve Tidy_playBeatPair : tidy.

Lemma Tidy_createHeartbeat : hoare Tidy createHeartbeat (fun _ => Tidy).
Proof. unfold createHeartbeat. tidy. Qed.

#[local] Hint Resolve Tidy_createPad Tidy_createBassline Tidy_createTexture
  Tidy_createMelody Tidy_createHeartbeat Tidy_playBassNote Tidy_playPhrase
  Tidy_melodyNote Tidy_playArpNote : tidy.

Lemma Tidy_run cb : hoare Tidy (run cb) (fun _ => Tidy).
Proof. destruct cb; cbn [run]; eauto with tidy. Qed.

#[local] Hint Resolve Tidy_run : tidy.

Lemma Tidy_fire id : hoare Tidy (fire id) (fun _ => Tidy).
Proof. unfold fire. tidy. Qed.

Lemma Tidy_heartbeatSweep : hoare Tidy heartbeatSweep (fun _ => Tidy).
Proof.
  intros w a w' Hw E. destruct (audioContext w) eqn:Ec.
  - rewrite heartbeatSweep_run in E by congruence. inversion E.
    apply (Tidy_shrink w _ (fun _ => true) (notOf heartbeat) Hw); try reflexivity.
    + symmetry. apply filter_true.
    + apply incl_refl.
  - rewrite heartbeatSweep_fault in E by exact Ec. discriminate E.
Qed.

Lemma Tidy_toggleHeartbeat : hoare Tidy toggleHeartbeat (fun _ => Tidy).
Proof.
  intros w a w' Hw E. rewrite toggleHeartbeat_steps in E.
  refine (hoare_run Tidy _ (fun _ => Tidy) _ a w' _ _ E).
  - apply hoare_when. destruct (negb (heartbeatEnabled w));
      [apply Tidy_createHeartbeat | apply Tidy_heartbeatSweep].
  - apply (Tidy_frame w); [reflexivity | exact Hw].
Qed.

Lemma Tidy_toggleArpeggiator : hoare Tidy toggleArpeggiator (fun _ => Tidy).
Proof. unfold toggleArpeggiator. tidy. Qed.

Lemma filter_false {A} (l : list A) : filter (fun _ => false) l = [].
Proof. induction l; [reflexivity | assumption]. Qed.

Lemma Tidy_stopAmbient : hoare Tidy stopAmbient (fun _ => Tidy).
Proof.
  intros w a w' Hw E.
  destruct (audioContext w) eqn:Ec; [destruct (isPlaying w) eqn:Ep |].
  - rewrite stopAmbient_run in E by congruence. inversion E.
    apply (Tidy_shrink w _ (fun p => negb (stopCleared (activeTimers w) (fst p)))
             (fun _ => false) Hw); try reflexivity.
    + intros t [].
    + symmetry. apply filter_false.
  - rewrite stopAmbient_idle in E by (right; exact Ep). inversion E. subst. exact Hw.
  - rewrite stopAmbient_idle in E by (left; exact Ec). inversion E. subst. exact Hw.
Qed.

Lemma Tidy_startLayers e : hoare Tidy (startLayers e) (fun _ => Tidy).
Proof. unfold startLayers. tidy. Qed.

#[local] Hint Resolve Tidy_startLayers Tidy_toggleHeartbeat Tidy_toggleArpeggiator
  Tidy_stopAmbient Tidy_fire : tidy.

Lemma Tidy_startAmbient e : hoare Tidy (startAmbient e) (fun _ => Tidy).
Proof. unfold startAmbient. tidy. Qed.

Lemma Tidy_resumeSettled e resolved : hoare Tidy (resumeSettled e resolved) (fun _ => Tidy).
Proof. unfold resumeSettled. tidy. Qed.

Lemma Tidy_ifBooleanDiffers v current toggle :
  hoare Tidy toggle (fun _ => Tidy) ->
  hoare Tidy (ifBooleanDiffers v current toggle) (fun _ => Tidy).
Proof. intros H. unfold ifBooleanDiffers. tidy. Qed.

#[local] Hint Resolve Tidy_ifBooleanDiffers Tidy_startAmbient Tidy_resumeSettled : tidy.

Lemma Tidy_applySettings e settings : hoare Tidy (applySettings e settings) (fun _ => Tidy).
Proof. unfold applySettings. tidy. Qed.

#[local] Hint Resolve Tidy_applySettings : tidy.

Lemma Tidy_perform e a : hoare Tidy (perform e a) (fun _ => Tidy).
Proof. destruct a; cbn [perform]; tidy. Qed.

Lemma Tidy_loaded muted volume : Tidy (loaded muted volume).
Proof.
  constructor; cbn [loaded timerTable nextTimerId activeTimers activeOscillators map
                    unitsOf filter List.length]; try (intros ? []); auto. constructor.
Qed.

Lemma reachableIn_Tidy envOk volumeOk w : reachableIn envOk volumeOk w -> Tidy w.
Proof.
  induction 1 as [muted volume Hv | w e a Hr IH He].
  - apply Tidy_loaded.
  - destruct (Inv_perform e a w (reachableIn_Inv _ _ _ Hr)) as (r & w' & E & _).
    rewrite E. cbn [world_of]. apply (Tidy_perform e a w r w' IH E).
Qed.

(** In every state the engine reaches, no bass oscillator is among the
    tracked units -- [playBassNote] starts its oscillators without
    entering them in [activeOscillators], so neither [stopAmbient] nor
    any sweep fades them -- and at most one texture source is tracked. *)
Theorem tracked_units_shape (w : World) :
  reachable w ->
  (forall u, In u (activeOscillators w) -> type u <> bass) /\
  List.length (unitsOf texture (activeOscillators w)) <= 1.
Proof.
  intros Hr. destruct (reachableIn_Tidy _ _ _ Hr) as [_ _ _ H4 H5]. auto.
Qed.

Lemma tracked_units_shape_witness :
  reachable playingWorld /\
  (forall u, In u (activeOscillators playingWorld) -> type u <> bass) /\
  List.length (unitsOf texture (activeOscillators playingWorld)) <= 1.
Proof.
  split; [apply reachable_playingWorld |].
  apply (tracked_units_shape playingWorld), reachable_playingWorld.
Defined.

(** *** A pending timer fires as its callback *)

Lemma find_unique {B} (l : list (nat * B)) id b :
  NoDup (map fst l) -> In (id, b) l -> find (fun p => fst p =? id) l = Some (id, b).
Proof.
  induction l as [|p l IH]; intros Hnd Hin; [destruct Hin |].
  cbn [map] in Hnd. inversion Hnd as [|x xs Hx Hl]; subst.
  cbn [find]. destruct Hin as [-> | Hin].
  - cbn [fst]. rewrite Nat.eqb_refl. reflexivity.
  - destruct (fst p =? id) eqn:E; [| apply IH; assumption].
    apply Nat.eqb_eq in E. exfalso. apply Hx. rewrite E.
    apply in_map_iff. exists (id, b). auto.
Qed.

Lemma pending_fires w id cb :
  Tidy w -> In (id, cb) (timerTable w) -> fire id w = (clearTimeout id ;; run cb) w.
Proof.
  intros Hw Hin. unfold fire, bind at 1, read.
  rewrite (find_unique _ id cb (tidy_ids w Hw) Hin). reflexivity.
Qed.

(** *** The pad's voices *)

Ltac by_projection := intros; reflexivity.

Lemma chordAdvanced_units i chord w :
  activeOscillators (chordAdvanced i chord w)
  = filter (notOf pad) (activeOscillators w) ++ voiceUnits (nextNode w) chord.
Proof. by_projection. Qed.

Lemma chordAdvanced_audioLog i chord w :
  audioLog (chordAdvanced i chord w)
  = (audioLog w ++ sweepCmds pad 4000 4100 (activeOscillators w))
    ++ voiceCmds (nextNode w) chord.
Proof. by_projection. Qed.

Lemma chordAdvanced_timerTable i chord w :
  timerTable (chordAdvanced i chord w)
  = timerTable w ++ [(nextTimerId w, cbChordProgression ((i + 1) mod List.length chords))].
Proof. by_projection. Qed.

Lemma chordAdvanced_activeTimers i chord w :
  activeTimers (chordAdvanced i chord w) = activeTimers w ++ [TimerId (nextTimerId w)].
Proof. by_projection. Qed.

Lemma stoppedArpeggio_units w :
  activeOscillators (stoppedArpeggio w) = filter (notOf arpeggio) (activeOscillators w).
Proof. by_projection. Qed.

Lemma stoppedArpeggio_audioLog w :
  audioLog (stoppedArpeggio w)
  = audioLog w ++ sweepCmds arpeggio 100 200 (activeOscillators w).
Proof. by_projection. Qed.

Lemma stoppedArpeggio_timerTable w :
  timerTable (stoppedArpeggio w)
  = filter (fun p => negb (arpCleared (activeTimers w) (fst p))) (timerTable w).
Proof. by_projection. Qed.

Lemma arpeggioStarted_units w :
  activeOscillators (arpeggioStarted w)
  = activeOscillators w ++ [mkUnit (nextNode w) (S (nextNode w)) arpeggio].
Proof. by_projection. Qed.

Lemma arpeggioStarted_audioLog w :
  audioLog (arpeggioStarted w)
  = audioLog w ++ [OscStart (nextNode w) arpeggio (nth 0 (currentPadChordNotes w) NaN)].
Proof. by_projection. Qed.

Lemma arpeggioStarted_timerTable w :
  timerTable (arpeggioStarted w)
  = timerTable w ++ [(nextTimerId w, cbCleanup arpeggio (nextNode w));
                     (S (nextTimerId w),
                      cbPlayArpNote (arpNotesOf (currentPadChordNotes w)) 1)].
Proof. by_projection. Qed.

Lemma set_console_units c w : activeOscillators (set_console c w) = activeOscillators w.
Proof. by_projection. Qed.

Lemma set_console_audioLog c w : audioLog (set_console c w) = audioLog w.
Proof. by_projection. Qed.

Lemma set_console_timerTable c w : timerTable (set_console c w) = timerTable w.
Proof. by_projection. Qed.

Lemma set_console_activeTimers c w : activeTimers (set_console c w) = activeTimers w.
Proof. by_projection. Qed.

Lemma guard_chordAdvanced i chord w :
  guardFrame (chordAdvanced i chord w)
  = (audioContext w, masterGain w, isPlaying w, arpeggiatorEnabled w, heartbeatEnabled w,
     chord).
Proof. by_projection. Qed.

Lemma guard_stoppedArpeggio w : guardFrame (stoppedArpeggio w) = guardFrame w.
Proof. by_projection. Qed.

Lemma guard_arpeggioStarted w : guardFrame (arpeggioStarted w) = guardFrame w.
Proof. by_projection. Qed.

Lemma guard_set_console c w : guardFrame (set_console c w) = guardFrame w.
Proof. by_projection. Qed.

Lemma createArpeggio_guarded w c m h chord :
  guardFrame w = (Some c, Some m, true, true, h, chord) -> chord <> [] ->
  createArpeggio w = Normal tt (arpeggioStarted w).
Proof.
  unfold guardFrame. intros E Hne. inversion E as [[E1 E2 E3 E4 E5 E6]].
  apply createArpeggio_run; congruence.
Qed.

Lemma arpeggioUpdate_guarded w1 c m h chord :
  guardFrame w1 = (Some c, Some m, true, true, h, chord) -> chord <> [] ->
  arpeggioUpdate w1
  = Normal tt (arpeggioStarted
                 (stoppedArpeggio (set_console (console w1 ++ [LogChordChanged]) w1))).
Proof.
  intros Eg Hne. unfold arpeggioUpdate.
  rewrite (bind_step (log LogChordChanged) _ w1 tt
             (set_console (console w1 ++ [LogChordChanged]) w1) eq_refl).
  assert (Hc : audioContext (set_console (console w1 ++ [LogChordChanged]) w1) <> None).
  { unfold guardFrame in Eg. inversion Eg as [[E1 E2 E3 E4 E5 E6]].
    cbn [audioContext set_console]. congruence. }
  rewrite (bind_step stopArpeggioSequence _ _ tt _ (stopArpeggioSequence_run _ Hc)).
  apply (createArpeggio_guarded _ c m h chord); [| exact Hne].
  rewrite guard_stoppedArpeggio, guard_set_console. exact Eg.
Qed.

Lemma arpeggioUpdate_run i chord w :
  audioContext w <> None -> masterGain w <> None -> isPlaying w = true ->
  arpeggiatorEnabled w = true -> chord <> [] ->
  arpeggioUpdate (chordAdvanced i chord w) = Normal tt (arpeggioUpdated i chord w).
Proof.
  intros Hc Hm Hp Ha Hne.
  pose proof (guard_chordAdvanced i chord w) as Eg. rewrite Hp, Ha in Eg.
  destruct (audioContext w) as [c|] eqn:Ec; [| congruence].
  destruct (masterGain w) as [m|] eqn:Em; [| congruence].
  apply (arpeggioUpdate_guarded _ c m (heartbeatEnabled w) chord Eg Hne).
Qed.

Lemma fresh_not_cleared w n :
  (forall t, In t (activeTimers w) -> timer_id t < n) ->
  arpCleared (activeTimers w ++ [TimerId n]) n = false.
Proof.
  intros Hlt. unfold arpCleared. rewrite existsb_app. cbn [existsb isArpTimer andb orb].
  rewrite orb_false_r. apply not_true_is_false. intros Hex.
  apply existsb_exists in Hex. destruct Hex as (t & Hin & Ht).
  apply andb_true_iff in Ht. destruct Ht as [_ Ht]. apply Nat.eqb_eq in Ht.
  specialize (Hlt t Hin). lia.
Qed.



Lemma chordAdvanced_console i chord w :
  console (chordAdvanced i chord w) = console w ++ [LogNextPadChange].
Proof. by_projection. Qed.



(** ** The heartbeat toggle *)

Lemma heartbeatFlipped_frame w :
  audioContext (heartbeatFlipped w) = audioContext w /\
  masterGain (heartbeatFlipped w) = masterGain w /\
  isPlaying (heartbeatFlipped w) = isPlaying w /\
  heartbeatEnabled (heartbeatFlipped w) = negb (heartbeatEnabled w) /\
  timerTable (heartbeatFlipped w) = timerTable w /\
  nextTimerId (heartbeatFlipped w) = nextTimerId w /\
  activeTimers (heartbeatFlipped w) = activeTimers w /\
  activeOscillators (heartbeatFlipped w) = activeOscillators w /\
  audioLog (heartbeatFlipped w) = audioLog w /\
  nextNode (heartbeatFlipped w) = nextNode w.
Proof. repeat split. Qed.

Lemma heartbeatSwept_frame w :
  heartbeatEnabled (heartbeatSwept w) = heartbeatEnabled w /\
  activeTimers (heartbeatSwept w) = activeTimers w /\
  timerTable (heartbeatSwept w) = timerTable w /\
  audioContext (heartbeatSwept w) = audioContext w /\
  isPlaying (heartbeatSwept w) = isPlaying w.
Proof. repeat split. Qed.

Lemma heartbeatSwept_units w :
  activeOscillators (heartbeatSwept w) = filter (notOf heartbeat) (activeOscillators w).
Proof. by_projection. Qed.

Lemma heartbeatSwept_audioLog w :
  audioLog (heartbeatSwept w)
  = audioLog w ++ sweepCmds heartbeat 100 200 (activeOscillators w).
Proof. by_projection. Qed.

Lemma toggleHeartbeat_off_run w :
  audioContext w <> None -> isPlaying w = true -> heartbeatEnabled w = true ->
  toggleHeartbeat w = Normal tt (heartbeatSwept (heartbeatFlipped w)).
Proof.
  intros Hc Hp Hh. rewrite toggleHeartbeat_steps, Hp, Hh. cbn [negb when].
  apply heartbeatSweep_run.
  destruct (heartbeatFlipped_frame w) as (E1 & _). rewrite E1. exact Hc.
Qed.

(** [toggleHeartbeat], disabling the heartbeat during playback, fades
    the heartbeat units over 0.1 s, stops them at 0.2 s and drops them,
    and leaves every other unit in place.  It cancels no timer: what was
    pending stays pending, a beat pair included; but once the heartbeat
    is disabled, a pending beat pair that fires plays nothing and
    schedules nothing. *)
Theorem toggle_off_silences_heartbeat (w : World) :
  reachable w -> isPlaying w = true -> heartbeatEnabled w = true ->
  exists w',
    toggleHeartbeat w = Normal tt w' /\
    heartbeatEnabled w' = false /\
    activeOscillators w' = filter (notOf heartbeat) (activeOscillators w) /\
    audioLog w' = audioLog w ++ sweepCmds heartbeat 100 200 (activeOscillators w) /\
    activeTimers w' = activeTimers w /\
    timerTable w' = timerTable w /\
    (forall id, In (id, cbPlayBeatPair) (timerTable w') ->
                fire id w'
                = Normal tt (set_timerTable
                               (filter (fun p => negb (fst p =? id)) (timerTable w')) w')).
Proof.
  intros Hr Hp Hh. pose proof (reachableIn_Inv _ _ _ Hr) as H.
  pose proof (reachableIn_Tidy _ _ _ Hr) as Ht.
  pose proof (inv_playing H Hp) as Hc.
  pose proof (toggleHeartbeat_off_run w Hc Hp Hh) as E.
  exists (heartbeatSwept (heartbeatFlipped w)). split; [exact E |].
  destruct (heartbeatSwept_frame (heartbeatFlipped w)) as (F1 & F2 & F3 & F4 & F5).
  destruct (heartbeatFlipped_frame w) as (G1 & G2 & G3 & G4 & G5 & G6 & G7 & G8 & G9 & G10).
  rewrite heartbeatSwept_units, heartbeatSwept_audioLog.
  rewrite F1, F2, F3, G4, G5, G7, G8, G9, Hh.
  split; [reflexivity |]. split; [reflexivity |]. split; [reflexivity |].
  split; [reflexivity |]. split; [reflexivity |].
  intros id Hin.
  assert (Ht' : Tidy (heartbeatSwept (heartbeatFlipped w)))
    by (apply (Tidy_toggleHeartbeat w tt _ Ht E)).
  rewrite <- G5, <- F3 in Hin.
  rewrite (pending_fires _ id cbPlayBeatPair Ht' Hin).
  unfold bind, clearTimeout, write. cbn [run].
  rewrite playBeatPair_idle; [rewrite F3, G5; reflexivity |].
  right. right. cbn [heartbeatEnabled set_timerTable]. rewrite F1, G4, Hh. reflexivity.
Qed.

Lemma reachable_heartWorld : reachable heartWorld.
Proof. repeat (apply reach_step; [| exact I]). apply reachable_freshPage. Qed.

Lemma toggle_off_silences_heartbeat_witness :
  reachable heartWorld /\ isPlaying heartWorld = true /\
  heartbeatEnabled heartWorld = true /\
  exists w',
    toggleHeartbeat heartWorld = Normal tt w' /\
    heartbeatEnabled w' = false /\
    activeOscillators w' = filter (notOf heartbeat) (activeOscillators heartWorld) /\
    audioLog w'
    = audioLog heartWorld ++ sweepCmds heartbeat 100 200 (activeOscillators heartWorld) /\
    activeTimers w' = activeTimers heartWorld /\
    timerTable w' = timerTable heartWorld /\
    (forall id, In (id, cbPlayBeatPair) (timerTable w') ->
                fire id w'
                = Normal tt (set_timerTable
                               (filter (fun p => negb (fst p =? id)) (timerTable w')) w')).
Proof.
  split; [apply reachable_heartWorld |]. split; [reflexivity |]. split; [reflexivity |].
  apply (toggle_off_silences_heartbeat heartWorld);
    [apply reachable_heartWorld | reflexivity | reflexivity].
Defined.

Lemma beatPairStarted_frame w :
  heartbeatEnabled (beatPairStarted w) = heartbeatEnabled w /\
  isPlaying (beatPairStarted w) = isPlaying w /\
  audioLog (beatPairStarted w)
  = audioLog w ++ [OscStart (nextNode w) heartbeat baseFreq;
                   OscStart (2 + nextNode w) heartbeat baseFreq] /\
  activeOscillators (beatPairStarted w)
  = activeOscillators w ++ [mkUnit (nextNode w) (S (nextNode w)) heartbeat;
                            mkUnit (2 + nextNode w) (3 + nextNode w) heartbeat] /\
  timerTable (beatPairStarted w)
  = timerTable w ++ [(nextTimerId w, cbCleanup heartbeat (nextNode w));
                     (S (nextTimerId w), cbCleanup heartbeat (2 + nextNode w));
                     (S (S (nextTimerId w)), cbPlayBeatPair)].
Proof.
  open_world w. unfold beatPairStarted, beatStarted. world.
  rewrite <- !app_assoc. repeat split.
Qed.

Lemma toggleHeartbeat_on_run w :
  audioContext w <> None -> masterGain w <> None -> isPlaying w = true ->
  heartbeatEnabled w = false ->
  toggleHeartbeat w
  = Normal tt (beatPairStarted
                 (set_console (console (heartbeatFlipped w) ++ [LogCreatingHeartbeat])
                    (heartbeatFlipped w))).
Proof.
  intros Hc Hm Hp Hh. rewrite toggleHeartbeat_steps, Hp, Hh. cbn [negb when].
  destruct (heartbeatFlipped_frame w) as (E1 & E2 & E3 & E4 & _).
  apply createHeartbeat_run; rewrite ?E1, ?E2, ?E3, ?E4, ?Hh; auto.
Qed.

Lemma pendingBeatPairs_snoc (table : list (nat * Callback)) a b c :
  isBeatPair a = false -> isBeatPair b = false -> isBeatPair c = true ->
  List.length (filter isBeatPair (table ++ [a; b; c]))
  = S (List.length (filter isBeatPair table)).
Proof.
  intros Ha Hb Hc. rewrite filter_app, length_app. cbn [filter].
  rewrite Ha, Hb, Hc. cbn [List.length]. lia.
Qed.

(** The facts about the state [toggleHeartbeat] leaves when it enables
    the heartbeat during playback. *)
Lemma toggleHeartbeat_on_facts w :
  audioContext w <> None -> masterGain w <> None -> isPlaying w = true ->
  heartbeatEnabled w = false ->
  exists w',
    toggleHeartbeat w = Normal tt w' /\
    heartbeatEnabled w' = true /\
    isPlaying w' = true /\
    audioLog w'
    = audioLog w ++ [OscStart (nextNode w) heartbeat baseFreq;
                     OscStart (2 + nextNode w) heartbeat baseFreq] /\
    activeOscillators w'
    = activeOscillators w ++ [mkUnit (nextNode w) (S (nextNode w)) heartbeat;
                              mkUnit (2 + nextNode w) (3 + nextNode w) heartbeat] /\
    timerTable w'
    = timerTable w ++ [(nextTimerId w, cbCleanup heartbeat (nextNode w));
                       (S (nextTimerId w), cbCleanup heartbeat (2 + nextNode w));
                       (S (S (nextTimerId w)), cbPlayBeatPair)] /\
    pendingBeatPairs w' = S (pendingBeatPairs w).
Proof.
  intros Hc Hm Hp Hh. eexists. split; [apply toggleHeartbeat_on_run; assumption |].
  destruct (beatPairStarted_frame
              (set_console (console (heartbeatFlipped w) ++ [LogCreatingHeartbeat])
                 (heartbeatFlipped w))) as (B1 & B2 & B3 & B4 & B5).
  destruct (heartbeatFlipped_frame w) as (G1 & G2 & G3 & G4 & G5 & G6 & G7 & G8 & G9 & G10).
  unfold pendingBeatPairs. rewrite B1, B2, B3, B4, B5.
  cbn [heartbeatEnabled isPlaying audioLog activeOscillators timerTable nextNode
       nextTimerId set_console].
  rewrite G3, G4, G5, G6, G8, G9, G10, Hh, Hp.
  repeat (split; [reflexivity |]).
  apply pendingBeatPairs_snoc; reflexivity.
Qed.

(** [toggleHeartbeat], enabling the heartbeat during playback, plays a
    pair of beats at once -- two oscillators at 60 Hz, tracked with
    their self-cleanups -- and schedules the next pair.  It cancels
    nothing: a beat pair still pending from before stays pending beside
    the new one. *)
Theorem toggle_on_starts_heartbeat (w : World) :
  reachable w -> isPlaying w = true -> heartbeatEnabled w = false ->
  exists w',
    toggleHeartbeat w = Normal tt w' /\
    heartbeatEnabled w' = true /\
    audioLog w'
    = audioLog w ++ [OscStart (nextNode w) heartbeat baseFreq;
                     OscStart (2 + nextNode w) heartbeat baseFreq] /\
    activeOscillators w'
    = activeOscillators w ++ [mkUnit (nextNode w) (S (nextNode w)) heartbeat;
                              mkUnit (2 + nextNode w) (3 + nextNode w) heartbeat] /\
    timerTable w'
    = timerTable w ++ [(nextTimerId w, cbCleanup heartbeat (nextNode w));
                       (S (nextTimerId w), cbCleanup heartbeat (2 + nextNode w));
                       (S (S (nextTimerId w)), cbPlayBeatPair)] /\
    pendingBeatPairs w' = S (pendingBeatPairs w).
Proof.
  intros Hr Hp Hh. pose proof (reachableIn_Inv _ _ _ Hr) as H.
  pose proof (inv_playing H Hp) as Hc. destruct (inv_nodes H Hc) as [Hm _].
  destruct (toggleHeartbeat_on_facts w Hc Hm Hp Hh)
    as (w' & E & F1 & F2 & F3 & F4 & F5 & F6).
  exists w'. auto 10.
Qed.

Lemma toggle_on_starts_heartbeat_witness :
  reachable playingWorld /\ isPlaying playingWorld = true /\
  heartbeatEnabled playingWorld = false /\
  exists w',
    toggleHeartbeat playingWorld = Normal tt w' /\
    heartbeatEnabled w' = true /\
    audioLog w'
    = audioLog playingWorld ++ [OscStart (nextNode playingWorld) heartbeat baseFreq;
                                OscStart (2 + nextNode playingWorld) heartbeat baseFreq] /\
    activeOscillators w'
    = activeOscillators playingWorld
      ++ [mkUnit (nextNode playingWorld) (S (nextNode playingWorld)) heartbeat;
          mkUnit (2 + nextNode playingWorld) (3 + nextNode playingWorld) heartbeat] /\
    timerTable w'
    = timerTable playingWorld
      ++ [(nextTimerId playingWorld, cbCleanup heartbeat (nextNode playingWorld));
          (S (nextTimerId playingWorld),
           cbCleanup heartbeat (2 + nextNode playingWorld));
          (S (S (nextTimerId playingWorld)), cbPlayBeatPair)] /\
    pendingBeatPairs w' = S (pendingBeatPairs playingWorld).
Proof.
  split; [apply reachable_playingWorld |]. split; [reflexivity |]. split; [reflexivity |].
  apply (toggle_on_starts_heartbeat playingWorld);
    [apply reachable_playingWorld | reflexivity | reflexivity].
Defined.

(** The heartbeat disabled and enabled again during playback, before a
    pending beat pair has fired, runs twice: the toggles complete, the
    heartbeat is enabled, and one more beat pair is pending than
    before. *)
Theorem heartbeat_retoggled_runs_twice (w : World) :
  reachable w -> isPlaying w = true -> heartbeatEnabled w = true ->
  exists w1 w2,
    toggleHeartbeat w = Normal tt w1 /\
    toggleHeartbeat w1 = Normal tt w2 /\
    heartbeatEnabled w2 = true /\
    pendingBeatPairs w2 = S (pendingBeatPairs w).
Proof.
  intros Hr Hp Hh. pose proof (reachableIn_Inv _ _ _ Hr) as H.
  pose proof (inv_playing H Hp) as Hc. destruct (inv_nodes H Hc) as [Hm _].
  pose proof (toggleHeartbeat_off_run w Hc Hp Hh) as E1.
  destruct (heartbeatSwept_frame (heartbeatFlipped w)) as (F1 & F2 & F3 & F4 & F5).
  destruct (heartbeatFlipped_frame w) as (G1 & G2 & G3 & G4 & G5 & _).
  assert (Hm1 : masterGain (heartbeatSwept (heartbeatFlipped w)) <> None)
    by (cbn [masterGain heartbeatSwept set_activeOscillators set_audioLog];
        rewrite G2; exact Hm).
  assert (Hc1 : audioContext (heartbeatSwept (heartbeatFlipped w)) <> None)
    by (rewrite F4, G1; exact Hc).
  assert (Hp1 : isPlaying (heartbeatSwept (heartbeatFlipped w)) = true)
    by (rewrite F5, G3; exact Hp).
  assert (Hh1 : heartbeatEnabled (heartbeatSwept (heartbeatFlipped w)) = false)
    by (rewrite F1, G4, Hh; reflexivity).
  destruct (toggleHeartbeat_on_facts _ Hc1 Hm1 Hp1 Hh1)
    as (w2 & E2 & Q1 & _ & _ & _ & _ & Q6).
  exists (heartbeatSwept (heartbeatFlipped w)), w2.
  split; [exact E1 |]. split; [exact E2 |]. split; [exact Q1 |].
  rewrite Q6. unfold pendingBeatPairs. rewrite F3, G5. reflexivity.
Qed.

Lemma heartbeat_retoggled_runs_twice_witness :
  reachable heartWorld /\ isPlaying heartWorld = true /\
  heartbeatEnabled heartWorld = true /\
  exists w1 w2,
    toggleHeartbeat heartWorld = Normal tt w1 /\
    toggleHeartbeat w1 = Normal tt w2 /\
    heartbeatEnabled w2 = true /\
    pendingBeatPairs w2 = S (pendingBeatPairs heartWorld).
Proof.
  split; [apply reachable_heartWorld |]. split; [reflexivity |]. split; [reflexivity |].
  apply (heartbeat_retoggled_runs_twice heartWorld);
    [apply reachable_heartWorld | reflexivity | reflexivity].
Defined.

(** ** The layers a start begins *)

Lemma createBassline_run e w :
  audioContext w <> None -> masterGain w <> None -> isPlaying w = true ->
  createBassline e w = Normal tt (basslineStarted e w).
Proof.
  intros Hc Hm Hp. unfold createBassline, basslineStarted. open_world w.
  cbn [audioContext masterGain isPlaying] in *. subst.
  destruct audioContext0 as [c|]; [| congruence].
  destruct masterGain0 as [g|]; [| congruence].
  exec. reflexivity.
Qed.

Lemma createMelody_run e w :
  audioContext w <> None -> masterGain w <> None -> isPlaying w = true ->
  createMelody e w = Normal tt (melodyStarted e w).
Proof.
  intros Hc Hm Hp. unfold createMelody, melodyStarted. open_world w.
  cbn [audioContext masterGain isPlaying] in *. subst.
  destruct audioContext0 as [c|]; [| congruence].
  destruct masterGain0 as [g|]; [| congruence].
  exec. reflexivity.
Qed.

Ltac adds_by_projection w :=
  open_world w; world; rewrite ?map_app, ?app_nil_r; repeat split.

Lemma adds_refl w : adds [] [] w w.
Proof. unfold adds. rewrite !app_nil_r. repeat split. Qed.

Lemma adds_trans c1 t1 c2 t2 w w1 w2 :
  adds c1 t1 w w1 -> adds c2 t2 w1 w2 -> adds (c1 ++ c2) (t1 ++ t2) w w2.
Proof.
  intros (A1 & A2 & A3 & A4 & A5 & A6 & A7 & A8) (B1 & B2 & B3 & B4 & B5 & B6 & B7 & B8).
  unfold adds. rewrite B1, B2, B3, B4, B5, B6, B7, B8, A1, A2, A3, A4, A5, A6, A7, A8.
  rewrite !app_assoc. repeat split.
Qed.

Lemma adds_basslineStarted e w :
  adds [cbPlayBassNote (randomIndex (randomBass e) (List.length bassNotes))] []
    w (basslineStarted e w).
Proof. unfold adds, basslineStarted. adds_by_projection w. Qed.

Lemma adds_melodyStarted e w :
  adds [cbPlayPhrase (randomIndex (randomPhrase e) (List.length phrases))] []
    w (melodyStarted e w).
Proof. unfold adds, melodyStarted. adds_by_projection w. Qed.

Lemma adds_textureStarted w : adds [] [texture] w (textureStarted w).
Proof. unfold adds, textureStarted. adds_by_projection w. Qed.

Lemma adds_beatPairStarted w :
  adds [cbCleanup heartbeat (nextNode w); cbCleanup heartbeat (2 + nextNode w);
        cbPlayBeatPair] [heartbeat; heartbeat] w (beatPairStarted w).
Proof.
  open_world w. unfold adds, beatPairStarted, beatStarted. world.
  rewrite !map_app, <- !app_assoc. repeat split.
Qed.

Lemma adds_arpeggioStarted w :
  adds [cbCleanup arpeggio (nextNode w);
        cbPlayArpNote (arpNotesOf (currentPadChordNotes w)) 1] [arpeggio]
    w (arpeggioStarted w).
Proof. unfold adds, arpeggioStarted. adds_by_projection w. Qed.

Lemma adds_set_console c w : adds [] [] w (set_console c w).
Proof. unfold adds. rewrite !app_nil_r. repeat split. Qed.

Lemma existsb_types l us :
  existsb (fun item => Layer_eqb (type item) l) us
  = existsb (fun t => Layer_eqb t l) (map type us).
Proof. induction us as [|u us IH]; [reflexivity |]. cbn [existsb map]. rewrite IH. reflexivity. Qed.

Lemma voiceUnits_typed n chord :
  map type (voiceUnits n chord) = repeat pad (2 * List.length chord).
Proof.
  revert n. induction chord as [|f rest IH]; intros n; [reflexivity |].
  cbn [voiceUnits map type List.length]. rewrite IH.
  replace (2 * S (List.length rest)) with (S (S (2 * List.length rest))) by lia.
  reflexivity.
Qed.

Lemma bind_read {A B} (f : World -> A) (k : A -> Js B) w : bind (read f) k w = k (f w) w.
Proof. reflexivity. Qed.

Lemma ready_adds cbs tys w w' : adds cbs tys w w' -> ready w -> ready w'.
Proof.
  intros (A1 & A2 & A3 & _) (Hc & Hm & Hp). unfold ready. rewrite A1, A2, A3. auto.
Qed.

Lemma createBassline_adds e w :
  ready w ->
  exists w', createBassline e w = Normal tt w' /\
             adds [cbPlayBassNote (randomIndex (randomBass e) (List.length bassNotes))] []
               w w'.
Proof.
  intros (Hc & Hm & Hp). exists (basslineStarted e w).
  split; [apply createBassline_run; assumption | apply adds_basslineStarted].
Qed.

Lemma createMelody_adds e w :
  ready w ->
  exists w', createMelody e w = Normal tt w' /\
             adds [cbPlayPhrase (randomIndex (randomPhrase e) (List.length phrases))] []
               w w'.
Proof.
  intros (Hc & Hm & Hp). exists (melodyStarted e w).
  split; [apply createMelody_run; assumption | apply adds_melodyStarted].
Qed.

Lemma createTexture_adds w :
  ready w ->
  existsb (fun t => Layer_eqb t texture) (map type (activeOscillators w)) = false ->
  exists w', createTexture w = Normal tt w' /\ adds [] [texture] w w'.
Proof.
  intros (Hc & Hm & Hp) Ht. exists (textureStarted w). split; [| apply adds_textureStarted].
  rewrite createTexture_cases, existsb_types, Ht, Hp.
  destruct (audioContext w); [| congruence]. destruct (masterGain w); [| congruence].
  reflexivity.
Qed.

Lemma heartbeat_adds w :
  ready w ->
  exists w' n1 n2,
    when (heartbeatEnabled w) createHeartbeat w = Normal tt w' /\
    adds (if heartbeatEnabled w
          then [cbCleanup heartbeat n1; cbCleanup heartbeat n2; cbPlayBeatPair] else [])
         (if heartbeatEnabled w then [heartbeat; heartbeat] else []) w w'.
Proof.
  intros (Hc & Hm & Hp). destruct (heartbeatEnabled w) eqn:Hh.
  - exists (beatPairStarted (set_console (console w ++ [LogCreatingHeartbeat]) w)),
      (nextNode w), (2 + nextNode w).
    split; [apply createHeartbeat_run; assumption |].
    exact (adds_trans [] [] _ _ _ _ _
             (adds_set_console (console w ++ [LogCreatingHeartbeat]) w)
             (adds_beatPairStarted (set_console (console w ++ [LogCreatingHeartbeat]) w))).
  - exists w, 0, 0. split; [reflexivity | apply adds_refl].
Qed.

Lemma arpeggio_adds w :
  ready w -> currentPadChordNotes w <> [] ->
  exists w' n,
    when (arpeggiatorEnabled w && (0 <? List.length (currentPadChordNotes w)))
      createArpeggio w = Normal tt w' /\
    adds (if arpeggiatorEnabled w
          then [cbCleanup arpeggio n;
                cbPlayArpNote (arpNotesOf (currentPadChordNotes w)) 1] else [])
         (if arpeggiatorEnabled w then [arpeggio] else []) w w'.
Proof.
  intros (Hc & Hm & Hp) Hne. destruct (arpeggiatorEnabled w) eqn:Ha.
  - replace (0 <? List.length (currentPadChordNotes w)) with true
      by (destruct (currentPadChordNotes w); [congruence | reflexivity]).
    exists (arpeggioStarted w), (nextNode w).
    split; [apply createArpeggio_run; assumption |].
    apply adds_arpeggioStarted.
  - exists w, 0. split; [reflexivity | apply adds_refl].
Qed.

(** What the layers started after the pad add, each once if it is
    enabled. *)
Lemma startRest_adds e w :
  ready w -> currentPadChordNotes w <> [] ->
  existsb (fun t => Layer_eqb t texture) (map type (activeOscillators w)) = false ->
  exists w' n1 n2 n3,
    startRest e w = Normal tt w' /\
    adds ([cbPlayBassNote (randomIndex (randomBass e) (List.length bassNotes));
           cbPlayPhrase (randomIndex (randomPhrase e) (List.length phrases))]
          ++ (if heartbeatEnabled w
              then [cbCleanup heartbeat n1; cbCleanup heartbeat n2; cbPlayBeatPair]
              else [])
          ++ (if arpeggiatorEnabled w
              then [cbCleanup arpeggio n3;
                    cbPlayArpNote (arpNotesOf (currentPadChordNotes w)) 1]
              else []))
         ([texture]
          ++ (if heartbeatEnabled w then [heartbeat; heartbeat] else [])
          ++ (if arpeggiatorEnabled w then [arpeggio] else [])) w w'.
Proof.
  intros Hr Hne Ht. unfold startRest.
  destruct (createBassline_adds e w Hr) as (w1 & E1 & A1).
  rewrite (bind_step _ _ _ _ _ E1).
  pose proof (ready_adds _ _ _ _ A1 Hr) as Hr1.
  destruct (createTexture_adds w1 Hr1) as (w2 & E2 & A2).
  { destruct A1 as (_ & _ & _ & _ & _ & _ & _ & Eu). rewrite Eu, app_nil_r. exact Ht. }
  rewrite (bind_step _ _ _ _ _ E2).
  pose proof (ready_adds _ _ _ _ A2 Hr1) as Hr2.
  destruct (createMelody_adds e w2 Hr2) as (w3 & E3 & A3).
  rewrite (bind_step _ _ _ _ _ E3).
  pose proof (ready_adds _ _ _ _ A3 Hr2) as Hr3.
  pose proof (adds_trans _ _ _ _ _ _ _ (adds_trans _ _ _ _ _ _ _ A1 A2) A3) as A13.
  cbn [app] in A13.
  rewrite bind_read.
  destruct (heartbeat_adds w3 Hr3) as (w4 & n1 & n2 & E4 & A4).
  rewrite (bind_step _ _ _ _ _ E4).
  pose proof (ready_adds _ _ _ _ A4 Hr3) as Hr4.
  pose proof (adds_trans _ _ _ _ _ _ _ A13 A4) as A14.
  rewrite !bind_read.
  destruct (arpeggio_adds w4 Hr4) as (w5 & n3 & E5 & A5).
  { destruct A14 as (_ & _ & _ & _ & _ & Ec & _). rewrite Ec. exact Hne. }
  pose proof (adds_trans _ _ _ _ _ _ _ A14 A5) as A15.
  destruct A14 as (_ & _ & _ & Eh & Ea & Ec & _).
  destruct A13 as (_ & _ & _ & Eh3 & _).
  rewrite Ea, Ec in A15. rewrite Eh3 in A15.
  exists w5, n1, n2, n3. split; [exact E5 |].
  rewrite <- !app_assoc in A15. cbn [app] in A15. cbn [app]. exact A15.
Qed.

Lemma padStarted_facts e chord v w :
  let w1 := padStarted e chord (volumeSet e v (set_isPlaying true w)) in
  audioContext w1 = audioContext w /\ masterGain w1 = masterGain w /\
  isPlaying w1 = true /\ heartbeatEnabled w1 = heartbeatEnabled w /\
  arpeggiatorEnabled w1 = arpeggiatorEnabled w /\
  currentPadChordNotes w1 = chord /\
  timerTable w1
  = timerTable w
    ++ [(nextTimerId w,
         cbChordProgression
           ((randomIndex (randomChord e) (List.length chords) + 1) mod List.length chords))] /\
  activeOscillators w1
  = filter (notOf pad) (activeOscillators w) ++ voiceUnits (nextNode w) chord.
Proof.
  open_world w. unfold padStarted, voiced, volumeSet. world. repeat split.
Qed.


Lemma reachable_bothEnabled : reachable bothEnabled.
Proof. repeat (apply reach_step; [| exact I]). apply reachable_freshPage. Qed.


(** ** The bassline and the melody *)

Lemma playBassNote_run i f w :
  audioContext w <> None -> isPlaying w = true -> nth_error bassNotes i = Some f ->
  playBassNote i w = Normal tt (bassNotePlayed i f w).
Proof.
  intros Hc Hp Hi. unfold playBassNote, bassNotePlayed. open_world w.
  cbn [audioContext isPlaying] in *. subst.
  destruct audioContext0 as [c|]; [| congruence].
  exec. unfold entry, deref. rewrite Hi. exec. rewrite <- !app_assoc. reflexivity.
Qed.

Lemma melodyNote_run freq w :
  audioContext w <> None -> isPlaying w = true ->
  melodyNote freq w = Normal tt (melodyNotePlayed freq w).
Proof.
  intros Hc Hp. unfold melodyNote, melodyNotePlayed. open_world w.
  cbn [audioContext isPlaying] in *. subst.
  destruct audioContext0 as [c|]; [| congruence].
  exec. reflexivity.
Qed.

Lemma notesScheduled_cons freq rest w :
  notesScheduled rest
    (set_activeTimers (activeTimers w ++ [TimerId (nextTimerId w)])
       (set_nextTimerId (S (nextTimerId w))
          (set_timerTable (timerTable w ++ [(nextTimerId w, cbMelodyNote freq)]) w)))
  = notesScheduled (freq :: rest) w.
Proof.
  open_world w. unfold notesScheduled, noteIds. world.
  cbn [noteTimers map fst List.length]. rewrite <- !app_assoc. cbn [app].
  replace (List.length rest + S nextTimerId0) with (S (List.length rest) + nextTimerId0)
    by lia.
  reflexivity.
Qed.

Lemma forEach_notes phrase : forall w,
  forEach phrase (fun freq =>
    noteTimeout <- setTimeout (cbMelodyNote freq) ;;
    pushTimer (TimerId noteTimeout)) w
  = Normal tt (notesScheduled phrase w).
Proof.
  induction phrase as [|freq rest IH]; intros w.
  - unfold notesScheduled, noteIds. cbn [forEach noteTimers map List.length Nat.add].
    rewrite !app_nil_r. open_world w. reflexivity.
  - cbn [forEach].
    assert (E : (noteTimeout <- setTimeout (cbMelodyNote freq) ;;
                 pushTimer (TimerId noteTimeout)) w
                = Normal tt
                    (set_activeTimers (activeTimers w ++ [TimerId (nextTimerId w)])
                       (set_nextTimerId (S (nextTimerId w))
                          (set_timerTable
                             (timerTable w ++ [(nextTimerId w, cbMelodyNote freq)]) w))))
      by reflexivity.
    rewrite (bind_step _ _ _ _ _ E), IH, notesScheduled_cons. reflexivity.
Qed.

Lemma playPhrase_run i phrase w :
  audioContext w <> None -> isPlaying w = true -> nth_error phrases i = Some phrase ->
  playPhrase i w = Normal tt (phraseScheduled i phrase w).
Proof.
  intros Hc Hp Hi. unfold playPhrase.
  rewrite bind_read. rewrite Hp.
  replace (isNull (audioContext w)) with false
    by (destruct (audioContext w); [reflexivity | congruence]).
  cbn [negb orb]. unfold entry.
  assert (E : deref (fun _ : World => nth_error phrases i) w = Normal phrase w)
    by (unfold deref; rewrite Hi; reflexivity).
  rewrite (bind_step _ _ _ _ _ E).
  rewrite (bind_step _ _ _ _ _ (forEach_notes phrase w)).
  unfold phraseScheduled. generalize (notesScheduled phrase w). intros w1.
  open_world w1. reflexivity.
Qed.

Lemma cleared_frame id w :
  let w1 := set_timerTable (filter (fun p => negb (fst p =? id)) (timerTable w)) w in
  audioContext w1 = audioContext w /\ isPlaying w1 = isPlaying w /\
  nextTimerId w1 = nextTimerId w /\ nextNode w1 = nextNode w /\
  audioLog w1 = audioLog w /\ activeOscillators w1 = activeOscillators w /\
  activeTimers w1 = activeTimers w /\
  timerTable w1 = filter (fun p => negb (fst p =? id)) (timerTable w).
Proof. open_world w. repeat split. Qed.

Lemma bassNotePlayed_frame i f w :
  audioLog (bassNotePlayed i f w)
  = audioLog w ++ [OscStart (nextNode w) bass f;
                   OscStart (2 + nextNode w) bass (div f two)] /\
  activeOscillators (bassNotePlayed i f w) = activeOscillators w /\
  timerTable (bassNotePlayed i f w)
  = timerTable w ++ [(nextTimerId w, cbPlayBassNote ((i + 1) mod List.length bassNotes))] /\
  activeTimers (bassNotePlayed i f w) = activeTimers w ++ [TimerId (nextTimerId w)].
Proof. open_world w. repeat split. Qed.

(** While the page plays, a pending bass note that fires starts two
    oscillators, one at the note its cursor points at and one an octave
    below, and enters neither in the registry of units; it schedules
    the note after it, wrapping round at the end of [bassNotes], and
    pushes that timer's id.  The id of the timer that fired stays in
    [activeTimers]. *)
Theorem bass_note_fires (id i : nat) (w : World) :
  reachable w -> In (id, cbPlayBassNote i) (timerTable w) ->
  exists f w',
    nth_error bassNotes i = Some f /\
    fire id w = Normal tt w' /\
    audioLog w' = audioLog w ++ [OscStart (nextNode w) bass f;
                                 OscStart (2 + nextNode w) bass (div f two)] /\
    activeOscillators w' = activeOscillators w /\
    timerTable w'
    = filter (fun p => negb (fst p =? id)) (timerTable w)
      ++ [(nextTimerId w, cbPlayBassNote ((i + 1) mod List.length bassNotes))] /\
    activeTimers w' = activeTimers w ++ [TimerId (nextTimerId w)].
Proof.
  intros Hr Hin. pose proof (reachableIn_Inv _ _ _ Hr) as H.
  pose proof (reachableIn_Tidy _ _ _ Hr) as Ht.
  destruct (pending_Live w id _ H Hin) as [_ Hp].
  pose proof (inv_playing H Hp) as Hc.
  destruct (inv_tracked H id _ Hin) as (_ & _ & Hwf). cbn [wf_callback] in Hwf.
  destruct (nth_error bassNotes i) as [f|] eqn:Hi;
    [| apply nth_error_None in Hi; lia].
  rewrite (pending_fires w id _ Ht Hin).
  unfold bind at 1, clearTimeout, write. cbn [run].
  destruct (cleared_frame id w) as (C1 & C2 & C3 & C4 & C5 & C6 & C7 & C8).
  cbv zeta in C1, C2, C3, C4, C5, C6, C7, C8.
  exists f. eexists. split; [reflexivity |]. split.
  { apply playBassNote_run; [rewrite C1; exact Hc | rewrite C2; exact Hp | exact Hi]. }
  destruct (bassNotePlayed_frame i f
              (set_timerTable (filter (fun p => negb (fst p =? id)) (timerTable w)) w))
    as (B1 & B2 & B3 & B4).
  rewrite B1, B2, B3, B4, C3, C4, C5, C6, C7, C8. repeat split.
Qed.

Lemma playingWorld_pending :
  In (2, cbPlayBassNote 0) (timerTable playingWorld) /\
  In (3, cbPlayPhrase 0) (timerTable playingWorld).
Proof.
  vm_compute. split; [right; left | right; right; left]; reflexivity.
Qed.

Lemma bass_note_fires_witness :
  reachable playingWorld /\ In (2, cbPlayBassNote 0) (timerTable playingWorld) /\
  exists f w',
    nth_error bassNotes 0 = Some f /\
    fire 2 playingWorld = Normal tt w' /\
    audioLog w' = audioLog playingWorld
                  ++ [OscStart (nextNode playingWorld) bass f;
                      OscStart (2 + nextNode playingWorld) bass (div f two)] /\
    activeOscillators w' = activeOscillators playingWorld /\
    timerTable w'
    = filter (fun p => negb (fst p =? 2)) (timerTable playingWorld)
      ++ [(nextTimerId playingWorld, cbPlayBassNote ((0 + 1) mod List.length bassNotes))] /\
    activeTimers w' = activeTimers playingWorld ++ [TimerId (nextTimerId playingWorld)].
Proof.
  split; [apply reachable_playingWorld |].
  split; [exact (proj1 playingWorld_pending) |].
  exact (bass_note_fires 2 0 playingWorld reachable_playingWorld
           (proj1 playingWorld_pending)).
Defined.

Lemma noteIds_length t phrase : List.length (noteIds t phrase) = List.length phrase.
Proof.
  unfold noteIds. rewrite length_map. revert t.
  induction phrase as [|f rest IH]; intros t; cbn [noteTimers List.length];
    [reflexivity | rewrite IH; reflexivity].
Qed.

Lemma phraseScheduled_frame i phrase w :
  audioLog (phraseScheduled i phrase w) = audioLog w /\
  activeOscillators (phraseScheduled i phrase w) = activeOscillators w /\
  timerTable (phraseScheduled i phrase w)
  = timerTable w ++ noteTimers (nextTimerId w) phrase
    ++ [(List.length phrase + nextTimerId w,
         cbPlayPhrase ((i + 1) mod List.length phrases))] /\
  activeTimers (phraseScheduled i phrase w)
  = activeTimers w ++ noteIds (nextTimerId w) phrase
    ++ [TimerId (List.length phrase + nextTimerId w)].
Proof.
  open_world w. unfold phraseScheduled, notesScheduled. world.
  rewrite <- !app_assoc. repeat split.
Qed.

(** While the page plays, a pending phrase that fires starts no sound
    at once: it schedules one note callback per note of the phrase its
    cursor points at, in the phrase's order, and then the phrase after
    it, wrapping round at the end of [phrases]; it pushes the id of
    every timer it set. *)
Theorem phrase_fires (id i : nat) (w : World) :
  reachable w -> In (id, cbPlayPhrase i) (timerTable w) ->
  exists phrase w',
    nth_error phrases i = Some phrase /\
    fire id w = Normal tt w' /\
    audioLog w' = audioLog w /\
    activeOscillators w' = activeOscillators w /\
    timerTable w'
    = filter (fun p => negb (fst p =? id)) (timerTable w)
      ++ noteTimers (nextTimerId w) phrase
      ++ [(List.length phrase + nextTimerId w,
           cbPlayPhrase ((i + 1) mod List.length phrases))] /\
    activeTimers w'
    = activeTimers w ++ noteIds (nextTimerId w) phrase
      ++ [TimerId (List.length phrase + nextTimerId w)].
Proof.
  intros Hr Hin. pose proof (reachableIn_Inv _ _ _ Hr) as H.
  pose proof (reachableIn_Tidy _ _ _ Hr) as Ht.
  destruct (pending_Live w id _ H Hin) as [_ Hp].
  pose proof (inv_playing H Hp) as Hc.
  destruct (inv_tracked H id _ Hin) as (_ & _ & Hwf). cbn [wf_callback] in Hwf.
  destruct (nth_error phrases i) as [phrase|] eqn:Hi;
    [| apply nth_error_None in Hi; lia].
  rewrite (pending_fires w id _ Ht Hin).
  unfold bind at 1, clearTimeout, write. cbn [run].
  destruct (cleared_frame id w) as (C1 & C2 & C3 & C4 & C5 & C6 & C7 & C8).
  cbv zeta in C1, C2, C3, C4, C5, C6, C7, C8.
  exists phrase. eexists. split; [reflexivity |]. split.
  { apply playPhrase_run; [rewrite C1; exact Hc | rewrite C2; exact Hp | exact Hi]. }
  destruct (phraseScheduled_frame i phrase
              (set_timerTable (filter (fun p => negb (fst p =? id)) (timerTable w)) w))
    as (B1 & B2 & B3 & B4).
  rewrite B1, B2, B3, B4, C3, C5, C6, C7, C8. repeat split.
Qed.

Lemma phrase_fires_witness :
  reachable playingWorld /\ In (3, cbPlayPhrase 0) (timerTable playingWorld) /\
  exists phrase w',
    nth_error phrases 0 = Some phrase /\
    fire 3 playingWorld = Normal tt w' /\
    audioLog w' = audioLog playingWorld /\
    activeOscillators w' = activeOscillators playingWorld /\
    timerTable w'
    = filter (fun p => negb (fst p =? 3)) (timerTable playingWorld)
      ++ noteTimers (nextTimerId playingWorld) phrase
      ++ [(List.length phrase + nextTimerId playingWorld,
           cbPlayPhrase ((0 + 1) mod List.length phrases))] /\
    activeTimers w'
    = activeTimers playingWorld ++ noteIds (nextTimerId playingWorld) phrase
      ++ [TimerId (List.length phrase + nextTimerId playingWorld)].
Proof.
  split; [apply reachable_playingWorld |].
  split; [exact (proj2 playingWorld_pending) |].
  exact (phrase_fires 3 0 playingWorld reachable_playingWorld
           (proj2 playingWorld_pending)).
Defined.

(** ** The arpeggio runs only while it is enabled *)

Lemma Quiet_frame w w' : quietFrame w' = quietFrame w -> Quiet w -> Quiet w'.
Proof.
  unfold quietFrame, Quiet. intros E H. inversion E as [[E1 E2]].
  rewrite E1, E2. exact H.
Qed.

Lemma Quiet_keeps {A} (m : Js A) : keeps quietFrame m -> hoare Quiet m (fun _ => Quiet).
Proof. apply hoare_keeps, Quiet_frame. Qed.

Lemma Quiet_enabled w : arpeggiatorEnabled w = true -> Quiet w.
Proof. intros H id cb _ _. exact H. Qed.

Lemma Quiet_shrink w w' (g : nat * Callback -> bool) :
  Quiet w -> timerTable w' = filter g (timerTable w) ->
  arpeggiatorEnabled w' = arpeggiatorEnabled w -> Quiet w'.
Proof.
  intros H Et Ea id cb Hin Harp. rewrite Ea. rewrite Et in Hin.
  apply filter_In in Hin. apply (H id cb (proj1 Hin) Harp).
Qed.

Lemma Quiet_setTimeout cb :
  is_arp_note cb = false -> hoare Quiet (setTimeout cb) (fun _ => Quiet).
Proof.
  intros Hcb w a w' Hw E.
  assert (E' : setTimeout cb w
               = Normal (nextTimerId w)
                   (set_nextTimerId (S (nextTimerId w))
                      (set_timerTable (timerTable w ++ [(nextTimerId w, cb)]) w)))
    by reflexivity.
  rewrite E' in E. inversion E. subst a w'. intros id cb' Hin Harp.
  change (In (id, cb') (timerTable w ++ [(nextTimerId w, cb)])) in Hin.
  change (arpeggiatorEnabled w = true).
  apply in_app_or in Hin. destruct Hin as [Hin | [Heq | []]].
  - apply (Hw id cb' Hin Harp).
  - inversion Heq. subst cb'. congruence.
Qed.

Lemma Quiet_clearTimeout id : hoare Quiet (clearTimeout id) (fun _ => Quiet).
Proof.
  apply hoare_write. intros w Hw.
  apply (Quiet_shrink w _ (fun p => negb (fst p =? id)) Hw); reflexivity.
Qed.

(** Code that leaves the arpeggiator enabled leaves a quiet state,
    whatever it schedules. *)
Lemma Enabled_keeps {A} (m : Js A) :
  keeps arpeggiatorEnabled m ->
  hoare (fun w => arpeggiatorEnabled w = true) m (fun _ => Quiet).
Proof.
  intros Hk w a w' Hw E. apply Quiet_enabled. specialize (Hk w). rewrite E in Hk.
  cbn [world_of] in Hk. rewrite Hk. exact Hw.
Qed.

Create HintDb quiet.
#[local] Hint Resolve Quiet_clearTimeout : quiet.

Ltac quiet :=
  cbv beta zeta;
  lazymatch goal with
  | |- hoare _ (bind (setTimeout _) _) _ =>
      eapply hoare_bind; [apply Quiet_setTimeout; reflexivity | intros ?; quiet]
  | |- hoare _ (bind _ _) _ => eapply hoare_bind; [quiet | intros ?; quiet]
  | |- hoare _ (ret _) _ => apply hoare_ret; auto
  | |- hoare _ (when _ _) _ => apply hoare_when; quiet
  | |- hoare _ (if ?b then _ else _) _ => destruct b; quiet
  | |- hoare _ (match ?x with _ => _ end) _ => destruct x; quiet
  | |- hoare _ (forEach _ _) _ => apply hoare_forEach; intros ?; quiet
  | |- _ => first [ apply Quiet_keeps; solve [keeps_all] | solve [eauto with quiet] ]
  end.

(** [playArpNote] schedules the next note only with the arpeggiator
    enabled. *)
Lemma Quiet_playArpNote arpNotes i : hoare Quiet (playArpNote arpNotes i) (fun _ => Quiet).
Proof.
  unfold playArpNote.
  do 6 (eapply hoare_bind; [apply Quiet_keeps; keeps_all | intros ?]).
  eapply hoare_bind; [apply Quiet_setTimeout; reflexivity | intros ?].
  eapply hoare_bind; [apply Quiet_keeps; keeps_all | intros ?].
  eapply hoare_bind; [apply hoare_read | intros playing].
  eapply hoare_bind; [apply hoare_read | intros enabled].
  intros w0 r w' ((Hq & Ep) & Ee) E.
  destruct (playing && enabled) eqn:G; cbn [when] in E.
  - apply andb_true_iff in G. destruct G as [_ G]. subst enabled.
    refine (Enabled_keeps _ _ w0 r w' G E). keeps_all.
  - inversion E. subst. exact Hq.
Qed.

#[local] Hint Resolve Quiet_playArpNote : quiet.

Lemma Quiet_createArpeggio : hoare Quiet createArpeggio (fun _ => Quiet).
Proof. unfold createArpeggio. quiet. Qed.

Lemma Quiet_stopArpeggioSequence : hoare Quiet stopArpeggioSequence (fun _ => Quiet).
Proof.
  intros w a w' Hw E. destruct (audioContext w) eqn:Ec.
  - rewrite stopArpeggioSequence_run in E by congruence. inversion E.
    apply (Quiet_shrink w _ (fun p => negb (arpCleared (activeTimers w) (fst p))) Hw);
      reflexivity.
  - destruct (stopArpeggioSequence_fault w Ec) as (w1 & E1). rewrite E1 in E. discriminate E.
Qed.

#[local] Hint Resolve Quiet_createArpeggio Quiet_stopArpeggioSequence : quiet.

Lemma Quiet_chordProgression i : hoare Quiet (chordProgression i) (fun _ => Quiet).
Proof.
  intros w a w' Hw E.
  destruct (negb (isPlaying w) || isNull (audioContext w)) eqn:Eg.
  - unfold chordProgression, bind at 1, read in E. rewrite Eg in E. inversion E.
    subst. exact Hw.
  - apply orb_false_iff in Eg. destruct Eg as [Ep Ec]. apply negb_false_iff in Ep.
    assert (Hc : audioContext w <> None)
      by (destruct (audioContext w); [discriminate | discriminate Ec]).
    destruct (nth_error chords i) as [chord|] eqn:Ei.
    + rewrite (chordProgression_run i chord w Hc Ep Ei) in E.
      refine (hoare_run Quiet _ (fun _ => Quiet) _ a w' _ _ E).
      * apply hoare_when. unfold arpeggioUpdate. quiet.
      * intros id cb Hin Harp. rewrite chordAdvanced_timerTable in Hin.
        change (arpeggiatorEnabled w = true).
        apply in_app_or in Hin. destruct Hin as [Hin | [Heq | []]].
        -- apply (Hw id cb Hin Harp).
        -- inversion Heq. subst cb. discriminate Harp.
    + exfalso. unfold chordProgression, bind at 1, read in E.
      rewrite Ep in E. destruct (audioContext w); [| congruence].
      cbn [negb isNull orb] in E. unfold bind at 1, entry, deref in E.
      rewrite Ei in E. discriminate E.
Qed.

#[local] Hint Resolve Quiet_chordProgression : quiet.

Lemma Quiet_createPad e : hoare Quiet (createPad e) (fun _ => Quiet).
Proof. unfold createPad. quiet. Qed.

Lemma Quiet_playBassNote i : hoare Quiet (playBassNote i) (fun _ => Quiet).
Proof. unfold playBassNote. quiet. Qed.

Lemma Quiet_createBassline e : hoare Quiet (createBassline e) (fun _ => Quiet).
Proof. unfold createBassline. quiet. Qed.

Lemma Quiet_melodyNote freq : hoare Quiet (melodyNote freq) (fun _ => Quiet).
Proof. unfold melodyNote. quiet. Qed.

Lemma Quiet_playPhrase i : hoare Quiet (playPhrase i) (fun _ => Quiet).
Proof. unfold playPhrase. quiet. Qed.

Lemma Quiet_createMelody e : hoare Quiet (createMelody e) (fun _ => Quiet).
Proof. unfold createMelody. quiet. Qed.

Lemma Quiet_createTexture : hoare Quiet createTexture (fun _ => Quiet).
Proof. apply Quiet_keeps. keeps_all. Qed.

Lemma Quiet_playSingleBeat : hoare Quiet playSingleBeat (fun _ => Quiet).
Proof. unfold playSingleBeat. quiet. Qed.

#[local] Hint Resolve Quiet_playSingleBeat : quiet.

Lemma Quiet_playBeatPair : hoare Quiet playBeatPair (fun _ => Quiet).
Proof. unfold playBeatPair. quiet. Qed.

#[local] Hint Resolve Quiet_playBeatPair : quiet.

Lemma Quiet_createHeartbeat : hoare Quiet createHeartbeat (fun _ => Quiet).
Proof. unfold createHeartbeat. quiet. Qed.

#[local] Hint Resolve Quiet_createPad Quiet_createBassline Quiet_createTexture
  Quiet_createMelody Quiet_createHeartbeat Quiet_playBassNote Quiet_playPhrase
  Quiet_melodyNote : quiet.

Lemma Quiet_run cb : hoare Quiet (run cb) (fun _ => Quiet).
Proof.
  destruct cb; cbn [run]; eauto with quiet. apply Quiet_keeps. keeps_all.
Qed.

#[local] Hint Resolve Quiet_run : quiet.

Lemma Quiet_fire id : hoare Quiet (fire id) (fun _ => Quiet).
Proof. unfold fire. quiet. Qed.

Lemma Quiet_stopAmbient : hoare Quiet stopAmbient (fun _ => Quiet).
Proof.
  intros w a w' Hw E.
  destruct (audioContext w) eqn:Ec; [destruct (isPlaying w) eqn:Ep |].
  - rewrite stopAmbient_run in E by congruence. inversion E.
    apply (Quiet_shrink w _ (fun p => negb (stopCleared (activeTimers w) (fst p))) Hw);
      reflexivity.
  - rewrite stopAmbient_idle in E by (right; exact Ep). inversion E. subst. exact Hw.
  - rewrite stopAmbient_idle in E by (left; exact Ec). inversion E. subst. exact Hw.
Qed.

Lemma Quiet_startLayers e : hoare Quiet (startLayers e) (fun _ => Quiet).
Proof. unfold startLayers. quiet. Qed.

#[local] Hint Resolve Quiet_startLayers Quiet_stopAmbient Quiet_fire : quiet.

Lemma Quiet_startAmbient e : hoare Quiet (startAmbient e) (fun _ => Quiet).
Proof. unfold startAmbient. quiet. Qed.

Lemma Quiet_resumeSettled e resolved : hoare Quiet (resumeSettled e resolved) (fun _ => Quiet).
Proof. unfold resumeSettled. quiet. Qed.

(** An invariant of completed runs comes through along with one of all
    runs. *)
Lemma hoare_with {A} (P Q : World -> Prop) (m : Js A) (R : A -> World -> Prop) :
  triple P m R -> hoare Q m (fun _ => Q) ->
  hoare (fun w => P w /\ Q w) m (fun a w => R a w /\ Q w).
Proof.
  intros Ht Hh w a w' [Hp Hq] E. split; [| apply (Hh w a w' Hq E)].
  destruct (Ht w Hp) as (a' & w'' & E' & Hp'). rewrite E in E'. inversion E'.
  subst. exact Hp'.
Qed.

Lemma toggleArpeggiator_stopped w :
  isPlaying w = false ->
  toggleArpeggiator w
  = Normal tt (set_console (console w ++ [LogArpeggiator (negb (arpeggiatorEnabled w))])
                 (set_arpeggiatorEnabled (negb (arpeggiatorEnabled w)) w)).
Proof.
  intros Hp. unfold toggleArpeggiator, bind, write, read, log. simpl.
  rewrite Hp. reflexivity.
Qed.

(** Disabling the arpeggiator cancels every pending next note: each is
    tracked under the tag the sweep looks for. *)
Lemma Calm_toggleArpeggiator b : hoare (Calm b) toggleArpeggiator (fun _ => Quiet).
Proof.
  intros w r w' [[Hi Hp] Hq] E.
  destruct (arpeggiatorEnabled w) eqn:Ea.
  - destruct b.
    + pose proof (inv_playing Hi Hp) as Hc.
      rewrite (toggleArpeggiator_off_run w Hp Ea Hc) in E. inversion E.
      intros id cb Hin Harp. exfalso.
      change (In (id, cb)
                 (filter (fun p => negb (arpCleared (activeTimers w) (fst p)))
                    (timerTable w))) in Hin.
      apply filter_In in Hin. destruct Hin as [Hin Hk]. cbn [fst] in Hk.
      destruct (inv_tracked Hi _ _ Hin) as (_ & Ht & _).
      rewrite (tracked_arp_cleared _ _ _ Ht Harp) in Hk. discriminate Hk.
    + destruct (inv_stopped Hi Hp) as (_ & _ & Htab).
      rewrite (toggleArpeggiator_stopped w Hp) in E. inversion E.
      intros id cb Hin _. exfalso.
      change (In (id, cb) (timerTable w)) in Hin. rewrite Htab in Hin. destruct Hin.
  - refine (hoare_run (fun w0 => arpeggiatorEnabled w0 = false) _ (fun _ => Quiet)
              w r w' _ Ea E).
    unfold toggleArpeggiator.
    eapply hoare_bind with (R := fun _ w0 => arpeggiatorEnabled w0 = true).
    + apply hoare_write. intros w0 H0. open_world w0. cbn in *. subst. reflexivity.
    + intros ?. apply Enabled_keeps. keeps_all.
Qed.

Lemma Quiet_ifNumber v f :
  (forall n, hoare Quiet (f n) (fun _ => Quiet)) -> hoare Quiet (ifNumber v f) (fun _ => Quiet).
Proof. intros H. destruct v; cbn [ifNumber]; try (apply hoare_ret; auto). apply H. Qed.

Lemma Quiet_toggleHeartbeat : hoare Quiet toggleHeartbeat (fun _ => Quiet).
Proof. unfold toggleHeartbeat. quiet. Qed.

Lemma Calm_applySettings b e settings :
  hoare (Calm b) (applySettings e settings) (fun _ => Quiet).
Proof.
  unfold applySettings. destruct (negb (truthy settings)).
  { apply hoare_ret. intros w H. apply H. }
  eapply hoare_bind;
    [apply hoare_with; [apply InvAt_log | apply Quiet_keeps; keeps_all] | intros ?].
  eapply hoare_bind;
    [apply hoare_with;
       [apply InvAt_ifNumber; intros; apply InvAt_setVolume | apply Quiet_keeps; keeps_all]
    | intros ?].
  eapply hoare_bind;
    [apply hoare_with;
       [apply InvAt_ifBooleanDiffers, InvAt_toggleMute | apply Quiet_keeps; keeps_all]
    | intros ?].
  eapply hoare_bind;
    [apply hoare_with;
       [apply InvAt_ifString; intros; apply InvAt_setPadOscillatorType
       | apply Quiet_keeps; keeps_all]
    | intros ?].
  eapply hoare_bind;
    [apply hoare_with;
       [apply InvAt_ifNumber; intros; apply InvAt_setPadFilterFrequency
       | apply Quiet_keeps; keeps_all]
    | intros ?].
  eapply hoare_bind;
    [apply hoare_with;
       [apply InvAt_ifNumber; intros; apply InvAt_setChordSpeed
       | apply Quiet_keeps; keeps_all]
    | intros ?].
  eapply hoare_bind;
    [apply hoare_with;
       [apply InvAt_ifBooleanDiffers, InvAt_toggleHeartbeat
       | unfold ifBooleanDiffers; destruct (prop settings "heartbeatEnabled");
         try (apply hoare_ret; auto);
         eapply hoare_bind; [apply Quiet_keeps; keeps_all | intros c];
         destruct (negb _); [apply Quiet_toggleHeartbeat | apply hoare_ret; auto]]
    | intros ?].
  unfold ifBooleanDiffers. destruct (prop settings "arpeggiatorEnabled");
    try (apply hoare_ret; intros w H; apply H).
  eapply hoare_bind;
    [apply hoare_with; [apply InvAt_read | apply Quiet_keeps; keeps_all] | intros c].
  destruct (negb _); [apply Calm_toggleArpeggiator | apply hoare_ret; intros w H; apply H].
Qed.

Lemma Calm_perform e a :
  hoare (fun w => Inv w /\ Quiet w) (perform e a) (fun _ => Quiet).
Proof.
  assert (Hq : forall m : Js unit,
             hoare Quiet m (fun _ => Quiet) ->
             hoare (fun w => Inv w /\ Quiet w) m (fun _ => Quiet)).
  { intros m H. eapply hoare_pre; [| exact H]. intros w Hw. apply Hw. }
  assert (Hc : forall m : Js unit,
             (forall b, hoare (Calm b) m (fun _ => Quiet)) ->
             hoare (fun w => Inv w /\ Quiet w) m (fun _ => Quiet)).
  { intros m H w r w' [Hi Hw] E.
    apply (H (isPlaying w) w r w'); [| exact E]. split; [split; [exact Hi | reflexivity] |].
    exact Hw. }
  destruct a; cbn [perform]; try (apply Hq, Quiet_keeps; solve [keeps_all]).
  - apply Hq, Quiet_startAmbient.
  - apply Hq, Quiet_stopAmbient.
  - apply Hc. intros b. apply Calm_applySettings.
  - apply Hq, Quiet_toggleHeartbeat.
  - apply Hc. intros b. apply Calm_toggleArpeggiator.
  - apply Hq, Quiet_fire.
  - apply Hq, Quiet_resumeSettled.
Qed.

Lemma reachableIn_Quiet envOk volumeOk w : reachableIn envOk volumeOk w -> Quiet w.
Proof.
  induction 1 as [muted volume Hv | w e a Hr IH He].
  - intros id cb [].
  - pose proof (reachableIn_Inv _ _ _ Hr) as Hi.
    destruct (Inv_perform e a w Hi) as (r & w' & E & _).
    rewrite E. cbn [world_of]. apply (Calm_perform e a w r w' (conj Hi IH) E).
Qed.

(** In every state the engine reaches, a next note of the arpeggio is
    pending only during playback and with the arpeggiator enabled --
    unlike a beat pair of the heartbeat, which stays pending when the
    heartbeat is disabled -- and it has notes to play. *)
Theorem pending_arpeggio_means_enabled (id : nat) (arpNotes : list number) (n : nat)
        (w : World) :
  reachable w -> In (id, cbPlayArpNote arpNotes n) (timerTable w) ->
  isPlaying w = true /\ arpeggiatorEnabled w = true /\ arpNotes <> [] /\
  In (Tagged id "arpeggio_note") (activeTimers w).
Proof.
  intros Hr Hin. pose proof (reachableIn_Inv _ _ _ Hr) as Hi.
  destruct (pending_Live w id _ Hi Hin) as [_ Hp].
  destruct (inv_tracked Hi id _ Hin) as (_ & Ht & Hwf).
  split; [exact Hp |].
  split; [apply (reachableIn_Quiet _ _ _ Hr id _ Hin); reflexivity |].
  split; [exact Hwf | exact Ht].
Qed.

Lemma arpWorld_pending :
  In (5, cbPlayArpNote (arpNotesOf (currentPadChordNotes arpWorld)) 1)
     (timerTable arpWorld).
Proof. vm_compute. do 4 right. left. reflexivity. Qed.

Lemma pending_arpeggio_means_enabled_witness :
  reachable arpWorld /\
  In (5, cbPlayArpNote (arpNotesOf (currentPadChordNotes arpWorld)) 1)
     (timerTable arpWorld) /\
  isPlaying arpWorld = true /\ arpeggiatorEnabled arpWorld = true /\
  arpNotesOf (currentPadChordNotes arpWorld) <> [] /\
  In (Tagged 5 "arpeggio_note") (activeTimers arpWorld).
Proof.
  split; [apply reachable_arpWorld |].
  split; [exact arpWorld_pending |].
  exact (pending_arpeggio_means_enabled 5 _ 1 arpWorld reachable_arpWorld
           arpWorld_pending).
Defined.

(** *** A note of the arpeggio *)

Lemma playArpNote_run arpNotes n freq w :
  audioContext w <> None -> isPlaying w = true -> arpeggiatorEnabled w = true ->
  arpNoteAt arpNotes n = Some freq ->
  playArpNote arpNotes n w = Normal tt (arpNotePlayed arpNotes n freq w).
Proof.
  intros Hc Hp Ha Hf. unfold playArpNote, arpNotePlayed. open_world w.
  cbn [audioContext isPlaying arpeggiatorEnabled] in *. subst.
  destruct audioContext0 as [c|]; [| congruence].
  unfold bind at 1, deref. rewrite Hf. exec. rewrite <- !app_assoc. reflexivity.
Qed.

Lemma arpNotePlayed_frame arpNotes n freq w :
  audioLog (arpNotePlayed arpNotes n freq w)
  = audioLog w ++ [OscStart (nextNode w) arpeggio freq] /\
  activeOscillators (arpNotePlayed arpNotes n freq w)
  = activeOscillators w ++ [mkUnit (nextNode w) (S (nextNode w)) arpeggio] /\
  timerTable (arpNotePlayed arpNotes n freq w)
  = timerTable w ++ [(nextTimerId w, cbCleanup arpeggio (nextNode w));
                     (S (nextTimerId w), cbPlayArpNote arpNotes (S n))] /\
  activeTimers (arpNotePlayed arpNotes n freq w)
  = activeTimers w ++ [TimerId (nextTimerId w);
                       Tagged (S (nextTimerId w)) "arpeggio_note"].
Proof. open_world w. repeat split. Qed.

Lemma cleared_arpeggiatorEnabled id w :
  arpeggiatorEnabled
    (set_timerTable (filter (fun p => negb (fst p =? id)) (timerTable w)) w)
  = arpeggiatorEnabled w.
Proof. open_world w. reflexivity. Qed.

(** A pending note of the arpeggio that fires starts one oscillator, at
    the note its cursor points at, the notes taken round and round; it
    tracks the oscillator as an [arpeggio] unit with a self-cleanup, and
    schedules the note after it under the [arpeggio_note] tag.  The
    entry of the timer that fired stays in [activeTimers]. *)
Theorem arp_note_fires (id n : nat) (arpNotes : list number) (w : World) :
  reachable w -> In (id, cbPlayArpNote arpNotes n) (timerTable w) ->
  exists freq w',
    nth_error arpNotes (n mod List.length arpNotes) = Some freq /\
    fire id w = Normal tt w' /\
    audioLog w' = audioLog w ++ [OscStart (nextNode w) arpeggio freq] /\
    activeOscillators w'
    = activeOscillators w ++ [mkUnit (nextNode w) (S (nextNode w)) arpeggio] /\
    timerTable w'
    = filter (fun p => negb (fst p =? id)) (timerTable w)
      ++ [(nextTimerId w, cbCleanup arpeggio (nextNode w));
          (S (nextTimerId w), cbPlayArpNote arpNotes (S n))] /\
    activeTimers w'
    = activeTimers w ++ [TimerId (nextTimerId w);
                         Tagged (S (nextTimerId w)) "arpeggio_note"].
Proof.
  intros Hr Hin. pose proof (reachableIn_Inv _ _ _ Hr) as H.
  pose proof (reachableIn_Tidy _ _ _ Hr) as Ht.
  assert (Ha : arpeggiatorEnabled w = true)
    by (apply (reachableIn_Quiet _ _ _ Hr id _ Hin); reflexivity).
  destruct (pending_Live w id _ H Hin) as [_ Hp].
  pose proof (inv_playing H Hp) as Hc.
  destruct (inv_tracked H id _ Hin) as (_ & _ & Hwf). cbn [wf_callback] in Hwf.
  assert (Hlen : List.length arpNotes <> 0)
    by (destruct arpNotes; [congruence | discriminate]).
  destruct (nth_error arpNotes (n mod List.length arpNotes)) as [freq|] eqn:Hi.
  2:{ apply nth_error_None in Hi.
      pose proof (Nat.mod_upper_bound n (List.length arpNotes) Hlen). lia. }
  assert (Hat : arpNoteAt arpNotes n = Some freq)
    by (unfold arpNoteAt; destruct arpNotes; [congruence | exact Hi]).
  rewrite (pending_fires w id _ Ht Hin).
  unfold bind at 1, clearTimeout, write. cbn [run].
  destruct (cleared_frame id w) as (C1 & C2 & C3 & C4 & C5 & C6 & C7 & C8).
  cbv zeta in C1, C2, C3, C4, C5, C6, C7, C8.
  exists freq. eexists. split; [reflexivity |]. split.
  { apply playArpNote_run;
      [rewrite C1; exact Hc | rewrite C2; exact Hp
      | rewrite cleared_arpeggiatorEnabled; exact Ha | exact Hat]. }
  destruct (arpNotePlayed_frame arpNotes n freq
              (set_timerTable (filter (fun p => negb (fst p =? id)) (timerTable w)) w))
    as (B1 & B2 & B3 & B4).
  rewrite B1, B2, B3, B4, C3, C4, C5, C6, C7, C8. repeat split.
Qed.

Lemma arp_note_fires_witness :
  reachable arpWorld /\
  In (5, cbPlayArpNote (arpNotesOf (currentPadChordNotes arpWorld)) 1)
     (timerTable arpWorld) /\
  exists freq w',
    nth_error (arpNotesOf (currentPadChordNotes arpWorld))
      (1 mod List.length (arpNotesOf (currentPadChordNotes arpWorld))) = Some freq /\
    fire 5 arpWorld = Normal tt w' /\
    audioLog w' = audioLog arpWorld ++ [OscStart (nextNode arpWorld) arpeggio freq] /\
    activeOscillators w'
    = activeOscillators arpWorld
      ++ [mkUnit (nextNode arpWorld) (S (nextNode arpWorld)) arpeggio] /\
    timerTable w'
    = filter (fun p => negb (fst p =? 5)) (timerTable arpWorld)
      ++ [(nextTimerId arpWorld, cbCleanup arpeggio (nextNode arpWorld));
          (S (nextTimerId arpWorld),
           cbPlayArpNote (arpNotesOf (currentPadChordNotes arpWorld)) (S 1))] /\
    activeTimers w'
    = activeTimers arpWorld ++ [TimerId (nextTimerId arpWorld);
                                Tagged (S (nextTimerId arpWorld)) "arpeggio_note"].
Proof.
  split; [apply reachable_arpWorld |].
  split; [exact arpWorld_pending |].
  exact (arp_note_fires 5 1 _ arpWorld reachable_arpWorld arpWorld_pending).
Defined.

(** *** A note of the melody *)

Lemma melodyNotePlayed_frame freq w :
  audioLog (melodyNotePlayed freq w)
  = audioLog w ++ [OscStart (nextNode w) melody freq] /\
  activeOscillators (melodyNotePlayed freq w)
  = activeOscillators w ++ [mkUnit (nextNode w) (S (nextNode w)) melody] /\
  timerTable (melodyNotePlayed freq w)
  = timerTable w ++ [(nextTimerId w, cbCleanup melody (nextNode w))] /\
  activeTimers (melodyNotePlayed freq w) = activeTimers w ++ [TimerId (nextTimerId w)].
Proof. open_world w. repeat split. Qed.

(** While the page plays, a pending note of a phrase that fires starts
    one oscillator at the note's frequency, tracks it as a [melody] unit
    and schedules the unit's self-cleanup; it schedules no further
    note. *)
Theorem melody_note_fires (id : nat) (freq : number) (w : World) :
  reachable w -> In (id, cbMelodyNote freq) (timerTable w) ->
  exists w',
    fire id w = Normal tt w' /\
    audioLog w' = audioLog w ++ [OscStart (nextNode w) melody freq] /\
    activeOscillators w'
    = activeOscillators w ++ [mkUnit (nextNode w) (S (nextNode w)) melody] /\
    timerTable w'
    = filter (fun p => negb (fst p =? id)) (timerTable w)
      ++ [(nextTimerId w, cbCleanup melody (nextNode w))] /\
    activeTimers w' = activeTimers w ++ [TimerId (nextTimerId w)].
Proof.
  intros Hr Hin. pose proof (reachableIn_Inv _ _ _ Hr) as H.
  pose proof (reachableIn_Tidy _ _ _ Hr) as Ht.
  destruct (pending_Live w id _ H Hin) as [_ Hp].
  pose proof (inv_playing H Hp) as Hc.
  rewrite (pending_fires w id _ Ht Hin).
  unfold bind at 1, clearTimeout, write. cbn [run].
  destruct (cleared_frame id w) as (C1 & C2 & C3 & C4 & C5 & C6 & C7 & C8).
  cbv zeta in C1, C2, C3, C4, C5, C6, C7, C8.
  eexists. split.
  { apply melodyNote_run; [rewrite C1; exact Hc | rewrite C2; exact Hp]. }
  destruct (melodyNotePlayed_frame freq
              (set_timerTable (filter (fun p => negb (fst p =? id)) (timerTable w)) w))
    as (B1 & B2 & B3 & B4).
  rewrite B1, B2, B3, B4, C3, C4, C5, C6, C7, C8. repeat split.
Qed.

Lemma reachable_phraseWorld : reachable phraseWorld.
Proof. apply reach_step; [apply reachable_playingWorld | exact I]. Qed.

Lemma phraseWorld_pending :
  In (4, cbMelodyNote (nth 0 (nth 0 phrases []) NaN)) (timerTable phraseWorld).
Proof. vm_compute. do 2 right. left. reflexivity. Qed.

Lemma melody_note_fires_witness :
  reachable phraseWorld /\
  In (4, cbMelodyNote (nth 0 (nth 0 phrases []) NaN)) (timerTable phraseWorld) /\
  exists w',
    fire 4 phraseWorld = Normal tt w' /\
    audioLog w'
    = audioLog phraseWorld
      ++ [OscStart (nextNode phraseWorld) melody (nth 0 (nth 0 phrases []) NaN)] /\
    activeOscillators w'
    = activeOscillators phraseWorld
      ++ [mkUnit (nextNode phraseWorld) (S (nextNode phraseWorld)) melody] /\
    timerTable w'
    = filter (fun p => negb (fst p =? 4)) (timerTable phraseWorld)
      ++ [(nextTimerId phraseWorld, cbCleanup melody (nextNode phraseWorld))] /\
    activeTimers w' = activeTimers phraseWorld ++ [TimerId (nextTimerId phraseWorld)].
Proof.
  split; [apply reachable_phraseWorld |].
  split; [exact phraseWorld_pending |].
  exact (melody_note_fires 4 _ phraseWorld reachable_phraseWorld phraseWorld_pending).
Defined.

(** ** The chord stored during playback *)

Lemma Chorded_frame w w' : chordFrame w' = chordFrame w -> Chorded w -> Chorded w'.
Proof.
  unfold chordFrame, Chorded. intros E H. inversion E as [[E1 E2]].
  rewrite E1, E2. exact H.
Qed.

Lemma Chorded_keeps {A} (m : Js A) : keeps chordFrame m -> hoare Chorded m (fun _ => Chorded).
Proof. apply hoare_keeps, Chorded_frame. Qed.

Lemma Wired_frame w w' : wiredFrame w' = wiredFrame w -> Wired w -> Wired w'.
Proof.
  unfold wiredFrame, Wired. intros E H. inversion E as [[E1 E2]].
  rewrite E1, E2. exact H.
Qed.

Lemma Wired_keeps {A} (m : Js A) : keeps wiredFrame m -> hoare Wired m (fun _ => Wired).
Proof. apply hoare_keeps, Wired_frame. Qed.

Lemma chordAdvanced_chord i chord w : currentPadChordNotes (chordAdvanced i chord w) = chord.
Proof. by_projection. Qed.

Lemma Chorded_chordProgression i : hoare Chorded (chordProgression i) (fun _ => Chorded).
Proof.
  intros w r w' Hw E.
  destruct (negb (isPlaying w) || isNull (audioContext w)) eqn:Eg.
  - unfold chordProgression, bind at 1, read in E. rewrite Eg in E. inversion E.
    subst. exact Hw.
  - apply orb_false_iff in Eg. destruct Eg as [Ep Ec]. apply negb_false_iff in Ep.
    assert (Hc : audioContext w <> None)
      by (destruct (audioContext w); [discriminate | discriminate Ec]).
    destruct (nth_error chords i) as [chord|] eqn:Ei.
    + rewrite (chordProgression_run i chord w Hc Ep Ei) in E.
      refine (hoare_run Chorded _ (fun _ => Chorded) _ r w' _ _ E).
      * apply hoare_when, Chorded_keeps. unfold arpeggioUpdate. keeps_all.
      * intros _. rewrite chordAdvanced_chord. apply (nth_error_In _ _ Ei).
    + exfalso. unfold chordProgression, bind at 1, read in E.
      rewrite Ep in E. destruct (audioContext w); [| congruence].
      cbn [negb isNull orb] in E. unfold bind at 1, entry, deref in E.
      rewrite Ei in E. discriminate E.
Qed.

Lemma Chorded_run cb : hoare Chorded (run cb) (fun _ => Chorded).
Proof.
  destruct cb; cbn [run]; try (apply Chorded_keeps; solve [keeps_all]).
  apply Chorded_chordProgression.
Qed.

Lemma Chorded_fire id : hoare Chorded (fire id) (fun _ => Chorded).
Proof.
  unfold fire. eapply hoare_bind; [apply Chorded_keeps; keeps_all | intros table].
  destruct (find _ table) as [[t cb]|]; [| apply hoare_ret; auto].
  eapply hoare_bind; [apply Chorded_keeps; keeps_all | intros ?]. apply Chorded_run.
Qed.

Lemma Chorded_stopAmbient : hoare Chorded stopAmbient (fun _ => Chorded).
Proof.
  intros w r w' Hw E.
  destruct (audioContext w) eqn:Ec; [destruct (isPlaying w) eqn:Ep |].
  - rewrite stopAmbient_run in E by congruence. inversion E.
    intros Hp. discriminate Hp.
  - rewrite stopAmbient_idle in E by (right; exact Ep). inversion E. subst. exact Hw.
  - rewrite stopAmbient_idle in E by (left; exact Ec). inversion E. subst. exact Hw.
Qed.

(** [startLayers], run with the nodes in place, has [createPad] store a
    chord of the progression, and the layers after it leave it there. *)
Lemma Wired_startLayers e : hoare Wired (startLayers e) (fun _ => Chorded).
Proof.
  intros w r w' [Hc Hm] E _.
  destruct (startPad_run e w Hc Hm) as (chord & Hin & Epad).
  rewrite startLayers_split in E. unfold bind at 1 in E. rewrite Epad in E.
  pose proof (keeps_chord_startRest e
                (padStarted e chord (volumeSet e (currentVolume w) (set_isPlaying true w))))
    as Hk.
  rewrite E in Hk. cbn [world_of] in Hk. rewrite Hk.
  destruct (padStarted_facts e chord (currentVolume w) w) as (_ & _ & _ & _ & _ & P6 & _).
  cbv zeta in P6. rewrite P6. exact Hin.
Qed.

Lemma Chorded_startAmbient b e :
  hoare (fun w => InvAt b w /\ Chorded w) (startAmbient e) (fun _ => Chorded).
Proof.
  unfold startAmbient.
  eapply hoare_bind;
    [apply (hoare_with (InvAt b) Chorded);
       [apply InvAt_initAudio | apply Chorded_keeps; keeps_all]
    | intros nodes].
  eapply hoare_bind; [apply hoare_read | intros w0].
  destruct (negb nodes || isNull (audioContext w0) || isPlaying w0) eqn:Eg.
  { apply hoare_ret. intros w [[_ Hw] _]. exact Hw. }
  apply orb_false_iff in Eg. destruct Eg as [Eg _].
  apply orb_false_iff in Eg. destruct Eg as [_ Ec].
  destruct (contextSuspended e).
  - eapply hoare_pre; [| apply Chorded_keeps; keeps_all]. intros w [[_ Hw] _]. exact Hw.
  - apply hoare_pre with (P' := Wired).
    { intros w [[[[Hi _] _] _] ->].
      assert (Hc : audioContext w <> None)
        by (destruct (audioContext w); [discriminate | discriminate Ec]).
      split; [exact Hc | apply (inv_nodes Hi Hc)]. }
    eapply hoare_bind; [apply Wired_keeps; keeps_all | intros ?].
    eapply hoare_bind; [apply Wired_keeps; keeps_all | intros ?].
    apply Wired_startLayers.
Qed.

Lemma Chorded_resumeSettled e resolved :
  hoare (fun w => Inv w /\ Chorded w) (resumeSettled e resolved) (fun _ => Chorded).
Proof.
  unfold resumeSettled. eapply hoare_bind; [apply hoare_read | intros n].
  destruct n as [|n'].
  { apply hoare_ret. intros w [[_ Hw] _]. exact Hw. }
  destruct resolved.
  - apply hoare_pre with (P' := Wired).
    { intros w [[Hi _] Hn].
      assert (Hc : audioContext w <> None)
        by (apply (inv_resuming Hi); rewrite <- Hn; discriminate).
      split; [exact Hc | apply (inv_nodes Hi Hc)]. }
    eapply hoare_bind; [apply Wired_keeps; keeps_all | intros ?].
    apply Wired_startLayers.
  - eapply hoare_pre; [| apply Chorded_keeps; keeps_all]. intros w [[_ Hw] _]. exact Hw.
Qed.

Lemma Chorded_perform e a :
  hoare (fun w => Inv w /\ Chorded w) (perform e a) (fun _ => Chorded).
Proof.
  assert (Hq : forall m : Js unit,
             hoare Chorded m (fun _ => Chorded) ->
             hoare (fun w => Inv w /\ Chorded w) m (fun _ => Chorded)).
  { intros m H. eapply hoare_pre; [| exact H]. intros w Hw. apply Hw. }
  destruct a; cbn [perform]; try (apply Hq, Chorded_keeps; solve [keeps_all]).
  - intros w r w' [Hi Hw] E.
    apply (Chorded_startAmbient (isPlaying w) e w r w'); [| exact E].
    split; [split; [exact Hi | reflexivity] | exact Hw].
  - apply Hq, Chorded_stopAmbient.
  - apply Hq, Chorded_fire.
  - apply Chorded_resumeSettled.
Qed.

Lemma reachableIn_Chorded envOk volumeOk w : reachableIn envOk volumeOk w -> Chorded w.
Proof.
  induction 1 as [muted volume Hv | w e a Hr IH He].
  - intros Hp. discriminate Hp.
  - pose proof (reachableIn_Inv _ _ _ Hr) as Hi.
    destruct (Inv_perform e a w Hi) as (r & w' & E & _).
    rewrite E. cbn [world_of]. apply (Chorded_perform e a w r w' (conj Hi IH) E).
Qed.



(** *** Enabling the arpeggiator during playback *)

Lemma toggleArpeggiator_on_run w :
  isPlaying w = true -> arpeggiatorEnabled w = false ->
  toggleArpeggiator w = createArpeggio (arpeggiatorOn w).
Proof.
  intros Hp Ha. unfold toggleArpeggiator, arpeggiatorOn, bind, write, read, log. simpl.
  rewrite Hp, Ha. reflexivity.
Qed.

Lemma arpeggiatorOn_frame w :
  audioContext (arpeggiatorOn w) = audioContext w /\
  masterGain (arpeggiatorOn w) = masterGain w /\
  isPlaying (arpeggiatorOn w) = isPlaying w /\
  arpeggiatorEnabled (arpeggiatorOn w) = true /\
  currentPadChordNotes (arpeggiatorOn w) = currentPadChordNotes w /\
  nextNode (arpeggiatorOn w) = nextNode w /\
  nextTimerId (arpeggiatorOn w) = nextTimerId w /\
  audioLog (arpeggiatorOn w) = audioLog w /\
  activeOscillators (arpeggiatorOn w) = activeOscillators w /\
  timerTable (arpeggiatorOn w) = timerTable w /\
  activeTimers (arpeggiatorOn w) = activeTimers w.
Proof. open_world w. repeat split. Qed.

Lemma arpeggioStarted_frame w :
  arpeggiatorEnabled (arpeggioStarted w) = arpeggiatorEnabled w /\
  activeTimers (arpeggioStarted w)
  = activeTimers w ++ [TimerId (nextTimerId w);
                       Tagged (S (nextTimerId w)) "arpeggio_note"].
Proof. open_world w. repeat split. Qed.



(** ** Muting *)

Lemma toggleMute_create e w :
  audioContext w = None -> audioSupported e = true ->
  toggleMute e w = Normal tt (muteFlipped e (initialized e w)).
Proof.
  intros Hc Hs. unfold toggleMute, bind at 1.
  rewrite initAudio_create by assumption.
  unfold muteFlipped, initialized. open_world w. cbn [audioContext] in Hc. subst.
  destruct (contextSuspended e), storedMuted0 as [s|],
    (lt muteThreshold (masterGainValue e)); exec;
    try destruct (String.eqb s "true"); exec; rewrite <- ?app_assoc, ?app_nil_r;
    reflexivity.
Qed.

Lemma muteToggled_facts e w :
  audioContext (muteToggled e w) = audioContext w /\
  isMuted (muteToggled e w) = negb (isMuted w) /\
  currentVolume (muteToggled e w) = volumeAfterToggle e (isMuted w) (currentVolume w) /\
  storedVolume (muteToggled e w) = storedVolume w /\
  exists before,
    audioLog (muteToggled e w)
    = before ++ [MasterRamp (rampTarget (isMuted w) (currentVolume w)) 200].
Proof.
  unfold muteToggled, volumeAfterToggle, rampTarget. open_world w.
  cbn [isMuted currentVolume audioContext storedVolume].
  destruct isMuted0; world; repeat (split; [reflexivity |]).
  - exists (audioLog0 ++ (if contextSuspended e then [ContextResume] else [])
            ++ [MasterCancel; MasterSetValue zero]).
    rewrite <- !app_assoc. reflexivity.
  - exists (audioLog0 ++ (if contextSuspended e then [ContextResume] else [])
            ++ [MasterCancel; MasterSetValue (masterGainValue e)]).
    rewrite <- !app_assoc. reflexivity.
Qed.

Lemma muteFlipped_facts e w :
  audioContext (muteFlipped e w) = audioContext w /\
  isMuted (muteFlipped e w) = negb (isMuted w) /\
  currentVolume (muteFlipped e w) = volumeAfterToggle e (isMuted w) (currentVolume w) /\
  storedVolume (muteFlipped e w) = storedVolume w /\
  exists before,
    audioLog (muteFlipped e w)
    = before ++ [MasterRamp (rampTarget (isMuted w) (currentVolume w)) 200].
Proof.
  unfold muteFlipped, volumeAfterToggle, rampTarget. open_world w.
  cbn [isMuted currentVolume audioContext storedVolume].
  destruct isMuted0; world; repeat (split; [reflexivity |]).
  - exists (audioLog0 ++ [MasterCancel; MasterSetValue zero]).
    rewrite <- !app_assoc. reflexivity.
  - exists (audioLog0 ++ [MasterCancel; MasterSetValue (masterGainValue e)]).
    rewrite <- !app_assoc. reflexivity.
Qed.

Lemma initialized_facts e w :
  audioContext (initialized e w) = Some (nextNode w) /\
  isMuted (initialized e w) = storedTrue (storedMuted w) /\
  currentVolume (initialized e w)
  = match storedVolume w with Some v => v | None => defaultVolume end /\
  storedVolume (initialized e w) = storedVolume w.
Proof. open_world w. repeat split. Qed.



(** *** A beat pair of the heartbeat *)

Lemma cleared_heartbeatEnabled id w :
  heartbeatEnabled
    (set_timerTable (filter (fun p => negb (fst p =? id)) (timerTable w)) w)
  = heartbeatEnabled w.
Proof. open_world w. reflexivity. Qed.

Lemma filter_absent {B} (l : list (nat * B)) id :
  ~ In id (map fst l) -> filter (fun p => negb (fst p =? id)) l = l.
Proof.
  induction l as [|q l IH]; intros Hx; [reflexivity |].
  cbn [filter]. destruct (fst q =? id) eqn:E.
  - exfalso. apply Hx. apply Nat.eqb_eq in E. left. exact E.
  - cbn [negb]. rewrite IH; [reflexivity |]. intros Hin. apply Hx. right. exact Hin.
Qed.

(** Clearing a pending timer takes one entry out of the table. *)
Lemma filter_cleared_length {B} (g : nat * B -> bool) (l : list (nat * B)) id b :
  NoDup (map fst l) -> In (id, b) l -> g (id, b) = true ->
  List.length (filter g l)
  = S (List.length (filter g (filter (fun p => negb (fst p =? id)) l))).
Proof.
  induction l as [|p l IH]; intros Hnd Hin Hg; [destruct Hin |].
  cbn [map] in Hnd. inversion Hnd as [|x xs Hx Hl]; subst.
  cbn [filter]. destruct Hin as [-> | Hin].
  - cbn [fst] in *. rewrite Nat.eqb_refl, Hg. cbn [negb List.length].
    rewrite (filter_absent l id Hx). reflexivity.
  - assert (Hne : (fst p =? id) = false).
    { apply Nat.eqb_neq. intros E. apply Hx. rewrite E.
      apply in_map_iff. exists (id, b). auto. }
    rewrite Hne. cbn [negb filter].
    destruct (g p); cbn [List.length]; rewrite (IH Hl Hin Hg); reflexivity.
Qed.

(** With the heartbeat enabled, a pending beat pair that fires plays two
    beats -- two oscillators at the base frequency, each tracked as a
    [heartbeat] unit with its self-cleanup -- and schedules the pair
    after it: as many beat pairs are pending afterwards as before.  So a
    heartbeat sequence neither ends by itself nor merges with another
    one running beside it. *)
Theorem beat_pair_fires (id : nat) (w : World) :
  reachable w -> In (id, cbPlayBeatPair) (timerTable w) -> heartbeatEnabled w = true ->
  exists w',
    fire id w = Normal tt w' /\
    audioLog w'
    = audioLog w ++ [OscStart (nextNode w) heartbeat baseFreq;
                     OscStart (2 + nextNode w) heartbeat baseFreq] /\
    activeOscillators w'
    = activeOscillators w ++ [mkUnit (nextNode w) (S (nextNode w)) heartbeat;
                              mkUnit (2 + nextNode w) (3 + nextNode w) heartbeat] /\
    timerTable w'
    = filter (fun p => negb (fst p =? id)) (timerTable w)
      ++ [(nextTimerId w, cbCleanup heartbeat (nextNode w));
          (S (nextTimerId w), cbCleanup heartbeat (2 + nextNode w));
          (S (S (nextTimerId w)), cbPlayBeatPair)] /\
    pendingBeatPairs w' = pendingBeatPairs w.
Proof.
  intros Hr Hin Hh. pose proof (reachableIn_Inv _ _ _ Hr) as H.
  pose proof (reachableIn_Tidy _ _ _ Hr) as Ht.
  destruct (pending_Live w id _ H Hin) as [_ Hp].
  pose proof (inv_playing H Hp) as Hc.
  rewrite (pending_fires w id _ Ht Hin).
  unfold bind at 1, clearTimeout, write. cbn [run].
  destruct (cleared_frame id w) as (C1 & C2 & C3 & C4 & C5 & C6 & C7 & C8).
  cbv zeta in C1, C2, C3, C4, C5, C6, C7, C8.
  eexists. split.
  { apply playBeatPair_run;
      [rewrite C1; exact Hc | rewrite C2; exact Hp
      | rewrite cleared_heartbeatEnabled; exact Hh]. }
  destruct (beatPairStarted_frame
              (set_timerTable (filter (fun p => negb (fst p =? id)) (timerTable w)) w))
    as (_ & _ & B1 & B2 & B3).
  unfold pendingBeatPairs.
  rewrite B1, B2, B3, C3, C4, C5, C6, C8.
  repeat (split; [reflexivity |]).
  rewrite filter_app, length_app.
  rewrite (filter_cleared_length isBeatPair (timerTable w) id cbPlayBeatPair
             (tidy_ids w Ht) Hin eq_refl).
  cbn [filter isBeatPair snd List.length]. lia.
Qed.

Lemma heartWorld_pending : In (6, cbPlayBeatPair) (timerTable heartWorld).
Proof. vm_compute. do 5 right. left. reflexivity. Qed.

Lemma beat_pair_fires_witness :
  reachable heartWorld /\ In (6, cbPlayBeatPair) (timerTable heartWorld) /\
  heartbeatEnabled heartWorld = true /\
  exists w',
    fire 6 heartWorld = Normal tt w' /\
    audioLog w'
    = audioLog heartWorld ++ [OscStart (nextNode heartWorld) heartbeat baseFreq;
                              OscStart (2 + nextNode heartWorld) heartbeat baseFreq] /\
    activeOscillators w'
    = activeOscillators heartWorld
      ++ [mkUnit (nextNode heartWorld) (S (nextNode heartWorld)) heartbeat;
          mkUnit (2 + nextNode heartWorld) (3 + nextNode heartWorld) heartbeat] /\
    timerTable w'
    = filter (fun p => negb (fst p =? 6)) (timerTable heartWorld)
      ++ [(nextTimerId heartWorld, cbCleanup heartbeat (nextNode heartWorld));
          (S (nextTimerId heartWorld), cbCleanup heartbeat (2 + nextNode heartWorld));
          (S (S (nextTimerId heartWorld)), cbPlayBeatPair)] /\
    pendingBeatPairs w' = pendingBeatPairs heartWorld.
Proof.
  split; [apply reachable_heartWorld |].
  split; [exact heartWorld_pending |]. split; [reflexivity |].
  exact (beat_pair_fires 6 heartWorld reachable_heartWorld heartWorld_pending eq_refl).
Defined.

(** ** The ids in [activeTimers] accumulate *)

Lemma Held_keeps {A} t (m : Js A) :
  keeps activeTimers m -> hoare (Held t) m (fun _ => Held t).
Proof.
  apply (hoare_keeps activeTimers). unfold Held. intros w w' E H. rewrite E. exact H.
Qed.

Lemma Held_pushTimer t x : hoare (Held t) (pushTimer x) (fun _ => Held t).
Proof.
  apply hoare_write. intros w H. unfold Held in *.
  change (In (TimerId t) (activeTimers w ++ [x])). apply in_or_app. left. exact H.
Qed.

Lemma Held_stopArpeggioSequence t :
  hoare (Held t) stopArpeggioSequence (fun _ => Held t).
Proof.
  intros w r w' Hw E. destruct (audioContext w) eqn:Ec.
  - rewrite stopArpeggioSequence_run in E by congruence. inversion E. unfold Held.
    change (In (TimerId t) (filter (fun x => negb (isArpTimer x)) (activeTimers w))).
    apply filter_In. split; [exact Hw | reflexivity].
  - destruct (stopArpeggioSequence_fault w Ec) as (w1 & E1). rewrite E1 in E. discriminate E.
Qed.

Create HintDb held.
#[local] Hint Resolve Held_pushTimer Held_stopArpeggioSequence : held.

Ltac held :=
  cbv beta zeta;
  lazymatch goal with
  | |- hoare _ (bind _ _) _ => eapply hoare_bind; [held | intros ?; held]
  | |- hoare _ (ret _) _ => apply hoare_ret; auto
  | |- hoare _ (when _ _) _ => apply hoare_when; held
  | |- hoare _ (if ?b then _ else _) _ => destruct b; held
  | |- hoare _ (match ?x with _ => _ end) _ => destruct x; held
  | |- hoare _ (forEach _ _) _ => apply hoare_forEach; intros ?; held
  | |- _ => first [ apply Held_keeps; solve [keeps_all] | solve [eauto with held] ]
  end.

Lemma Held_playArpNote t arpNotes i :
  hoare (Held t) (playArpNote arpNotes i) (fun _ => Held t).
Proof. unfold playArpNote. held. Qed.

#[local] Hint Resolve Held_playArpNote : held.

Lemma Held_createArpeggio t : hoare (Held t) createArpeggio (fun _ => Held t).
Proof. unfold createArpeggio. held. Qed.

#[local] Hint Resolve Held_createArpeggio : held.

Lemma Held_chordProgression t i : hoare (Held t) (chordProgression i) (fun _ => Held t).
Proof.
  intros w r w' Hw E.
  destruct (negb (isPlaying w) || isNull (audioContext w)) eqn:Eg.
  - unfold chordProgression, bind at 1, read in E. rewrite Eg in E. inversion E.
    subst. exact Hw.
  - apply orb_false_iff in Eg. destruct Eg as [Ep Ec]. apply negb_false_iff in Ep.
    assert (Hc : audioContext w <> None)
      by (destruct (audioContext w); [discriminate | discriminate Ec]).
    destruct (nth_error chords i) as [chord|] eqn:Ei.
    + rewrite (chordProgression_run i chord w Hc Ep Ei) in E.
      refine (hoare_run (Held t) _ (fun _ => Held t) _ r w' _ _ E).
      * apply hoare_when. unfold arpeggioUpdate. held.
      * unfold Held. rewrite chordAdvanced_activeTimers. apply in_or_app. left. exact Hw.
    + exfalso. unfold chordProgression, bind at 1, read in E.
      rewrite Ep in E. destruct (audioContext w); [| congruence].
      cbn [negb isNull orb] in E. unfold bind at 1, entry, deref in E.
      rewrite Ei in E. discriminate E.
Qed.

#[local] Hint Resolve Held_chordProgression : held.

Lemma Held_createPad t e : hoare (Held t) (createPad e) (fun _ => Held t).
Proof. unfold createPad. held. Qed.

Lemma Held_playBassNote t i : hoare (Held t) (playBassNote i) (fun _ => Held t).
Proof. unfold playBassNote. held. Qed.

Lemma Held_createBassline t e : hoare (Held t) (createBassline e) (fun _ => Held t).
Proof. unfold createBassline. held. Qed.

Lemma Held_melodyNote t freq : hoare (Held t) (melodyNote freq) (fun _ => Held t).
Proof. unfold melodyNote. held. Qed.

Lemma Held_playPhrase t i : hoare (Held t) (playPhrase i) (fun _ => Held t).
Proof. unfold playPhrase. held. Qed.

Lemma Held_createMelody t e : hoare (Held t) (createMelody e) (fun _ => Held t).
Proof. unfold createMelody. held. Qed.

Lemma Held_playSingleBeat t : hoare (Held t) playSingleBeat (fun _ => Held t).
Proof. unfold playSingleBeat. held. Qed.

#[local] Hint Resolve Held_playSingleBeat : held.

Lemma Held_playBeatPair t : hoare (Held t) playBeatPair (fun _ => Held t).
Proof. unfold playBeatPair. held. Qed.

#[local] Hint Resolve Held_playBeatPair : held.

Lemma Held_createHeartbeat t : hoare (Held t) createHeartbeat (fun _ => Held t).
Proof. unfold createHeartbeat. held. Qed.

#[local] Hint Resolve Held_createPad Held_createBassline Held_createMelody
  Held_createHeartbeat Held_playBassNote Held_playPhrase Held_melodyNote : held.

Lemma Held_run t cb : hoare (Held t) (run cb) (fun _ => Held t).
Proof.
  destruct cb; cbn [run]; eauto with held. apply Held_keeps. keeps_all.
Qed.

#[local] Hint Resolve Held_run : held.

Lemma Held_fire t id : hoare (Held t) (fire id) (fun _ => Held t).
Proof. unfold fire. held. Qed.

Lemma Held_toggleHeartbeat t : hoare (Held t) toggleHeartbeat (fun _ => Held t).
Proof.
  intros w r w' Hw E. rewrite toggleHeartbeat_steps in E.
  destruct (heartbeatFlipped_frame w) as (G1 & G2 & G3 & G4 & G5 & G6 & G7 & G8 & G9 & G10).
  assert (Hf : Held t (heartbeatFlipped w)) by (unfold Held; rewrite G7; exact Hw).
  refine (hoare_run (Held t) _ (fun _ => Held t) _ r w' _ Hf E).
  apply hoare_when. destruct (negb (heartbeatEnabled w)); [apply Held_createHeartbeat |].
  intros w1 r1 w1' H1 E1. destruct (audioContext w1) eqn:Ec.
  - rewrite heartbeatSweep_run in E1 by congruence. inversion E1.
    destruct (heartbeatSwept_frame w1) as (_ & F2 & _). unfold Held. rewrite F2. exact H1.
  - rewrite heartbeatSweep_fault in E1 by exact Ec. discriminate E1.
Qed.

Lemma Held_toggleArpeggiator t : hoare (Held t) toggleArpeggiator (fun _ => Held t).
Proof. unfold toggleArpeggiator. held. Qed.

Lemma Held_startLayers t e : hoare (Held t) (startLayers e) (fun _ => Held t).
Proof. unfold startLayers. held. Qed.

#[local] Hint Resolve Held_startLayers Held_toggleHeartbeat Held_toggleArpeggiator
  Held_fire : held.

Lemma Held_startAmbient t e : hoare (Held t) (startAmbient e) (fun _ => Held t).
Proof. unfold startAmbient. held. Qed.

Lemma Held_resumeSettled t e resolved :
  hoare (Held t) (resumeSettled e resolved) (fun _ => Held t).
Proof. unfold resumeSettled. held. Qed.

Lemma Held_ifBooleanDiffers t v current toggle :
  hoare (Held t) toggle (fun _ => Held t) ->
  hoare (Held t) (ifBooleanDiffers v current toggle) (fun _ => Held t).
Proof. intros H. unfold ifBooleanDiffers. held. Qed.

#[local] Hint Resolve Held_ifBooleanDiffers Held_startAmbient Held_resumeSettled : held.

Lemma Held_applySettings t e settings :
  hoare (Held t) (applySettings e settings) (fun _ => Held t).
Proof. unfold applySettings. held. Qed.

#[local] Hint Resolve Held_applySettings : held.

Lemma Held_perform t e a :
  a <> CallStopAmbient -> hoare (Held t) (perform e a) (fun _ => Held t).
Proof. intros Ha. destruct a; cbn [perform]; try congruence; held. Qed.

(** Nothing but [stopAmbient] takes a plain timer id out of
    [activeTimers]: in every state the engine reaches, an id tracked
    there stays tracked through every other call, through every timer
    that fires -- its own included -- and through a settled resume.  So
    the ids of timers that have long fired stay in the list until
    playback is stopped. *)
Theorem timer_ids_accumulate (e : Env) (a : Action) (t : nat) (w : World) :
  reachable w -> a <> CallStopAmbient -> In (TimerId t) (activeTimers w) ->
  exists r w',
    perform e a w = Normal r w' /\ In (TimerId t) (activeTimers w').
Proof.
  intros Hr Ha Hin. pose proof (reachableIn_Inv _ _ _ Hr) as Hi.
  destruct (Inv_perform e a w Hi) as (r & w' & E & _).
  exists r, w'. split; [exact E |]. apply (Held_perform t e a Ha w r w' Hin E).
Qed.

Lemma playingWorld_tracked : In (TimerId 2) (activeTimers playingWorld).
Proof. vm_compute. right. left. reflexivity. Qed.

Lemma timer_ids_accumulate_witness :
  reachable playingWorld /\ TimerFires 2 <> CallStopAmbient /\
  In (TimerId 2) (activeTimers playingWorld) /\
  exists r w',
    perform quietEnv (TimerFires 2) playingWorld = Normal r w' /\
    In (TimerId 2) (activeTimers w').
Proof.
  split; [apply reachable_playingWorld |]. split; [discriminate |].
  split; [exact playingWorld_tracked |].
  refine (timer_ids_accumulate quietEnv (TimerFires 2) 2 playingWorld
            reachable_playingWorld _ playingWorld_tracked).
  discriminate.
Defined.

(** ** Overlapping starts *)

Lemma loopsIn_app l a b : loopsIn l (a ++ b) = loopsIn l a + loopsIn l b.
Proof. unfold loopsIn. rewrite filter_app, length_app. reflexivity. Qed.

Lemma typesIn_app l a b : typesIn l (a ++ b) = typesIn l a + typesIn l b.
Proof. unfold typesIn. rewrite filter_app, length_app. reflexivity. Qed.

Lemma typesIn_swept l us : typesIn l (map type (filter (notOf l) us)) = 0.
Proof.
  unfold typesIn, notOf. induction us as [|u us IH]; [reflexivity |].
  cbn [filter]. destruct (Layer_eqb (type u) l) eqn:E; cbn [negb]; [exact IH |].
  cbn [map filter]. rewrite E. exact IH.
Qed.

(** The texture's starter adds a source unless one is tracked. *)
Lemma createTexture_adds_any w :
  ready w ->
  exists w',
    createTexture w = Normal tt w' /\
    adds [] (if existsb (fun t => Layer_eqb t texture) (map type (activeOscillators w))
             then [] else [texture]) w w'.
Proof.
  intros Hr.
  destruct (existsb (fun t => Layer_eqb t texture) (map type (activeOscillators w))) eqn:Ht.
  - exists w. split; [| apply adds_refl].
    rewrite createTexture_cases, existsb_types, Ht, !orb_true_r. reflexivity.
  - apply createTexture_adds; assumption.
Qed.

(** What the layers started after the pad add, whatever is tracked and
    pending already. *)
Lemma startRest_adds_any e w :
  ready w -> currentPadChordNotes w <> [] ->
  exists w' n1 n2 n3,
    startRest e w = Normal tt w' /\
    adds ([cbPlayBassNote (randomIndex (randomBass e) (List.length bassNotes));
           cbPlayPhrase (randomIndex (randomPhrase e) (List.length phrases))]
          ++ (if heartbeatEnabled w
              then [cbCleanup heartbeat n1; cbCleanup heartbeat n2; cbPlayBeatPair]
              else [])
          ++ (if arpeggiatorEnabled w
              then [cbCleanup arpeggio n3;
                    cbPlayArpNote (arpNotesOf (currentPadChordNotes w)) 1]
              else []))
         ((if existsb (fun t => Layer_eqb t texture) (map type (activeOscillators w))
           then [] else [texture])
          ++ (if heartbeatEnabled w then [heartbeat; heartbeat] else [])
          ++ (if arpeggiatorEnabled w then [arpeggio] else [])) w w'.
Proof.
  intros Hr Hne. unfold startRest.
  destruct (createBassline_adds e w Hr) as (w1 & E1 & A1).
  rewrite (bind_step _ _ _ _ _ E1).
  pose proof (ready_adds _ _ _ _ A1 Hr) as Hr1.
  destruct (createTexture_adds_any w1 Hr1) as (w2 & E2 & A2).
  assert (Eu : map type (activeOscillators w1) = map type (activeOscillators w)).
  { destruct A1 as (_ & _ & _ & _ & _ & _ & _ & Eu). rewrite Eu. apply app_nil_r. }
  rewrite Eu in A2.
  rewrite (bind_step _ _ _ _ _ E2).
  pose proof (ready_adds _ _ _ _ A2 Hr1) as Hr2.
  destruct (createMelody_adds e w2 Hr2) as (w3 & E3 & A3).
  rewrite (bind_step _ _ _ _ _ E3).
  pose proof (ready_adds _ _ _ _ A3 Hr2) as Hr3.
  pose proof (adds_trans _ _ _ _ _ _ _ (adds_trans _ _ _ _ _ _ _ A1 A2) A3) as A13.
  cbn [app] in A13. rewrite app_nil_r in A13.
  rewrite bind_read.
  destruct (heartbeat_adds w3 Hr3) as (w4 & n1 & n2 & E4 & A4).
  rewrite (bind_step _ _ _ _ _ E4).
  pose proof (ready_adds _ _ _ _ A4 Hr3) as Hr4.
  pose proof (adds_trans _ _ _ _ _ _ _ A13 A4) as A14.
  rewrite !bind_read.
  destruct (arpeggio_adds w4 Hr4) as (w5 & n3 & E5 & A5).
  { destruct A14 as (_ & _ & _ & _ & _ & Ec & _). rewrite Ec. exact Hne. }
  pose proof (adds_trans _ _ _ _ _ _ _ A14 A5) as A15.
  destruct A14 as (_ & _ & _ & Eh & Ea & Ec & _).
  destruct A13 as (_ & _ & _ & Eh3 & _).
  rewrite Ea, Ec in A15. rewrite Eh3 in A15.
  exists w5, n1, n2, n3. split; [exact E5 |].
  rewrite <- !app_assoc in A15. cbn [app] in A15. cbn [app]. exact A15.
Qed.

Lemma resumeSettled_run e n w :
  resuming w = S n -> resumeSettled e true w = startLayers e (set_resuming n w).
Proof. intros Hn. unfold resumeSettled. rewrite bind_read, Hn. reflexivity. Qed.

Lemma set_resuming_frame n w :
  audioContext (set_resuming n w) = audioContext w /\
  masterGain (set_resuming n w) = masterGain w /\
  heartbeatEnabled (set_resuming n w) = heartbeatEnabled w /\
  arpeggiatorEnabled (set_resuming n w) = arpeggiatorEnabled w /\
  timerTable (set_resuming n w) = timerTable w /\
  activeOscillators (set_resuming n w) = activeOscillators w.
Proof. open_world w. repeat split. Qed.


Lemma reachable_overlappedWorld : reachable overlappedWorld.
Proof. repeat (apply reach_step; [| exact I]). apply reachable_freshPage. Qed.

Lemma overlappedWorld_waiting :
  isPlaying overlappedWorld = true /\ resuming overlappedWorld <> 0.
Proof. vm_compute. split; [reflexivity | discriminate]. Qed.

